(** * coc-eslint: library-execution trust gate, status reduction and
      working-directory resolution of [src/index.ts]

    A shallow embedding of the stateful core of the extension:

    - the [ConfirmExecution] request handler (the execution gate),
    - [askForLibraryConfirmation] and [resetLibraryConfirmations],
    - [findApplicableStatus] and [ConfirmExecutionResult.toStatus],
    - the [workingDirectories] loop of the [workspace.configuration]
      middleware.

    The module-level variables of [index.ts] become the fields of one
    [Store]; functions that mutate them are written in a state monad with
    exceptions, so that JavaScript's [try]/[catch] and the persistence of
    mutations made before a [throw] are kept.  [ExecutionInfo] objects are
    shared between three maps in the source, so they live in a heap and
    the maps hold references.

    Strings are sequences of code units, one [ascii] per unit (paths whose
    code units are below 256). *)

From Stdlib Require Import String Ascii ZArith List Bool Lia.
From stdpp Require Import base option gmap strings list.
Import ListNotations.
Open Scope string_scope.

(** ** Enumerations *)

Inductive ExecutionScope := scope_local | scope_global.

Module Status.
Inductive t :=
| ok | warn | error | confirmationPending | executionDisabled | executionDenied.
End Status.

Module ConfirmExecutionResult.
Inductive t := denied | confirmationPending | disabled | approved.

Definition toStatus (value : t) : Status.t :=
  match value with
  | denied => Status.executionDenied
  | confirmationPending => Status.confirmationPending
  | disabled => Status.executionDisabled
  | approved => Status.ok
  end.
End ConfirmExecutionResult.

Module ConfirmationSelection.
Inductive t := deny | disable | allow | alwaysAllow.
End ConfirmationSelection.

#[global] Instance ExecutionScope_eq_dec : EqDecision ExecutionScope.
Proof. solve_decision. Defined.
#[global] Instance Status_eq_dec : EqDecision Status.t.
Proof. solve_decision. Defined.
#[global] Instance ConfirmExecutionResult_eq_dec : EqDecision ConfirmExecutionResult.t.
Proof. solve_decision. Defined.
#[global] Instance ConfirmationSelection_eq_dec : EqDecision ConfirmationSelection.t.
Proof. solve_decision. Defined.

(** ** Objects *)

(** [ExecutionParams]; [uri] is present when the object is a
    [ConfirmExecutionParams] (the subtype the request handler receives). *)
Record ExecutionParams := {
  scope : ExecutionScope;
  libraryPath : string;
  uri : option string
}.

Record ConfirmExecutionParams := {
  c_scope : ExecutionScope;
  c_libraryPath : string;
  c_uri : string
}.

(** The request parameters seen through the supertype. *)
Definition as_params (p : ConfirmExecutionParams) : ExecutionParams :=
  {| scope := c_scope p; libraryPath := c_libraryPath p; uri := Some (c_uri p) |}.

(** A [Disposable] code-action provider: still registered, or disposed. *)
Inductive Disposable := registered | disposed.

(** References to [ExecutionInfo] objects: indices into the heap. *)
Definition Ref := nat.

(** [diagnostics] is the set of document URIs that carry the
    "not approved or denied yet" diagnostic of this library. *)
Record ExecutionInfo := {
  params : ExecutionParams;
  result : ConfirmExecutionResult.t;
  editorErrorUri : option string;
  diagnostics : gset string;
  codeActionProvider : option Disposable
}.

Record ResourceInfo := {
  status : Status.t;
  executionInfo : option Ref
}.

(** ** JavaScript [Map] with observable insertion order *)

Module JsMap.
Section Ops.
Context {V : Type}.

Definition t := list (string * V).

Fixpoint get (k : string) (m : list (string * V)) : option V :=
  match m with
  | [] => None
  | (k', v) :: m' => if decide (k' = k) then Some v else get k m'
  end.

(** [set] keeps the position of an existing key and appends a new one. *)
Fixpoint set (k : string) (v : V) (m : list (string * V)) : list (string * V) :=
  match m with
  | [] => [(k, v)]
  | (k', v') :: m' =>
      if decide (k' = k) then (k, v) :: m' else (k', v') :: set k v m'
  end.

Definition has (k : string) (m : list (string * V)) : bool :=
  match get k m with Some _ => true | None => false end.

Definition keys (m : list (string * V)) : list string := map fst m.
Definition values (m : list (string * V)) : list V := map snd m.
Definition size (m : list (string * V)) : nat := length m.
End Ops.
Arguments t : clear implicits.
End JsMap.

(** ** The store: the module-level variables of [index.ts] *)

Record Store := {
  (** [eslintExecutionState.libs] *)
  eslintExecutionState : gmap string bool;
  eslintAlwaysAllowExecutionState : bool;
  (** what [context.globalState] holds under the two keys *)
  globalState_libs : option (gmap string bool);
  globalState_alwaysAllow : option bool;
  sessionState : JsMap.t ExecutionParams;
  disabledLibraries : gset string;
  resource2ResourceInfo : gmap string ResourceInfo;
  (** the [ExecutionInfo] objects allocated so far *)
  heap : list ExecutionInfo;
  libraryPath2ExecutionInfo : JsMap.t Ref;
  workspaceFolder2ExecutionInfos : gmap string (list Ref);
  (** calls of [updateStatusBarAndDiagnostics] made by the request handler *)
  statusUpdates : nat;
  (** [DidChangeConfiguration] notifications sent to the server *)
  notifications : nat
}.

Definition with_eslintExecutionState (v : gmap string bool) (s : Store) : Store :=
  {| eslintExecutionState := v;
     eslintAlwaysAllowExecutionState := eslintAlwaysAllowExecutionState s;
     globalState_libs := globalState_libs s;
     globalState_alwaysAllow := globalState_alwaysAllow s;
     sessionState := sessionState s;
     disabledLibraries := disabledLibraries s;
     resource2ResourceInfo := resource2ResourceInfo s;
     heap := heap s;
     libraryPath2ExecutionInfo := libraryPath2ExecutionInfo s;
     workspaceFolder2ExecutionInfos := workspaceFolder2ExecutionInfos s;
     statusUpdates := statusUpdates s;
     notifications := notifications s |}.

Definition with_eslintAlwaysAllowExecutionState (v : bool) (s : Store) : Store :=
  {| eslintExecutionState := eslintExecutionState s;
     eslintAlwaysAllowExecutionState := v;
     globalState_libs := globalState_libs s;
     globalState_alwaysAllow := globalState_alwaysAllow s;
     sessionState := sessionState s;
     disabledLibraries := disabledLibraries s;
     resource2ResourceInfo := resource2ResourceInfo s;
     heap := heap s;
     libraryPath2ExecutionInfo := libraryPath2ExecutionInfo s;
     workspaceFolder2ExecutionInfos := workspaceFolder2ExecutionInfos s;
     statusUpdates := statusUpdates s;
     notifications := notifications s |}.

Definition with_globalState (l : option (gmap string bool)) (a : option bool)
    (s : Store) : Store :=
  {| eslintExecutionState := eslintExecutionState s;
     eslintAlwaysAllowExecutionState := eslintAlwaysAllowExecutionState s;
     globalState_libs := l;
     globalState_alwaysAllow := a;
     sessionState := sessionState s;
     disabledLibraries := disabledLibraries s;
     resource2ResourceInfo := resource2ResourceInfo s;
     heap := heap s;
     libraryPath2ExecutionInfo := libraryPath2ExecutionInfo s;
     workspaceFolder2ExecutionInfos := workspaceFolder2ExecutionInfos s;
     statusUpdates := statusUpdates s;
     notifications := notifications s |}.

Definition with_sessionState (v : JsMap.t ExecutionParams) (s : Store) : Store :=
  {| eslintExecutionState := eslintExecutionState s;
     eslintAlwaysAllowExecutionState := eslintAlwaysAllowExecutionState s;
     globalState_libs := globalState_libs s;
     globalState_alwaysAllow := globalState_alwaysAllow s;
     sessionState := v;
     disabledLibraries := disabledLibraries s;
     resource2ResourceInfo := resource2ResourceInfo s;
     heap := heap s;
     libraryPath2ExecutionInfo := libraryPath2ExecutionInfo s;
     workspaceFolder2ExecutionInfos := workspaceFolder2ExecutionInfos s;
     statusUpdates := statusUpdates s;
     notifications := notifications s |}.

Definition with_disabledLibraries (v : gset string) (s : Store) : Store :=
  {| eslintExecutionState := eslintExecutionState s;
     eslintAlwaysAllowExecutionState := eslintAlwaysAllowExecutionState s;
     globalState_libs := globalState_libs s;
     globalState_alwaysAllow := globalState_alwaysAllow s;
     sessionState := sessionState s;
     disabledLibraries := v;
     resource2ResourceInfo := resource2ResourceInfo s;
     heap := heap s;
     libraryPath2ExecutionInfo := libraryPath2ExecutionInfo s;
     workspaceFolder2ExecutionInfos := workspaceFolder2ExecutionInfos s;
     statusUpdates := statusUpdates s;
     notifications := notifications s |}.

Definition with_resource2ResourceInfo (v : gmap string ResourceInfo) (s : Store) : Store :=
  {| eslintExecutionState := eslintExecutionState s;
     eslintAlwaysAllowExecutionState := eslintAlwaysAllowExecutionState s;
     globalState_libs := globalState_libs s;
     globalState_alwaysAllow := globalState_alwaysAllow s;
     sessionState := sessionState s;
     disabledLibraries := disabledLibraries s;
     resource2ResourceInfo := v;
     heap := heap s;
     libraryPath2ExecutionInfo := libraryPath2ExecutionInfo s;
     workspaceFolder2ExecutionInfos := workspaceFolder2ExecutionInfos s;
     statusUpdates := statusUpdates s;
     notifications := notifications s |}.

Definition with_heap (v : list ExecutionInfo) (s : Store) : Store :=
  {| eslintExecutionState := eslintExecutionState s;
     eslintAlwaysAllowExecutionState := eslintAlwaysAllowExecutionState s;
     globalState_libs := globalState_libs s;
     globalState_alwaysAllow := globalState_alwaysAllow s;
     sessionState := sessionState s;
     disabledLibraries := disabledLibraries s;
     resource2ResourceInfo := resource2ResourceInfo s;
     heap := v;
     libraryPath2ExecutionInfo := libraryPath2ExecutionInfo s;
     workspaceFolder2ExecutionInfos := workspaceFolder2ExecutionInfos s;
     statusUpdates := statusUpdates s;
     notifications := notifications s |}.

Definition with_libraryPath2ExecutionInfo (v : JsMap.t Ref) (s : Store) : Store :=
  {| eslintExecutionState := eslintExecutionState s;
     eslintAlwaysAllowExecutionState := eslintAlwaysAllowExecutionState s;
     globalState_libs := globalState_libs s;
     globalState_alwaysAllow := globalState_alwaysAllow s;
     sessionState := sessionState s;
     disabledLibraries := disabledLibraries s;
     resource2ResourceInfo := resource2ResourceInfo s;
     heap := heap s;
     libraryPath2ExecutionInfo := v;
     workspaceFolder2ExecutionInfos := workspaceFolder2ExecutionInfos s;
     statusUpdates := statusUpdates s;
     notifications := notifications s |}.

Definition with_workspaceFolder2ExecutionInfos (v : gmap string (list Ref))
    (s : Store) : Store :=
  {| eslintExecutionState := eslintExecutionState s;
     eslintAlwaysAllowExecutionState := eslintAlwaysAllowExecutionState s;
     globalState_libs := globalState_libs s;
     globalState_alwaysAllow := globalState_alwaysAllow s;
     sessionState := sessionState s;
     disabledLibraries := disabledLibraries s;
     resource2ResourceInfo := resource2ResourceInfo s;
     heap := heap s;
     libraryPath2ExecutionInfo := libraryPath2ExecutionInfo s;
     workspaceFolder2ExecutionInfos := v;
     statusUpdates := statusUpdates s;
     notifications := notifications s |}.

Definition with_statusUpdates (v : nat) (s : Store) : Store :=
  {| eslintExecutionState := eslintExecutionState s;
     eslintAlwaysAllowExecutionState := eslintAlwaysAllowExecutionState s;
     globalState_libs := globalState_libs s;
     globalState_alwaysAllow := globalState_alwaysAllow s;
     sessionState := sessionState s;
     disabledLibraries := disabledLibraries s;
     resource2ResourceInfo := resource2ResourceInfo s;
     heap := heap s;
     libraryPath2ExecutionInfo := libraryPath2ExecutionInfo s;
     workspaceFolder2ExecutionInfos := workspaceFolder2ExecutionInfos s;
     statusUpdates := v;
     notifications := notifications s |}.

Definition with_notifications (v : nat) (s : Store) : Store :=
  {| eslintExecutionState := eslintExecutionState s;
     eslintAlwaysAllowExecutionState := eslintAlwaysAllowExecutionState s;
     globalState_libs := globalState_libs s;
     globalState_alwaysAllow := globalState_alwaysAllow s;
     sessionState := sessionState s;
     disabledLibraries := disabledLibraries s;
     resource2ResourceInfo := resource2ResourceInfo s;
     heap := heap s;
     libraryPath2ExecutionInfo := libraryPath2ExecutionInfo s;
     workspaceFolder2ExecutionInfos := workspaceFolder2ExecutionInfos s;
     statusUpdates := statusUpdates s;
     notifications := v |}.

(** The store right after activation with nothing persisted. *)
Definition initialStore : Store :=
  {| eslintExecutionState := ∅;
     eslintAlwaysAllowExecutionState := false;
     globalState_libs := None;
     globalState_alwaysAllow := None;
     sessionState := [];
     disabledLibraries := ∅;
     resource2ResourceInfo := ∅;
     heap := [];
     libraryPath2ExecutionInfo := [];
     workspaceFolder2ExecutionInfos := ∅;
     statusUpdates := 0;
     notifications := 0 |}.

(** ** The host: coc.nvim collaborators called by the core *)

Inductive ExternalCall :=
| GetWorkspaceFolder (resource : string)
| CreateDiagnosticCollection
| DiagnosticsClear (info : Ref)
| Dispose (info : Ref)
| ShowInformationMessage
| ShowQuickpick.

(** [workspaceFolderOf u] is the URI of the workspace folder
    [Workspace.getWorkspaceFolder(u)] answers, if any; [fileUri] is
    [Uri.file(path).toString()]; [throws c] tells whether the host raises
    an exception on the call [c]. *)
Record Host := {
  workspaceFolderOf : string -> option string;
  fileUri : string -> string;
  throws : ExternalCall -> bool
}.

(** ** State and exceptions *)

Inductive Exception :=
| HostFailure (c : ExternalCall)
| TypeError.

Inductive Completion (A : Type) :=
| Normal (a : A)
| Thrown (e : Exception).
Arguments Normal {A} a.
Arguments Thrown {A} e.

Definition M (A : Type) : Type := Store -> Completion A * Store.

Definition ret {A} (a : A) : M A := fun s => (Normal a, s).

Definition bind {A B} (m : M A) (k : A -> M B) : M B :=
  fun s =>
    match m s with
    | (Normal a, s') => k a s'
    | (Thrown e, s') => (Thrown e, s')
    end.

Definition get_store : M Store := fun s => (Normal s, s).
Definition modify (f : Store -> Store) : M unit := fun s => (Normal tt, f s).
Definition throw {A} (e : Exception) : M A := fun s => (Thrown e, s).

(** [try { m } catch (err) { handler }] *)
Definition try_catch {A} (m : M A) (handler : Exception -> M A) : M A :=
  fun s =>
    match m s with
    | (Normal a, s') => (Normal a, s')
    | (Thrown e, s') => handler e s'
    end.

Declare Scope js_scope.
Delimit Scope js_scope with js.
Notation "x <- m ;; k" := (bind m (fun x => k))
  (at level 100, m at next level, right associativity) : js_scope.
Notation "m ;;; k" := (bind m (fun _ => k))
  (at level 100, right associativity) : js_scope.
Open Scope js_scope.

(** A call into the host that may raise. *)
Definition call (h : Host) (c : ExternalCall) : M unit :=
  if throws h c then throw (HostFailure c) else ret tt.

Fixpoint for_each {A} (f : A -> M unit) (l : list A) : M unit :=
  match l with
  | [] => ret tt
  | x :: l' => f x ;;; for_each f l'
  end.

(** ** Heap access *)

Definition with_result (v : ConfirmExecutionResult.t) (i : ExecutionInfo) : ExecutionInfo :=
  {| params := params i; result := v; editorErrorUri := editorErrorUri i;
     diagnostics := diagnostics i; codeActionProvider := codeActionProvider i |}.

Definition with_diagnostics (v : gset string) (i : ExecutionInfo) : ExecutionInfo :=
  {| params := params i; result := result i; editorErrorUri := editorErrorUri i;
     diagnostics := v; codeActionProvider := codeActionProvider i |}.

Definition with_codeActionProvider (v : option Disposable) (i : ExecutionInfo) : ExecutionInfo :=
  {| params := params i; result := result i; editorErrorUri := editorErrorUri i;
     diagnostics := diagnostics i; codeActionProvider := v |}.

(** Assignment to a field of the object behind [r]. *)
Definition heap_update (r : Ref) (f : ExecutionInfo -> ExecutionInfo) (s : Store) : Store :=
  with_heap (alter f r (heap s)) s.

(** A new object; its reference is the next free index. *)
Definition alloc (i : ExecutionInfo) : M Ref :=
  fun s => (Normal (length (heap s)), with_heap (heap s ++ [i]) s).

(** ** Diagnostics and execution records *)

Definition updateExecutionInfo (h : Host) (p : ExecutionParams)
    (res : ConfirmExecutionResult.t) : M unit :=
  s <- get_store ;;
  match JsMap.get (libraryPath p) (libraryPath2ExecutionInfo s) with
  | None =>
      call h CreateDiagnosticCollection ;;;
      r <- alloc {| params := {| scope := scope p; libraryPath := libraryPath p; uri := None |};
                    result := res;
                    editorErrorUri := None;
                    diagnostics := ∅;
                    codeActionProvider := None |} ;;
      modify (fun s => with_libraryPath2ExecutionInfo
                         (JsMap.set (libraryPath p) r (libraryPath2ExecutionInfo s)) s)
  | Some r => modify (heap_update r (with_result res))
  end.

Definition clearInfo (h : Host) (r : Ref) : M unit :=
  call h (DiagnosticsClear r) ;;;
  modify (heap_update r (with_diagnostics ∅)) ;;;
  s <- get_store ;;
  match heap s !! r with
  | Some info =>
      match codeActionProvider info with
      | Some _ =>
          call h (Dispose r) ;;;
          modify (heap_update r (with_codeActionProvider (Some disposed)))
      | None => ret tt
      end
  | None => ret tt
  end.

Definition clearDiagnosticState (h : Host) (p : ExecutionParams) : M unit :=
  s <- get_store ;;
  match JsMap.get (libraryPath p) (libraryPath2ExecutionInfo s) with
  | None => ret tt
  | Some r => clearInfo h r
  end.

Definition clearAllDiagnosticState (h : Host) : M unit :=
  s <- get_store ;;
  for_each (clearInfo h) (JsMap.values (libraryPath2ExecutionInfo s)).

(** [context.globalState.update(key, value)]: the write is not awaited and
    its outcome is never observed. *)
Definition persist_libs : M unit :=
  modify (fun s => with_globalState (Some (eslintExecutionState s)) (globalState_alwaysAllow s) s).

Definition persist_alwaysAllow : M unit :=
  modify (fun s => with_globalState (globalState_libs s)
                     (Some (eslintAlwaysAllowExecutionState s)) s).

(** ** The [ConfirmExecution] request handler *)

(** The [try] block, in its three stages: the decision (the local
    [result] before the [??]), the execution record, the resource record. *)
Definition confirm_decide (h : Host) (p : ConfirmExecutionParams)
    : M (option ConfirmExecutionResult.t) :=
  let lp := c_libraryPath p in
  s <- get_store ;;
  if decide (lp ∈ disabledLibraries s) then ret (Some ConfirmExecutionResult.disabled)
  else
    match (eslintExecutionState s !! lp : option bool) with
    | Some state =>
        clearDiagnosticState h (as_params p) ;;;
        ret (Some (if state then ConfirmExecutionResult.approved
                   else ConfirmExecutionResult.denied))
    | None =>
        if eslintAlwaysAllowExecutionState s then
          clearDiagnosticState h (as_params p) ;;;
          ret (Some ConfirmExecutionResult.approved)
        else ret None
    end.

Definition confirm_record (h : Host) (p : ConfirmExecutionParams)
    (res : ConfirmExecutionResult.t) : M Ref :=
  let lp := c_libraryPath p in
  s <- get_store ;;
  match JsMap.get lp (libraryPath2ExecutionInfo s) with
  | None =>
      call h CreateDiagnosticCollection ;;;
      r <- alloc {| params := as_params p;
                    result := res;
                    editorErrorUri := None;
                    diagnostics := ∅;
                    codeActionProvider := None |} ;;
      modify (fun s => with_libraryPath2ExecutionInfo
                         (JsMap.set lp r (libraryPath2ExecutionInfo s)) s) ;;;
      call h (GetWorkspaceFolder (c_uri p)) ;;;
      match workspaceFolderOf h (c_uri p) with
      | Some key =>
          modify (fun s =>
            let infos : list Ref := default [] (workspaceFolder2ExecutionInfos s !! key) in
            with_workspaceFolder2ExecutionInfos
              (<[key := (infos ++ [r])%list]> (workspaceFolder2ExecutionInfos s)) s) ;;;
          ret r
      | None => ret r
      end
  | Some r => modify (heap_update r (with_result res)) ;;; ret r
  end.

Definition confirm_resource (p : ConfirmExecutionParams)
    (res : ConfirmExecutionResult.t) (r : Ref) : M unit :=
  modify (fun s =>
    match resource2ResourceInfo s !! c_uri p with
    | None =>
        with_resource2ResourceInfo
          (<[c_uri p := {| status := ConfirmExecutionResult.toStatus res;
                           executionInfo := Some r |}]> (resource2ResourceInfo s)) s
    | Some ri =>
        with_resource2ResourceInfo
          (<[c_uri p := {| status := ConfirmExecutionResult.toStatus res;
                           executionInfo := executionInfo ri |}]> (resource2ResourceInfo s)) s
    end).

Definition confirm_try (h : Host) (p : ConfirmExecutionParams) : M ConfirmExecutionResult.t :=
  modify (fun s => with_sessionState
                     (JsMap.set (c_libraryPath p) (as_params p) (sessionState s)) s) ;;;
  decided <- confirm_decide h p ;;
  let res := default ConfirmExecutionResult.confirmationPending decided in
  r <- confirm_record h p res ;;
  confirm_resource p res r ;;;
  (* updateStatusBarAndDiagnostics() *)
  modify (fun s => with_statusUpdates (S (statusUpdates s)) s) ;;;
  ret res.

(** The handler: what runs under [confirmationSemaphore.lock]. *)
Definition confirm (h : Host) (p : ConfirmExecutionParams) : M ConfirmExecutionResult.t :=
  try_catch (confirm_try h p) (fun _ => ret ConfirmExecutionResult.denied).

(** ** [askForLibraryConfirmation] *)

Definition run_update (update : option (M unit)) : M unit :=
  match update with
  | Some u => u
  | None => ret tt
  end.

(** [client && client.sendNotification(DidChangeConfiguration, ...)] *)
Definition notify_server (client : bool) : M unit :=
  if client then modify (fun s => with_notifications (S (notifications s)) s) else ret tt.

(** Up to the [await] on the dialog. *)
Definition ask_open (h : Host) (p : ExecutionParams) : M unit :=
  modify (fun s => with_sessionState (JsMap.set (libraryPath p) p (sessionState s)) s) ;;;
  call h (GetWorkspaceFolder (fileUri h (libraryPath p))) ;;;
  call h ShowInformationMessage.

(** From the dialog's answer on; [item = None] is a dismissed dialog. *)
Definition ask_resume (h : Host) (client : bool) (p : ExecutionParams)
    (update : option (M unit)) (item : option ConfirmationSelection.t) : M unit :=
  match item with
  | None => ret tt
  | Some value =>
      (if decide (value = ConfirmationSelection.disable) then
         modify (fun s => with_disabledLibraries ({[libraryPath p]} ∪ disabledLibraries s) s) ;;;
         updateExecutionInfo h p ConfirmExecutionResult.disabled ;;;
         clearDiagnosticState h p
       else
         modify (fun s => with_disabledLibraries (disabledLibraries s ∖ {[libraryPath p]}) s) ;;;
         if decide (value = ConfirmationSelection.allow ∨ value = ConfirmationSelection.deny) then
           let v := bool_decide (value = ConfirmationSelection.allow) in
           modify (fun s => with_eslintExecutionState
                              (<[libraryPath p := v]> (eslintExecutionState s)) s) ;;;
           persist_libs ;;;
           updateExecutionInfo h p (if v then ConfirmExecutionResult.approved
                                    else ConfirmExecutionResult.denied) ;;;
           clearDiagnosticState h p
         else if decide (value = ConfirmationSelection.alwaysAllow) then
           modify (with_eslintAlwaysAllowExecutionState true) ;;;
           persist_alwaysAllow ;;;
           updateExecutionInfo h p ConfirmExecutionResult.approved ;;;
           clearAllDiagnosticState h
         else ret tt) ;;;
      run_update update ;;;
      notify_server client
  end.

Definition askForLibraryConfirmation (h : Host) (client : bool) (p : ExecutionParams)
    (update : option (M unit)) (item : option ConfirmationSelection.t) : M unit :=
  ask_open h p ;;; ask_resume h client p update item.

(** ** [resetLibraryConfirmations] *)

Inductive ResetKind := kind_all | kind_session | kind_alwaysAllow.

#[global] Instance ResetKind_eq_dec : EqDecision ResetKind.
Proof. solve_decision. Defined.

(** The quick-pick items, with the always-allow entry spliced in at index 1. *)
Definition reset_items (s : Store) : list ResetKind :=
  if eslintAlwaysAllowExecutionState s
  then [kind_session; kind_alwaysAllow; kind_all]
  else [kind_session; kind_all].

(** [selectedIdx] is the quick-pick's answer, [item] the answer to the
    confirmation dialog the session branch may open. *)
Definition resetLibraryConfirmations (h : Host) (client : bool) (update : option (M unit))
    (selectedIdx : Z) (item : option ConfirmationSelection.t) : M unit :=
  s <- get_store ;;
  let items := reset_items s in
  call h ShowQuickpick ;;;
  if decide (selectedIdx = (-1)%Z) then ret tt
  else
    match (if decide (0 ≤ selectedIdx)%Z then items !! Z.to_nat selectedIdx else None) with
    | None => throw TypeError
    | Some selected =>
        let finish : M unit :=
          persist_libs ;;;
          persist_alwaysAllow ;;;
          modify (with_disabledLibraries ∅) ;;;
          modify (with_libraryPath2ExecutionInfo []) ;;;
          modify (with_resource2ResourceInfo ∅) ;;;
          modify (with_workspaceFolder2ExecutionInfos ∅) ;;;
          run_update update ;;;
          notify_server client in
        match selected with
        | kind_all =>
            modify (with_eslintExecutionState ∅) ;;;
            modify (with_eslintAlwaysAllowExecutionState false) ;;;
            finish
        | kind_alwaysAllow =>
            modify (with_eslintAlwaysAllowExecutionState false) ;;;
            finish
        | kind_session =>
            s <- get_store ;;
            if decide (JsMap.size (sessionState s) = 1) then
              match JsMap.values (sessionState s) with
              | param :: _ => askForLibraryConfirmation h client param update item
              | [] => throw TypeError
              end
            else
              modify (fun s => with_eslintExecutionState
                                 (foldl (fun libs lib => delete lib libs)
                                        (eslintExecutionState s)
                                        (JsMap.keys (sessionState s))) s) ;;;
              finish
        end
    end.

(** ** [findApplicableStatus] *)

Inductive LoopControl (A : Type) :=
| Continue (a : A)
| Break (a : A).
Arguments Continue {A} a.
Arguments Break {A} a.

(** [for (const x of l) { body }] over a loop variable, with [break]. *)
Fixpoint for_of {A B} (body : B -> A -> LoopControl B) (acc : B) (l : list A) : B :=
  match l with
  | [] => acc
  | x :: l' =>
      match body acc x with
      | Continue acc' => for_of body acc' l'
      | Break acc' => acc'
      end
  end.

(** The loop body over [info.result]. *)
Definition scan_body (acc : option ConfirmExecutionResult.t)
    (info_result : ConfirmExecutionResult.t) : LoopControl (option ConfirmExecutionResult.t) :=
  match acc with
  | None => Continue (Some info_result)
  | Some _ =>
      if decide (info_result = ConfirmExecutionResult.confirmationPending)
      then Break (Some info_result)
      else if decide (info_result = ConfirmExecutionResult.denied
                      ∨ info_result = ConfirmExecutionResult.disabled)
      then Continue (Some info_result)
      else Continue acc
  end.

(** The results read through a list of references. *)
Definition results_of (s : Store) (candidates : list Ref) : list ConfirmExecutionResult.t :=
  omap (fun r => result <$> heap s !! r) candidates.

Definition findApplicableStatus (h : Host) (editor : option string) : M (Status.t * bool) :=
  s <- get_store ;;
  let scan (candidates : option (list Ref)) : M (Status.t * bool) :=
    let candidates :=
      match candidates with
      | Some l => l
      | None => JsMap.values (libraryPath2ExecutionInfo s)
      end in
    ret (match for_of scan_body None (results_of s candidates) with
         | Some res => ConfirmExecutionResult.toStatus res
         | None => Status.ok
         end, false) in
  match editor with
  | Some editor_uri =>
      match resource2ResourceInfo s !! editor_uri with
      | Some resourceInfo => ret (status resourceInfo, true)
      | None =>
          call h (GetWorkspaceFolder editor_uri) ;;;
          match workspaceFolderOf h editor_uri with
          | Some folder => scan (workspaceFolder2ExecutionInfos s !! folder)
          | None => scan None
          end
      end
  | None => scan None
  end.

(** ** The [workingDirectories] loop *)

(** A configuration value as far as the type guards inspect it.  The
    guards [X.is] of the source are named [X.is_] here. *)
Inductive JsValue :=
| JsUndefined
| JsBoolean (b : bool)
| JsString (s : string)
| JsOther.

(** The properties the guards read from an object entry. *)
Record JsObject := {
  prop_directory : JsValue;
  prop_changeProcessCWD : JsValue;
  prop_not_cwd : JsValue;          (* '!cwd' *)
  prop_pattern : JsValue;
  prop_mode : JsValue
}.

(** An entry of the [workingDirectories] array: a string, an object, or a
    value without any of the properties above ([null], a number, ...). *)
Inductive Entry :=
| EntryString (s : string)
| EntryObject (o : JsObject)
| EntryOther.

Module Is.
Definition boolean (value : JsValue) : bool :=
  match value with JsBoolean _ => true | _ => false end.

Definition string (value : JsValue) : bool :=
  match value with JsString _ => true | _ => false end.

Definition undefined (value : JsValue) : bool :=
  match value with JsUndefined => true | _ => false end.
End Is.

Module LegacyDirectoryItem.
Definition is_ (candidate : JsObject) : bool :=
  Is.string (prop_directory candidate) && Is.boolean (prop_changeProcessCWD candidate).
End LegacyDirectoryItem.

Module ModeEnum.
Definition is_ (value : JsValue) : bool :=
  match value with
  | JsString s => bool_decide (s = "auto") || bool_decide (s = "location")
  | _ => false
  end.
End ModeEnum.

Module ModeItem.
Definition is_ (candidate : JsObject) : bool := ModeEnum.is_ (prop_mode candidate).
End ModeItem.

Module DirectoryItem.
Definition is_ (candidate : JsObject) : bool :=
  Is.string (prop_directory candidate)
  && (Is.boolean (prop_not_cwd candidate) || Is.undefined (prop_not_cwd candidate)).
End DirectoryItem.

Module PatternItem.
Definition is_ (candidate : JsObject) : bool :=
  Is.string (prop_pattern candidate)
  && (Is.boolean (prop_not_cwd candidate) || Is.undefined (prop_not_cwd candidate)).
End PatternItem.

(** [settings.workingDirectory]: a mode item (the entry itself) or the
    directory item the loop builds. *)
Inductive WorkingDirectory :=
| WdMode (entry : JsObject)
| WdDirectory (directory : string) (not_cwd : bool).

(** [s.charAt(i)]: the empty string outside the string. *)
Definition charAt (s : string) (i : Z) : string :=
  if decide (0 ≤ i)%Z then
    match String.get (Z.to_nat i) s with
    | Some c => String c EmptyString
    | None => ""
    end
  else "".

(** Node's [path] module and the helpers of [./utils], which the loop
    calls and which are not part of [index.ts]. *)
Record PathLib := {
  toOSPath : string -> string;
  toPosixPath : string -> string;
  path_isAbsolute : string -> bool;
  path_join : string -> string -> string;
  path_sep : string;
  posix_isAbsolute : string -> bool;
  posix_join : string -> string -> string;
  posix_sep : string;
  (** [convert2RegExp(pattern)], and for a regular expression its
      [exec(filePath)] reduced to [match[0]] *)
  convert2RegExp : string -> option (string -> option string)
}.

Section WorkingDirectories.
Variable lib : PathLib.
(** [fsPath] of the document when its scheme is [file] *)
Variable filePath : option string.
Variable workspaceFolderPath : option string.

(** The locals [directory], [pattern], [noCWD] after the chain of type
    guards; [None] is the [continue] of the mode-item branch. *)
Definition classify (entry : Entry) : option (option string * option string * bool) :=
  match entry with
  | EntryString s => Some (Some s, None, false)
  | EntryObject o =>
      if LegacyDirectoryItem.is_ o then
        match prop_directory o, prop_changeProcessCWD o with
        | JsString d, JsBoolean b => Some (Some d, None, negb b)
        | _, _ => Some (None, None, false)
        end
      else if DirectoryItem.is_ o then
        match prop_directory o with
        | JsString d =>
            Some (Some d, None,
                  match prop_not_cwd o with JsBoolean b => b | _ => false end)
        | _ => Some (None, None, false)
        end
      else if PatternItem.is_ o then
        match prop_pattern o with
        | JsString p =>
            Some (None, Some p,
                  match prop_not_cwd o with JsBoolean b => b | _ => false end)
        | _ => Some (None, None, false)
        end
      else if ModeItem.is_ o then None
      else Some (None, None, false)
  | EntryOther => Some (None, None, false)
  end.

Definition directory_candidate (directory : string) (filePath : string) : option string :=
  let directory := toOSPath lib directory in
  let directory :=
    match workspaceFolderPath with
    | Some wf => if negb (path_isAbsolute lib directory) then path_join lib wf directory
                 else directory
    | None => directory
    end in
  let directory :=
    if decide (charAt directory (Z.of_nat (String.length directory) - 1) ≠ path_sep lib)
    then directory +:+ path_sep lib else directory in
  if String.prefix directory filePath then Some directory else None.

Definition pattern_candidate (pattern : string) (filePath : string) : option string :=
  if decide (0 < String.length pattern) then
    let pattern :=
      match workspaceFolderPath with
      | Some wf => if negb (posix_isAbsolute lib pattern)
                   then posix_join lib (toPosixPath lib wf) pattern
                   else pattern
      | None => pattern
      end in
    let pattern :=
      if decide (charAt pattern (Z.of_nat (String.length pattern) - 1) ≠ posix_sep lib)
      then pattern +:+ posix_sep lib else pattern in
    match convert2RegExp lib pattern with
    | Some regExp => regExp filePath
    | None => None
    end
  else None.

(** [itemValue] for the locals of one iteration. *)
Definition itemValue (directory pattern : option string) : option string :=
  match filePath with
  | Some filePath =>
      match directory, pattern with
      | Some directory, _ => directory_candidate directory filePath
      | None, Some pattern => pattern_candidate pattern filePath
      | None, None => None
      end
  | None => None
  end.

(** One iteration of the loop over the variable [workingDirectory]. *)
Definition wd_step (workingDirectory : option WorkingDirectory) (entry : Entry)
    : option WorkingDirectory :=
  match classify entry with
  | None =>
      match entry with
      | EntryObject o => Some (WdMode o)
      | _ => workingDirectory
      end
  | Some (directory, pattern, noCWD) =>
      match itemValue directory pattern with
      | Some value =>
          match workingDirectory with
          | None => Some (WdDirectory value noCWD)
          | Some (WdMode o) =>
              if ModeItem.is_ o then Some (WdDirectory value noCWD)
              else workingDirectory
          | Some (WdDirectory current current_not_cwd) =>
              if decide (String.length current < String.length value)
              then Some (WdDirectory value noCWD)
              else workingDirectory
          end
      | None => workingDirectory
      end
  end.

(** [settings.workingDirectory] for the array [workingDirectories]. *)
Definition resolveWorkingDirectory (workingDirectories : list Entry) : option WorkingDirectory :=
  foldl wd_step None workingDirectories.

(** What a rule contributes: its candidate directory with its [noCWD]. *)
Definition candidate (entry : Entry) : option (string * bool) :=
  match classify entry with
  | Some (directory, pattern, noCWD) =>
      match itemValue directory pattern with
      | Some value => Some (value, noCWD)
      | None => None
      end
  | None => None
  end.

(** The rules the loop takes as mode markers. *)
Definition is_mode_marker (entry : Entry) : bool :=
  match classify entry with
  | None => true
  | Some _ => false
  end.

End WorkingDirectories.

(** * Definitions for the properties *)

(** ** Hosts, frames and the gate's decision *)

(** A host none of whose calls raises. *)
Definition reliable (h : Host) : Prop := ∀ c, throws h c = false.

(** A host without workspace folders that never raises. *)
Definition quietHost : Host :=
  {| workspaceFolderOf := fun _ => None;
     fileUri := fun path => "file://" +:+ path;
     throws := fun _ => false |}.

(** [m] leaves the store in relation [R] to the one it started from,
    whether it returns or raises. *)
Definition preserves {A} (R : Store -> Store -> Prop) (m : M A) : Prop :=
  ∀ s, R s (m s).2.

(** The trust store and the disabled set are the same in both stores. *)
Definition same_trust (s s' : Store) : Prop :=
  eslintExecutionState s' = eslintExecutionState s
  ∧ eslintAlwaysAllowExecutionState s' = eslintAlwaysAllowExecutionState s
  ∧ disabledLibraries s' = disabledLibraries s.

(** Only the heap differs. *)
Definition same_but_heap (s s' : Store) : Prop := s' = with_heap (heap s') s.

(** The decision of the gate, read off the store in the order the handler
    tests it. *)
Definition gate_decision (s : Store) (lp : string) : ConfirmExecutionResult.t :=
  if decide (lp ∈ disabledLibraries s) then ConfirmExecutionResult.disabled
  else
    match eslintExecutionState s !! lp with
    | Some true => ConfirmExecutionResult.approved
    | Some false => ConfirmExecutionResult.denied
    | None =>
        if eslintAlwaysAllowExecutionState s then ConfirmExecutionResult.approved
        else ConfirmExecutionResult.confirmationPending
    end.

(** ** Sample libraries, requests and stores *)

Definition libA : string := "/ws/node_modules/eslint/lib/api.js".
Definition libB : string := "/ws2/node_modules/eslint/lib/api.js".

Definition confirmA : ConfirmExecutionParams :=
  {| c_scope := scope_local; c_libraryPath := libA; c_uri := "file:///ws/a.js" |}.

Definition confirmB : ConfirmExecutionParams :=
  {| c_scope := scope_local; c_libraryPath := libB; c_uri := "file:///ws2/b.js" |}.

(** Library A was denied earlier and the always-allow flag is set. *)
Definition store_denied_alwaysAllow : Store :=
  with_eslintAlwaysAllowExecutionState true
    (with_eslintExecutionState {[libA := false]} initialStore).

(** A host whose [Languages.createDiagnosticCollection] raises. *)
Definition brokenHost : Host :=
  {| workspaceFolderOf := fun _ => None;
     fileUri := fun path => "file://" +:+ path;
     throws := fun c => match c with CreateDiagnosticCollection => true | _ => false end |}.

(** Library A is tracked, still pending, and its diagnostic sits on
    [a.js]; the always-allow flag is set and nothing is stored for A or B. *)
Definition store_pending_A_alwaysAllow : Store :=
  with_eslintAlwaysAllowExecutionState true
    (with_resource2ResourceInfo
       {["file:///ws/a.js" := {| status := Status.confirmationPending;
                                 executionInfo := Some 0 |}]}
       (with_libraryPath2ExecutionInfo [(libA, 0)]
          (with_heap
             [{| params := as_params confirmA;
                 result := ConfirmExecutionResult.confirmationPending;
                 editorErrorUri := Some "file:///ws/a.js";
                 diagnostics := {["file:///ws/a.js"]};
                 codeActionProvider := Some registered |}]
             (with_sessionState [(libA, as_params confirmA)] initialStore)))).

(** ** Status reduction, as specified *)

(** The reduction in the words of the specification: [running] is the
    result so far, [rest] the records still to scan. *)
Fixpoint scan_from (running : ConfirmExecutionResult.t)
    (rest : list ConfirmExecutionResult.t) : ConfirmExecutionResult.t :=
  match rest with
  | [] => running
  | ConfirmExecutionResult.confirmationPending :: _ =>
      ConfirmExecutionResult.confirmationPending
  | ConfirmExecutionResult.denied :: rest' =>
      scan_from ConfirmExecutionResult.denied rest'
  | ConfirmExecutionResult.disabled :: rest' =>
      scan_from ConfirmExecutionResult.disabled rest'
  | ConfirmExecutionResult.approved :: rest' => scan_from running rest'
  end.

Definition reduce_records (records : list ConfirmExecutionResult.t)
    : option ConfirmExecutionResult.t :=
  match records with
  | [] => None
  | first :: rest => Some (scan_from first rest)
  end.

Definition display_status (decision : option ConfirmExecutionResult.t) : Status.t :=
  match decision with
  | None => Status.ok
  | Some ConfirmExecutionResult.approved => Status.ok
  | Some ConfirmExecutionResult.confirmationPending => Status.confirmationPending
  | Some ConfirmExecutionResult.denied => Status.executionDenied
  | Some ConfirmExecutionResult.disabled => Status.executionDisabled
  end.

(** The candidate records for a resource: the list of its workspace
    folder when there is one, else every tracked record. *)
Definition candidate_records (h : Host) (editor_uri : string) (s : Store) : list Ref :=
  match workspaceFolderOf h editor_uri with
  | Some folder =>
      match workspaceFolder2ExecutionInfos s !! folder with
      | Some infos => infos
      | None => JsMap.values (libraryPath2ExecutionInfo s)
      end
  | None => JsMap.values (libraryPath2ExecutionInfo s)
  end.

(** Four tracked libraries with results approved, denied, pending and
    disabled, in this insertion order; no resource has a status. *)
Definition store_four_records : Store :=
  let info lp res :=
    {| params := {| scope := scope_local; libraryPath := lp; uri := None |};
       result := res;
       editorErrorUri := None;
       diagnostics := ∅;
       codeActionProvider := None |} in
  with_libraryPath2ExecutionInfo [("/l0", 0); ("/l1", 1); ("/l2", 2); ("/l3", 3)]
    (with_heap
       [info "/l0" ConfirmExecutionResult.approved;
        info "/l1" ConfirmExecutionResult.denied;
        info "/l2" ConfirmExecutionResult.confirmationPending;
        info "/l3" ConfirmExecutionResult.disabled]
       initialStore).

(** ** Reset and Allow Everywhere *)

(** Nothing is tracked and nothing is disabled. *)
Definition cleared (s : Store) : Prop :=
  disabledLibraries s = ∅
  ∧ libraryPath2ExecutionInfo s = []
  ∧ resource2ResourceInfo s = ∅
  ∧ workspaceFolder2ExecutionInfos s = ∅.

(** The stored decisions and the flag a reset of the given kind leaves. *)
Definition reset_trust (kind : ResetKind) (s : Store) : gmap string bool * bool :=
  match kind with
  | kind_all => (∅, false)
  | kind_alwaysAllow => (eslintExecutionState s, false)
  | kind_session =>
      (foldl (fun libs lib => delete lib libs) (eslintExecutionState s)
             (JsMap.keys (sessionState s)),
       eslintAlwaysAllowExecutionState s)
  end.

(** Library A is the only one touched this session; it is disabled and
    has an execution record. *)
Definition store_one_session_library : Store :=
  with_disabledLibraries {[libA]}
    (with_resource2ResourceInfo
       {["file:///ws/a.js" := {| status := Status.executionDisabled;
                                 executionInfo := Some 0 |}]}
       (with_libraryPath2ExecutionInfo [(libA, 0)]
          (with_heap
             [{| params := as_params confirmA;
                 result := ConfirmExecutionResult.disabled;
                 editorErrorUri := None;
                 diagnostics := ∅;
                 codeActionProvider := None |}]
             (with_sessionState [(libA, as_params confirmA)] initialStore)))).

(** The callback leaves the trust store and the disabled set alone. *)
Definition keeps_trust (update : option (M unit)) : Prop :=
  ∀ u, update = Some u → preserves same_trust u.

(** Library A is disabled for the session and stored as denied. *)
Definition store_disabled_denied : Store :=
  with_disabledLibraries {[libA]}
    (with_eslintExecutionState {[libA := false]} initialStore).

(** Library A is disabled for the session; nothing is stored for it. *)
Definition store_disabled : Store := with_disabledLibraries {[libA]} initialStore.

(** ** Working directories *)

(** Modelled from the spec: [toOSPath] and [toPosixPath] of [./utils],
    which is not part of [index.ts], normalize path separators; on a POSIX
    host that leaves a path written with "/" as it is.  [path.join] is
    reduced to concatenation with a separator and no pattern is compiled:
    the sample rules below are absolute directories, which reach neither. *)
Definition posixLib : PathLib :=
  {| toOSPath := fun p => p;
     toPosixPath := fun p => p;
     path_isAbsolute := String.prefix "/";
     path_join := fun a b => a +:+ "/" +:+ b;
     path_sep := "/";
     posix_isAbsolute := String.prefix "/";
     posix_join := fun a b => a +:+ "/" +:+ b;
     posix_sep := "/";
     convert2RegExp := fun _ => None |}.

(** [{ directory: d, '!cwd': not_cwd }] *)
Definition directoryItem (d : string) (not_cwd : bool) : Entry :=
  EntryObject {| prop_directory := JsString d;
                 prop_changeProcessCWD := JsUndefined;
                 prop_not_cwd := JsBoolean not_cwd;
                 prop_pattern := JsUndefined;
                 prop_mode := JsUndefined |}.

(** [{ mode: m }] *)
Definition modeObject (m : string) : JsObject :=
  {| prop_directory := JsUndefined;
     prop_changeProcessCWD := JsUndefined;
     prop_not_cwd := JsUndefined;
     prop_pattern := JsUndefined;
     prop_mode := JsString m |}.

(** What the loop has after a list that is empty or ends with a marker. *)
Definition last_marker (rules : list Entry) : option WorkingDirectory :=
  match last rules with
  | Some (EntryObject o) => Some (WdMode o)
  | _ => None
  end.

(** A value of the loop variable that the next candidate replaces. *)
Definition replaceable (wd : option WorkingDirectory) : Prop :=
  match wd with
  | None => True
  | Some (WdMode o) => ModeItem.is_ o = true
  | Some (WdDirectory _ _) => False
  end.

(** The rule lists of the examples; the document is [/proj/a/b/file.js]
    or [/proj/a/file.js]. *)
Definition rules_nested : list Entry :=
  [directoryItem "/proj/a/" false; directoryItem "/proj/a/b/" true].

Definition rules_tie : list Entry :=
  [directoryItem "/proj/a/" false; directoryItem "/proj/a/" true].

Definition rules_marker_between : list Entry :=
  [directoryItem "/proj/a/b/" true; EntryObject (modeObject "auto");
   directoryItem "/proj/a/" false].

Definition rules_marker_last : list Entry :=
  [directoryItem "/proj/a/" false; EntryObject (modeObject "auto")].

Definition rules_marker_first : list Entry :=
  [EntryObject (modeObject "location"); directoryItem "/elsewhere/" false].

(** * Further definitions *)

(** ** A program logic for the store monad *)

(** From a store satisfying [P], [m] either returns [a] in a store
    satisfying [Q a] or raises in a store satisfying [E]. *)
Definition triple {A} (P : Store -> Prop) (m : M A)
    (Q : A -> Store -> Prop) (E : Store -> Prop) : Prop :=
  ∀ s, P s →
    match m s with
    | (Normal a, s') => Q a s'
    | (Thrown _, s') => E s'
    end.

(** ** Consistency of the tracking maps *)

(** The record is one of [libraryPath2ExecutionInfo]. *)
Definition tracked (s : Store) (r : Ref) : Prop :=
  r ∈ JsMap.values (libraryPath2ExecutionInfo s).

(** Every library has at most one record, the record stored for a library
    is a live object that carries this library's path, and the
    workspace-folder index and the resource statuses refer to tracked
    records only. *)
Definition consistent (s : Store) : Prop :=
  NoDup (JsMap.keys (libraryPath2ExecutionInfo s))
  ∧ (∀ lp (r : Ref), (lp, r) ∈ libraryPath2ExecutionInfo s →
       ∃ info, heap s !! r = Some info ∧ libraryPath (params info) = lp)
  ∧ (∀ folder infos r, workspaceFolder2ExecutionInfos s !! folder = Some infos →
       r ∈ infos → tracked s r)
  ∧ (∀ u ri r, resource2ResourceInfo s !! u = Some ri →
       executionInfo ri = Some r → tracked s r).

(** The objects of [s] are still there in [s'], with the same [params]. *)
Definition heap_grows (s s' : Store) : Prop :=
  ∀ (r : Ref) info, heap s !! r = Some info →
    ∃ info', heap s' !! r = Some info' ∧ params info' = params info.


(** What a restart would load from [context.globalState] is what the
    session has in memory. *)
Definition persisted (s : Store) : Prop :=
  eslintExecutionState s = default ∅ (globalState_libs s)
  ∧ eslintAlwaysAllowExecutionState s = default false (globalState_alwaysAllow s).

(** Consistency is kept. *)
Definition keeps_consistent (s s' : Store) : Prop := consistent s → consistent s'.

(** The callback keeps the tracking maps consistent. *)
Definition keeps_consistency (update : option (M unit)) : Prop :=
  ∀ u, update = Some u → triple consistent u (fun _ => consistent) consistent.

(** The decisions are the same in memory and in [context.globalState]. *)
Definition same_decisions (s s' : Store) : Prop :=
  same_trust s s'
  ∧ globalState_libs s' = globalState_libs s
  ∧ globalState_alwaysAllow s' = globalState_alwaysAllow s.

(** The store right after the synchronous assignments that an answer of
    the dialog makes to the trust store and the disabled set. *)
Definition selection_effect (value : ConfirmationSelection.t) (p : ExecutionParams)
    (s : Store) : Store :=
  match value with
  | ConfirmationSelection.disable =>
      with_disabledLibraries ({[libraryPath p]} ∪ disabledLibraries s) s
  | ConfirmationSelection.allow =>
      with_eslintExecutionState (<[libraryPath p := true]> (eslintExecutionState s))
        (with_disabledLibraries (disabledLibraries s ∖ {[libraryPath p]}) s)
  | ConfirmationSelection.deny =>
      with_eslintExecutionState (<[libraryPath p := false]> (eslintExecutionState s))
        (with_disabledLibraries (disabledLibraries s ∖ {[libraryPath p]}) s)
  | ConfirmationSelection.alwaysAllow =>
      with_eslintAlwaysAllowExecutionState true
        (with_disabledLibraries (disabledLibraries s ∖ {[libraryPath p]}) s)
  end.

(** The callback leaves the decisions alone, in memory and persisted. *)
Definition keeps_decisions (update : option (M unit)) : Prop :=
  ∀ u, update = Some u → preserves same_decisions u.

(** An [ExecutionInfo] after [clearInfo]: no diagnostic, the code-action
    provider disposed. *)
Definition cleared_info (i : ExecutionInfo) : ExecutionInfo :=
  {| params := params i;
     result := result i;
     editorErrorUri := editorErrorUri i;
     diagnostics := ∅;
     codeActionProvider :=
       match codeActionProvider i with
       | Some _ => Some disposed
       | None => None
       end |}.

(** The store at the end of a reset, before the callback runs: the
    decisions persisted, nothing disabled, nothing tracked. *)
Definition reset_cleared (s : Store) : Store :=
  with_workspaceFolder2ExecutionInfos ∅
    (with_resource2ResourceInfo ∅
       (with_libraryPath2ExecutionInfo []
          (with_disabledLibraries ∅
             (with_globalState (Some (eslintExecutionState s))
                (Some (eslintAlwaysAllowExecutionState s)) s)))).

(** Libraries A and B were both confirmed this session; A is stored as
    denied, B as approved, and an older library C as approved. *)
Definition store_two_session_libraries : Store :=
  with_sessionState [(libA, as_params confirmA); (libB, as_params confirmB)]
    (with_eslintExecutionState
       (<[libA := false]> (<[libB := true]> {["/old/node_modules/eslint/lib/api.js" := true]}))
       initialStore).


(** * Further parts of [index.ts] *)

(** ** [CodeActionsOnSave] *)

Module CodeActionsOnSave.
(** [CodeActionsOnSaveMap | string[] | null]; a property of the map holds
    a boolean or [undefined]. *)
Inductive t :=
| null
| array (entries : list string)
| map (props : gmap string (option bool)).

(** [setting.indexOf(x)] *)
Fixpoint indexOf (x : string) (entries : list string) : Z :=
  match entries with
  | [] => (-1)%Z
  | y :: entries' =>
      if decide (y = x) then 0%Z
      else let i := indexOf x entries' in
           if decide (i = (-1)%Z) then (-1)%Z else (i + 1)%Z
  end.

(** [setting.includes(x)] *)
Definition includes (x : string) (entries : list string) : bool :=
  bool_decide (x ∈ entries).

Definition getSourceFixAll (setting : t) : option bool :=
  match setting with
  | null => None
  | array entries => if includes "source.fixAll" entries then Some true else None
  | map props => mjoin (props !! "source.fixAll")
  end.

Definition getSourceFixAllESLint (setting : t) : option bool :=
  match setting with
  | null => None
  | array entries => if includes "source.fixAll.eslint" entries then Some true else None
  | map props => mjoin (props !! "source.fixAll.eslint")
  end.

(** The setting after the call, which mutates it in place. *)
Definition setSourceFixAllESLint (setting : t) (value : option bool) : t :=
  match setting with
  | null => null
  | array entries =>
      let index := indexOf "source.fixAll.eslint" entries in
      if decide (value = Some true) then
        if decide (index = (-1)%Z) then array (entries ++ ["source.fixAll.eslint"])
        else array entries
      else
        if decide (0 ≤ index)%Z then array (delete (Z.to_nat index) entries)
        else array entries
  | map props => map (<["source.fixAll.eslint" := value]> props)
  end.
End CodeActionsOnSave.

(** ** [computeValidate] *)

Module Validate.
Inductive t := on | off | probe.
End Validate.

#[global] Instance Validate_eq_dec : EqDecision Validate.t.
Proof. solve_decision. Defined.

Record TextDocument := {
  document_uri : string;
  languageId : string
}.

#[global] Instance JsValue_eq_dec : EqDecision JsValue.
Proof. solve_decision. Defined.

(** An entry of the [eslint.validate] array: a string, an object with
    its [language] and [autoFix] properties, or anything else. *)
Inductive ValidateEntry :=
| ValidateString (s : string)
| ValidateObject (language autoFix : JsValue)
| ValidateOther.

Module ValidateItem.
Definition is_ (language autoFix : JsValue) : bool :=
  Is.string language && (Is.boolean autoFix || Is.undefined autoFix).
End ValidateItem.

(** What [computeValidate] reads of [Workspace.getConfiguration('eslint',
    uri)]: [enable] as a truth value, [validate] and [probe] when they
    are arrays. *)
Record EslintConfiguration := {
  config_enable : bool;
  config_validate : option (list ValidateEntry);
  config_probe : option (list JsValue)
}.

(** The loop over [validate]; [true] is its [return Validate.on]. *)
Fixpoint validate_loop (languageId : string) (validate : list ValidateEntry) : bool :=
  match validate with
  | [] => false
  | item :: validate' =>
      match item with
      | ValidateString s =>
          if decide (s = languageId) then true else validate_loop languageId validate'
      | ValidateObject language autoFix =>
          if ValidateItem.is_ language autoFix
             && bool_decide (language = JsString languageId)
          then true else validate_loop languageId validate'
      | ValidateOther => validate_loop languageId validate'
      end
  end.

(** The loop over [probe]; [true] is its [return Validate.probe]. *)
Fixpoint probe_loop (languageId : string) (probe : list JsValue) : bool :=
  match probe with
  | [] => false
  | item :: probe' =>
      if bool_decide (item = JsString languageId) then true
      else probe_loop languageId probe'
  end.

Definition computeValidate (config : string -> EslintConfiguration)
    (probeFailed : gset string) (textDocument : TextDocument) : Validate.t :=
  let config := config (document_uri textDocument) in
  if negb (config_enable config) then Validate.off
  else
    if match config_validate config with
       | Some validate => validate_loop (languageId textDocument) validate
       | None => false
       end
    then Validate.on
    else if decide (document_uri textDocument ∈ probeFailed) then Validate.off
    else
      if match config_probe config with
         | Some probe => probe_loop (languageId textDocument) probe
         | None => false
         end
      then Validate.probe
      else Validate.off.

(** ** Document synchronisation middleware *)

(** What the middleware reads of its surroundings when it is called:
    the configuration, the module-level set [probeFailed], and whether
    [Workspace.match] accepts the document for the [package.json] filter
    and for the ESLint configuration-file filter. *)
Record SyncEnv := {
  env_config : string -> EslintConfiguration;
  env_probeFailed : gset string;
  env_matchesPackageJson : TextDocument -> bool;
  env_matchesConfigFile : TextDocument -> bool
}.

(** The notifications the client passes through the middleware; the same
    values are what [next] forwards to the server. *)
Inductive SyncEvent :=
| DidOpen (document : TextDocument)
| DidChange (document : string)
| WillSave (document : string)
| WillSaveWaitUntil (document : string)
| DidSave (document : string)
| DidClose (document : string).

Module Middleware.
(** Each function gives [syncedDocuments] after the call and what was
    passed to [next], if anything. *)
Definition didOpen (env : SyncEnv) (document : TextDocument)
    (syncedDocuments : gmap string TextDocument)
    : gmap string TextDocument * option SyncEvent :=
  if env_matchesPackageJson env document
     || env_matchesConfigFile env document
     || negb (bool_decide
                (computeValidate (env_config env) (env_probeFailed env) document
                 = Validate.off))
  then (<[document_uri document := document]> syncedDocuments, Some (DidOpen document))
  else (syncedDocuments, None).

Definition forward_if_synced (event : SyncEvent) (document : string)
    (syncedDocuments : gmap string TextDocument)
    : gmap string TextDocument * option SyncEvent :=
  match syncedDocuments !! document with
  | Some _ => (syncedDocuments, Some event)
  | None => (syncedDocuments, None)
  end.

Definition didChange (document : string) := forward_if_synced (DidChange document) document.
Definition willSave (document : string) := forward_if_synced (WillSave document) document.
Definition willSaveWaitUntil (document : string) :=
  forward_if_synced (WillSaveWaitUntil document) document.
Definition didSave (document : string) := forward_if_synced (DidSave document) document.

Definition didClose (document : string) (syncedDocuments : gmap string TextDocument)
    : gmap string TextDocument * option SyncEvent :=
  match syncedDocuments !! document with
  | Some _ => (delete document syncedDocuments, Some (DidClose document))
  | None => (syncedDocuments, None)
  end.

Definition handle (env : SyncEnv) (event : SyncEvent)
    (syncedDocuments : gmap string TextDocument)
    : gmap string TextDocument * option SyncEvent :=
  match event with
  | DidOpen document => didOpen env document syncedDocuments
  | DidChange document => didChange document syncedDocuments
  | WillSave document => willSave document syncedDocuments
  | WillSaveWaitUntil document => willSaveWaitUntil document syncedDocuments
  | DidSave document => didSave document syncedDocuments
  | DidClose document => didClose document syncedDocuments
  end.

(** A sequence of calls, each in its own surroundings: the final
    [syncedDocuments] and everything forwarded, in order. *)
Fixpoint run (calls : list (SyncEnv * SyncEvent))
    (syncedDocuments : gmap string TextDocument)
    : gmap string TextDocument * list SyncEvent :=
  match calls with
  | [] => (syncedDocuments, [])
  | (env, event) :: calls' =>
      let '(synced1, forwarded) := handle env event syncedDocuments in
      let '(synced2, rest) := run calls' synced1 in
      (synced2, (option_list forwarded ++ rest)%list)
  end.
End Middleware.

(** The server's view: the documents it has been told are open, and
    whether a sequence of notifications only changes, saves and closes
    documents that are open at that point. *)
Fixpoint opened_after (opened : gset string) (trace : list SyncEvent) : gset string :=
  match trace with
  | [] => opened
  | DidOpen document :: trace' => opened_after ({[document_uri document]} ∪ opened) trace'
  | DidClose document :: trace' => opened_after (opened ∖ {[document]}) trace'
  | _ :: trace' => opened_after opened trace'
  end.

Fixpoint well_bracketed (opened : gset string) (trace : list SyncEvent) : Prop :=
  match trace with
  | [] => True
  | DidOpen document :: trace' => well_bracketed ({[document_uri document]} ∪ opened) trace'
  | DidClose document :: trace' =>
      document ∈ opened ∧ well_bracketed (opened ∖ {[document]}) trace'
  | DidChange document :: trace'
  | WillSave document :: trace'
  | WillSaveWaitUntil document :: trace'
  | DidSave document :: trace' => document ∈ opened ∧ well_bracketed opened trace'
  end.

(** ** [provideCodeActions] middleware *)

(** The kinds of the language server protocol that the middleware
    accepts. *)
Module CodeActionKind.
Definition QuickFix : string := "quickfix".
Definition Source : string := "source".
Definition SourceFixAll : string := "source.fixAll".
End CodeActionKind.

Definition supportedQuickFixKinds : gset string :=
  {[CodeActionKind.Source]} ∪ {[CodeActionKind.SourceFixAll]}
  ∪ {[CodeActionKind.SourceFixAll +:+ ".eslint"]} ∪ {[CodeActionKind.QuickFix]}.

Record Diagnostic := {
  diagnostic_source : option string;
  diagnostic_message : string
}.

Record CodeActionContext := {
  context_only : option (list string);
  context_diagnostics : option (list Diagnostic)
}.

(** The middleware returns [[]] itself, returns what [next] gives for a
    new context, or raises. *)
Inductive CodeActionsOutcome :=
| NoActions
| CallNext (newContext : CodeActionContext)
| Raises (e : Exception).

Definition is_eslint (diagnostic : Diagnostic) : bool :=
  bool_decide (diagnostic_source diagnostic = Some "eslint").

Definition provideCodeActions (syncedDocuments : gmap string TextDocument)
    (document : string) (context : CodeActionContext) : CodeActionsOutcome :=
  match syncedDocuments !! document with
  | None => NoActions
  | Some _ =>
      if match context_only context with
         | Some only =>
             match head only with
             | Some kind => negb (bool_decide (kind ∈ supportedQuickFixKinds))
             | None => true
             end
         | None => false
         end
      then NoActions
      else if match context_only context, context_diagnostics context with
              | None, None => true
              | None, Some diagnostics => bool_decide (length diagnostics = 0)
              | Some _, _ => false
              end
      then NoActions
      else
        match context_diagnostics context with
        | None => Raises TypeError
        | Some diagnostics =>
            let eslintDiagnostics := List.filter is_eslint diagnostics in
            if match context_only context with
               | None => bool_decide (length eslintDiagnostics = 0)
               | Some _ => false
               end
            then NoActions
            else CallNext {| context_only := context_only context;
                             context_diagnostics := Some eslintDiagnostics |}
        end
  end.

(** ** Activation *)

(** [activated] and the number of calls of [realActivate]. *)
Record Activation := {
  activated : bool;
  realActivations : nat
}.

Inductive ActivationEvent :=
| OpenedTextDocument (textDocument : TextDocument)
| ConfigurationChanged (textDocuments : list TextDocument).

Definition didOpenTextDocument (config : string -> EslintConfiguration)
    (probeFailed : gset string) (textDocument : TextDocument) (a : Activation) : Activation :=
  if activated a then a
  else if bool_decide (computeValidate config probeFailed textDocument ≠ Validate.off)
  then {| activated := true; realActivations := S (realActivations a) |}
  else a.

(** The loop over [Workspace.textDocuments], which returns at the first
    document to validate. *)
Fixpoint configurationChanged_loop (config : string -> EslintConfiguration)
    (probeFailed : gset string) (textDocuments : list TextDocument) (a : Activation)
    : Activation :=
  match textDocuments with
  | [] => a
  | textDocument :: textDocuments' =>
      if bool_decide (computeValidate config probeFailed textDocument ≠ Validate.off)
      then {| activated := true; realActivations := S (realActivations a) |}
      else configurationChanged_loop config probeFailed textDocuments' a
  end.

Definition configurationChanged (config : string -> EslintConfiguration)
    (probeFailed : gset string) (textDocuments : list TextDocument) (a : Activation)
    : Activation :=
  if activated a then a
  else configurationChanged_loop config probeFailed textDocuments a.

(** One listener call, with the configuration and [probeFailed] of that
    moment. *)
Definition activation_step (a : Activation)
    (call : (string -> EslintConfiguration) * gset string * ActivationEvent) : Activation :=
  match call with
  | (config, probeFailed, OpenedTextDocument textDocument) =>
      didOpenTextDocument config probeFailed textDocument a
  | (config, probeFailed, ConfigurationChanged textDocuments) =>
      configurationChanged config probeFailed textDocuments a
  end.

(** Whether the call sees a document to validate. *)
Definition sees_document_to_validate
    (call : (string -> EslintConfiguration) * gset string * ActivationEvent) : bool :=
  match call with
  | (config, probeFailed, OpenedTextDocument textDocument) =>
      bool_decide (computeValidate config probeFailed textDocument ≠ Validate.off)
  | (config, probeFailed, ConfigurationChanged textDocuments) =>
      existsb (fun textDocument =>
                 bool_decide (computeValidate config probeFailed textDocument
                              ≠ Validate.off)) textDocuments
  end.

(** ** The status bar *)

(** The numeric values of the [Status] enum. *)
Definition Status_value (status : Status.t) : Z :=
  match status with
  | Status.ok => 1
  | Status.warn => 2
  | Status.error => 3
  | Status.confirmationPending => 4
  | Status.executionDisabled => 5
  | Status.executionDenied => 6
  end.

(** [statusBarItem]: its text and whether it is shown. *)
Record StatusBarItem := {
  bar_text : string;
  bar_shown : bool
}.

(** [serverRunning] is [undefined], [true] or [false]; [alwaysShow] is
    the truth value of the [eslint.alwaysShowStatus] setting. *)
Definition updateStatusBar (serverRunning : option bool) (alwaysShow : bool)
    (alwaysAllow : bool) (status : Status.t) (isValidated : bool) : StatusBarItem :=
  let text :=
    match status with
    | Status.ok => ""
    | Status.warn => "Eslint warning"
    | Status.error => "Eslint error"
    | Status.executionDenied => "Eslint denied"
    | Status.executionDisabled => "Eslint disabled"
    | Status.confirmationPending => "ESLint not approved or denied yet."
    end in
  {| bar_text := match serverRunning with
                 | None => "ESLint server is starting."
                 | Some _ => text
                 end;
     bar_shown :=
       alwaysShow || alwaysAllow
       || negb (bool_decide (status = Status.ok))
       || (bool_decide (status = Status.ok) && isValidated) |}.

Inductive ClientState := ClientStarting | ClientRunning | ClientStopped.

(** The [client.onDidChangeState] listener: the new [serverRunning] and
    the status bar it draws.  [globalStatus ?? serverRunning === false ?
    Status.error : Status.ok] tests the truth value of [globalStatus ??
    (serverRunning === false)]. *)
Definition onDidChangeState (newState : ClientState) (globalStatus : option Status.t)
    (alwaysShow alwaysAllow : bool) : option bool * StatusBarItem :=
  let serverRunning :=
    match newState with
    | ClientStarting => None
    | ClientRunning => Some true
    | ClientStopped => Some false
    end in
  let condition :=
    match globalStatus with
    | Some status => negb (bool_decide (Status_value status = 0%Z))
    | None => bool_decide (serverRunning = Some false)
    end in
  (serverRunning,
   updateStatusBar serverRunning alwaysShow alwaysAllow
     (if condition then Status.error else Status.ok) true).

(** ** Resource statuses *)

(** [updateStatusInfo] on [globalStatus] and the store. *)
Definition updateStatusInfo (uri : string) (state : Status.t)
    (gs : option Status.t * Store) : option Status.t * Store :=
  let s := gs.2 in
  (Some state,
   match resource2ResourceInfo s !! uri with
   | None =>
       with_resource2ResourceInfo
         (<[uri := {| status := state; executionInfo := None |}]>
            (resource2ResourceInfo s)) s
   | Some info =>
       with_resource2ResourceInfo
         (<[uri := {| status := state; executionInfo := executionInfo info |}]>
            (resource2ResourceInfo s)) s
   end).

(** The store part of the [NoConfigRequest] handler. *)
Definition noConfig (uri : string) (s : Store) : Store :=
  with_statusUpdates (S (statusUpdates s))
    (match resource2ResourceInfo s !! uri with
     | None =>
         with_resource2ResourceInfo
           (<[uri := {| status := Status.warn; executionInfo := None |}]>
              (resource2ResourceInfo s)) s
     | Some info =>
         with_resource2ResourceInfo
           (<[uri := {| status := Status.warn; executionInfo := executionInfo info |}]>
              (resource2ResourceInfo s)) s
     end).

(** The [Workspace.onDidCloseTextDocument] listener. *)
Definition onDidCloseTextDocument (uri : string) (s : Store) : Store :=
  with_resource2ResourceInfo (delete uri (resource2ResourceInfo s)) s.

Definition getExecutionInfo (h : Host) (doc : option string) (strict : bool)
    : M (option Ref) :=
  match doc with
  | None => ret None
  | Some doc_uri =>
      s <- get_store ;;
      match resource2ResourceInfo s !! doc_uri with
      | Some info => ret (executionInfo info)
      | None =>
          if negb strict then
            call h (GetWorkspaceFolder doc_uri) ;;;
            match workspaceFolderOf h doc_uri with
            | Some folder =>
                match workspaceFolder2ExecutionInfos s !! folder with
                | Some values => ret (head values)
                | None => ret None
                end
            | None => ret None
            end
          else ret None
      end
  end.

(** ** The [eslint.showOutputChannel] command *)

(** The command after [await Workspace.document]: [doc] is the current
    document, [globalStatus] the module variable, [selectedIdx] and
    [item] the answers to the quick-pick and the dialog the command may
    open.  The result tells whether [client.outputChannel.show()] was
    reached; it is the last call of its branch. *)
Definition showOutputChannel (h : Host) (client : bool) (update : option (M unit))
    (doc : option string) (globalStatus : option Status.t)
    (selectedIdx : Z) (item : option ConfirmationSelection.t) : M bool :=
  executionInfo <- getExecutionInfo h doc false ;;
  s <- get_store ;;
  match match executionInfo with
        | Some r =>
            match heap s !! r with
            | Some info =>
                if decide (result info = ConfirmExecutionResult.confirmationPending
                           ∨ result info = ConfirmExecutionResult.disabled)
                then Some (params info)
                else None
            | None => None
            end
        | None => None
        end with
  | Some p => askForLibraryConfirmation h client p update item ;;; ret false
  | None =>
      if decide (globalStatus = Some Status.ok ∨ globalStatus = Some Status.warn
                 ∨ globalStatus = Some Status.error)
      then ret true
      else if decide (globalStatus = Some Status.executionDenied)
      then resetLibraryConfirmations h client update selectedIdx item ;;; ret false
      else
        let candidate :=
          if decide (globalStatus = Some Status.confirmationPending)
          then if decide (JsMap.size (libraryPath2ExecutionInfo s) = 1)
               then head (JsMap.keys (libraryPath2ExecutionInfo s))
               else None
          else None in
        let '(candidate, toRemove) :=
          if decide (globalStatus = Some Status.executionDisabled)
          then match elements (disabledLibraries s) with
               | [library] => (Some library, true)
               | _ => (candidate, false)
               end
          else (candidate, false) in
        match candidate with
        | Some candidate =>
            match JsMap.get candidate (sessionState s) with
            | Some p =>
                (if toRemove
                 then modify (fun s => with_disabledLibraries
                                         (disabledLibraries s ∖ {[candidate]}) s)
                 else ret tt) ;;;
                askForLibraryConfirmation h client p update item ;;;
                ret false
            | None => ret true
            end
        | None => ret true
        end
  end.

(** The entry makes [computeValidate] validate the language: the
    language itself, or an item with this language whose [autoFix] is a
    boolean or absent. *)
Definition lists_language (languageId : string) (entry : ValidateEntry) : Prop :=
  entry = ValidateString languageId
  ∨ ∃ autoFix, entry = ValidateObject (JsString languageId) autoFix
               ∧ (Is.boolean autoFix || Is.undefined autoFix) = true.

(** Sample configuration: TypeScript is validated, Vue is probed. *)
Definition sampleConfiguration : string -> EslintConfiguration :=
  fun _ => {| config_enable := true;
              config_validate := Some [ValidateString "typescript"];
              config_probe := Some [JsString "vue"] |}.

Definition vueDocument : TextDocument :=
  {| document_uri := "file:///ws/App.vue"; languageId := "vue" |}.

Definition textDocument_plain : TextDocument :=
  {| document_uri := "file:///ws/notes.txt"; languageId := "text" |}.

Definition sampleEnv : SyncEnv :=
  {| env_config := sampleConfiguration;
     env_probeFailed := ∅;
     env_matchesPackageJson := fun _ => false;
     env_matchesConfigFile := fun _ => false |}.

(** * Properties *)

(** ** The monad *)

Lemma quietHost_reliable : reliable quietHost.
Proof. intros c. reflexivity. Qed.

Lemma bind_normal {A B} (m : M A) (k : A -> M B) s a s' :
  m s = (Normal a, s') → bind m k s = k a s'.
Proof. intros H. unfold bind. by rewrite H. Qed.

Lemma call_reliable h c s : reliable h → call h c s = (Normal tt, s).
Proof. intros H. unfold call. by rewrite H. Qed.

Lemma preserves_ret {A} R `{!Reflexive R} (a : A) : preserves R (ret a).
Proof. intros s. simpl. reflexivity. Qed.

Lemma preserves_throw {A} R `{!Reflexive R} e : preserves R (throw (A:=A) e).
Proof. intros s. simpl. reflexivity. Qed.

Lemma preserves_get R `{!Reflexive R} : preserves R get_store.
Proof. intros s. simpl. reflexivity. Qed.

Lemma preserves_call R `{!Reflexive R} h c : preserves R (call h c).
Proof. intros s. unfold call. destruct (throws h c); simpl; reflexivity. Qed.

Lemma preserves_bind {A B} R `{!Transitive R} (m : M A) (k : A -> M B) :
  preserves R m → (∀ a, preserves R (k a)) → preserves R (bind m k).
Proof.
  intros Hm Hk s. unfold bind. specialize (Hm s).
  destruct (m s) as [[a|e] s1]; simpl in *; [|done].
  etrans; [exact Hm|apply Hk].
Qed.

Lemma preserves_for_each {A} R `{!PreOrder R} (f : A -> M unit) l :
  (∀ x, preserves R (f x)) → preserves R (for_each f l).
Proof.
  intros Hf. induction l as [|x l IH]; simpl.
  - apply preserves_ret, _.
  - apply preserves_bind; [apply _|apply Hf|intros _; exact IH].
Qed.

Lemma preserves_modify R (f : Store -> Store) :
  (∀ s, R s (f s)) → preserves R (modify f).
Proof. intros H s. apply H. Qed.

(** ** Frames of the diagnostics operations *)

Ltac preserves_steps :=
  repeat first
    [ apply preserves_bind; [apply _| |intros ?]
    | apply preserves_call, _
    | apply preserves_get, _
    | apply preserves_ret, _
    | apply preserves_throw, _
    | apply preserves_modify; intros []; done
    | case_match ].

#[global] Instance same_trust_preorder : PreOrder same_trust.
Proof.
  split.
  - by intros s.
  - intros s1 s2 s3 (?&?&?) (?&?&?). repeat split; congruence.
Qed.

#[global] Instance same_but_heap_preorder : PreOrder same_but_heap.
Proof.
  split.
  - intros s. by destruct s.
  - intros s1 s2 s3 H1 H2. unfold same_but_heap in *.
    rewrite H2, H1. by destruct s1.
Qed.

Lemma clearInfo_heap h r : preserves same_but_heap (clearInfo h r).
Proof.
  unfold clearInfo. preserves_steps.
Qed.

Lemma clearDiagnosticState_heap h p : preserves same_but_heap (clearDiagnosticState h p).
Proof.
  unfold clearDiagnosticState.
  apply preserves_bind; [apply _|apply preserves_get, _|intros s].
  case_match; [apply clearInfo_heap|apply preserves_ret, _].
Qed.

Lemma clearAllDiagnosticState_heap h : preserves same_but_heap (clearAllDiagnosticState h).
Proof.
  unfold clearAllDiagnosticState.
  apply preserves_bind; [apply _|apply preserves_get, _|intros s].
  apply preserves_for_each; [apply _|intros r; apply clearInfo_heap].
Qed.

Lemma clearInfo_reliable h r s :
  reliable h → ∃ s', clearInfo h r s = (Normal tt, s').
Proof.
  intros Hrel. unfold clearInfo, bind, modify, get_store.
  rewrite call_reliable by done. simpl.
  repeat case_match; simplify_eq; eauto.
  all: rewrite call_reliable in * by done; simplify_eq; eauto.
Qed.

Lemma clearDiagnosticState_reliable h p s :
  reliable h → ∃ s', clearDiagnosticState h p s = (Normal tt, s').
Proof.
  intros Hrel. unfold clearDiagnosticState, bind, get_store.
  case_match; [by apply clearInfo_reliable|by eexists].
Qed.

(** ** The execution gate *)

Lemma confirm_decide_reliable h p s :
  reliable h →
  ∃ d s', confirm_decide h p s = (Normal d, s')
          ∧ default ConfirmExecutionResult.confirmationPending d
            = gate_decision s (c_libraryPath p).
Proof.
  intros Hrel. unfold confirm_decide, gate_decision, bind, get_store. simpl.
  destruct (decide _) as [Hd|Hd]; [by eexists _, _|].
  destruct (eslintExecutionState s !! c_libraryPath p) as [[]|] eqn:E; simpl.
  - destruct (clearDiagnosticState_reliable h (as_params p) s Hrel) as [s' ->].
    by eexists _, _.
  - destruct (clearDiagnosticState_reliable h (as_params p) s Hrel) as [s' ->].
    by eexists _, _.
  - destruct (eslintAlwaysAllowExecutionState s); [|by eexists _, _].
    destruct (clearDiagnosticState_reliable h (as_params p) s Hrel) as [s' ->].
    by eexists _, _.
Qed.

Lemma confirm_record_reliable h p res s :
  reliable h → ∃ r s', confirm_record h p res s = (Normal r, s').
Proof.
  intros Hrel. unfold confirm_record, bind, get_store, alloc, modify. simpl.
  case_match; [by eexists _, _|].
  rewrite call_reliable by done. simpl.
  rewrite ?call_reliable by done.
  case_match; by eexists _, _.
Qed.

Lemma confirm_try_reliable h p s :
  reliable h →
  ∃ s', confirm_try h p s = (Normal (gate_decision s (c_libraryPath p)), s').
Proof.
  intros Hrel. unfold confirm_try.
  erewrite bind_normal by reflexivity.
  set (s0 := with_sessionState _ s).
  destruct (confirm_decide_reliable h p s0 Hrel) as (d & s1 & Hdec & Hres).
  erewrite bind_normal by exact Hdec.
  rewrite Hres.
  destruct (confirm_record_reliable h p (gate_decision s0 (c_libraryPath p)) s1 Hrel)
    as (r & s2 & Hrec).
  erewrite bind_normal by exact Hrec.
  by eexists.
Qed.

Lemma confirm_gate_decision h p s :
  reliable h → (confirm h p s).1 = Normal (gate_decision s (c_libraryPath p)).
Proof.
  intros Hrel. unfold confirm, try_catch.
  destruct (confirm_try_reliable h p s Hrel) as [s' ->]. reflexivity.
Qed.

Lemma gate_decision_alwaysAllow s lp :
  eslintAlwaysAllowExecutionState s = true →
  gate_decision s lp =
    if decide (lp ∈ disabledLibraries s) then ConfirmExecutionResult.disabled
    else if decide (eslintExecutionState s !! lp = Some false)
    then ConfirmExecutionResult.denied
    else ConfirmExecutionResult.approved.
Proof.
  intros Hflag. unfold gate_decision. rewrite Hflag.
  destruct (decide _); [done|].
  destruct (eslintExecutionState s !! lp) as [[]|]; by case_decide.
Qed.

(** C1: with a host that raises nothing, [confirm] answers [disabled] for
    a library of the disabled set; otherwise [approved] or [denied] after a
    stored [true] or [false]; otherwise [approved] when the always-allow
    flag is set; otherwise [confirmationPending]. *)
Theorem confirm_decides_in_order (h : Host) (p : ConfirmExecutionParams) (s : Store) :
  reliable h →
  (confirm h p s).1 =
    Normal
      (if decide (c_libraryPath p ∈ disabledLibraries s)
       then ConfirmExecutionResult.disabled
       else
         match eslintExecutionState s !! c_libraryPath p with
         | Some true => ConfirmExecutionResult.approved
         | Some false => ConfirmExecutionResult.denied
         | None =>
             if eslintAlwaysAllowExecutionState s
             then ConfirmExecutionResult.approved
             else ConfirmExecutionResult.confirmationPending
         end).
Proof.
  intros Hrel. unfold confirm, try_catch.
  destruct (confirm_try_reliable h p s Hrel) as [s' Htry].
  rewrite Htry. unfold gate_decision. reflexivity.
Qed.

Lemma confirm_decides_in_order_witness :
  (confirm quietHost confirmA store_denied_alwaysAllow).1 =
    Normal
      (if decide (c_libraryPath confirmA ∈ disabledLibraries store_denied_alwaysAllow)
       then ConfirmExecutionResult.disabled
       else
         match eslintExecutionState store_denied_alwaysAllow !! c_libraryPath confirmA with
         | Some true => ConfirmExecutionResult.approved
         | Some false => ConfirmExecutionResult.denied
         | None =>
             if eslintAlwaysAllowExecutionState store_denied_alwaysAllow
             then ConfirmExecutionResult.approved
             else ConfirmExecutionResult.confirmationPending
         end).
Proof.
  apply (confirm_decides_in_order quietHost confirmA store_denied_alwaysAllow).
  intros c. reflexivity.
Defined.

(** C2: [confirm] always returns a decision, and when the [try] block
    raises, the decision is [denied]; the mutations made before the
    exception stay. *)
Theorem confirm_fails_closed (h : Host) (p : ConfirmExecutionParams) (s : Store) :
  (∃ res s', confirm h p s = (Normal res, s'))
  ∧ (∀ e s', confirm_try h p s = (Thrown e, s') →
             confirm h p s = (Normal ConfirmExecutionResult.denied, s')).
Proof.
  unfold confirm, try_catch. split.
  - destruct (confirm_try h p s) as [[res|e] s']; by eexists _, _.
  - intros e s' ->. reflexivity.
Qed.

Lemma confirm_fails_closed_witness :
  confirm_try brokenHost confirmA initialStore
    = (Thrown (HostFailure CreateDiagnosticCollection),
       (confirm_try brokenHost confirmA initialStore).2)
  ∧ confirm brokenHost confirmA initialStore
    = (Normal ConfirmExecutionResult.denied,
       (confirm_try brokenHost confirmA initialStore).2).
Proof.
  split.
  - vm_compute. reflexivity.
  - apply (proj2 (confirm_fails_closed brokenHost confirmA initialStore)
             (HostFailure CreateDiagnosticCollection)).
    vm_compute. reflexivity.
Defined.

(** C3, as the code has it: with the always-allow flag set, [confirm]
    answers [approved] for a library that is neither disabled nor stored
    as denied; a disabled library is still [disabled] and a stored [false]
    is still [denied]. *)
Theorem confirm_alwaysAllow (h : Host) (p : ConfirmExecutionParams) (s : Store) :
  reliable h →
  eslintAlwaysAllowExecutionState s = true →
  (confirm h p s).1 =
    Normal
      (if decide (c_libraryPath p ∈ disabledLibraries s)
       then ConfirmExecutionResult.disabled
       else if decide (eslintExecutionState s !! c_libraryPath p = Some false)
       then ConfirmExecutionResult.denied
       else ConfirmExecutionResult.approved).
Proof.
  intros Hrel Hflag.
  rewrite confirm_gate_decision by done. by rewrite gate_decision_alwaysAllow.
Qed.

Lemma confirm_alwaysAllow_witness :
  (confirm quietHost confirmB store_denied_alwaysAllow).1
    = Normal
        (if decide (c_libraryPath confirmB ∈ disabledLibraries store_denied_alwaysAllow)
         then ConfirmExecutionResult.disabled
         else if decide (eslintExecutionState store_denied_alwaysAllow
                           !! c_libraryPath confirmB = Some false)
         then ConfirmExecutionResult.denied
         else ConfirmExecutionResult.approved).
Proof.
  apply (confirm_alwaysAllow quietHost confirmB store_denied_alwaysAllow).
  - intros c. reflexivity.
  - reflexivity.
Defined.

(** C3 as stated fails: the always-allow flag is set, library A has a
    stored [false], and [confirm] answers [denied]. *)
Lemma confirm_alwaysAllow_stored_false_denied :
  eslintAlwaysAllowExecutionState store_denied_alwaysAllow = true
  ∧ eslintExecutionState store_denied_alwaysAllow !! libA = Some false
  ∧ (confirm quietHost confirmA store_denied_alwaysAllow).1
    = Normal ConfirmExecutionResult.denied
  ∧ (confirm quietHost confirmA store_denied_alwaysAllow).1
    ≠ Normal ConfirmExecutionResult.approved.
Proof. vm_compute. repeat split; congruence. Qed.


(** ** Status reduction *)

Lemma for_of_scan_body_seeded running rest :
  for_of scan_body (Some running) rest = Some (scan_from running rest).
Proof.
  revert running. induction rest as [|r rest IH]; intros running; [done|].
  destruct r; simpl; try apply IH; done.
Qed.

Lemma for_of_scan_body records :
  for_of scan_body None records = reduce_records records.
Proof. destruct records as [|first rest]; [done|]. apply for_of_scan_body_seeded. Qed.

(** A new key goes to the end of the iteration order, an existing key
    keeps its place. *)
Lemma JsMap_values_set_new {V} k (v : V) m :
  JsMap.get k m = None → JsMap.values (JsMap.set k v m) = (JsMap.values m ++ [v])%list.
Proof.
  induction m as [|[k' v'] m IH]; simpl; [done|].
  case_decide; [done|]. intros Hget. simpl. f_equal. by apply IH.
Qed.

Lemma JsMap_keys_set_old {V} k (v : V) m :
  is_Some (JsMap.get k m) → JsMap.keys (JsMap.set k v m) = JsMap.keys m.
Proof.
  induction m as [|[k' v'] m IH]; simpl; [by intros [? ?]|].
  case_decide; simpl; [by subst|]. intros Hget. f_equal. by apply IH.
Qed.

(** C4: for a focused resource without a status of its own,
    [findApplicableStatus] reduces the candidate records (the list of the
    resource's workspace folder if there is one, else all tracked
    records, in insertion order): the first record seeds the result, a
    later pending record replaces it and ends the scan, a denied or
    disabled record replaces it and the scan goes on, an approved record
    leaves it; no record gives [ok]; the decision is shown as
    approved→ok, pending→confirmationPending, denied→executionDenied,
    disabled→executionDisabled. *)
Theorem findApplicableStatus_reduces (h : Host) (editor_uri : string) (s : Store) :
  throws h (GetWorkspaceFolder editor_uri) = false →
  resource2ResourceInfo s !! editor_uri = None →
  findApplicableStatus h (Some editor_uri) s =
    (Normal (display_status
               (reduce_records (results_of s (candidate_records h editor_uri s))),
             false), s).
Proof.
  intros Hcall Hnone.
  unfold findApplicableStatus, candidate_records, bind, get_store, call, ret.
  rewrite Hnone, Hcall. simpl.
  destruct (workspaceFolderOf h editor_uri) as [folder|];
    [destruct (workspaceFolder2ExecutionInfos s !! folder)|];
    rewrite for_of_scan_body;
    by destruct (reduce_records _) as [[]|].
Qed.

Lemma findApplicableStatus_reduces_witness :
  findApplicableStatus quietHost (Some "file:///ws/a.js") store_four_records =
    (Normal (display_status
               (reduce_records
                  (results_of store_four_records
                     (candidate_records quietHost "file:///ws/a.js" store_four_records))),
             false), store_four_records).
Proof.
  apply (findApplicableStatus_reduces quietHost "file:///ws/a.js" store_four_records).
  - reflexivity.
  - vm_compute. reflexivity.
Defined.

Example findApplicableStatus_four_records :
  (findApplicableStatus quietHost (Some "file:///ws/a.js") store_four_records).1
    = Normal (Status.confirmationPending, false).
Proof. vm_compute. reflexivity. Qed.

(** ** The confirmation dialog *)

Lemma ask_resume_dismissed h client p update s :
  ask_resume h client p update None s = (Normal tt, s).
Proof. reflexivity. Qed.

(** C8, as the code has it: a dismissed dialog leaves the store as it
    was except for the session map, where the library's parameters were
    recorded before the dialog opened: the stored decisions, the
    always-allow flag, the disabled set, the execution records with their
    diagnostics and the resource statuses are unchanged. *)
Theorem askForLibraryConfirmation_dismissed (h : Host) (client : bool)
    (p : ExecutionParams) (update : option (M unit)) (s : Store) :
  let s' := (askForLibraryConfirmation h client p update None s).2 in
  s' = with_sessionState (JsMap.set (libraryPath p) p (sessionState s)) s
  ∧ eslintExecutionState s' = eslintExecutionState s
  ∧ eslintAlwaysAllowExecutionState s' = eslintAlwaysAllowExecutionState s
  ∧ disabledLibraries s' = disabledLibraries s
  ∧ libraryPath2ExecutionInfo s' = libraryPath2ExecutionInfo s
  ∧ heap s' = heap s
  ∧ workspaceFolder2ExecutionInfos s' = workspaceFolder2ExecutionInfos s
  ∧ resource2ResourceInfo s' = resource2ResourceInfo s.
Proof.
  assert ((askForLibraryConfirmation h client p update None s).2
          = with_sessionState (JsMap.set (libraryPath p) p (sessionState s)) s) as ->.
  { unfold askForLibraryConfirmation, ask_open, bind, modify, call. simpl.
    destruct (throws h (GetWorkspaceFolder _)); [done|]. simpl.
    by destruct (throws h ShowInformationMessage). }
  done.
Qed.

(** C8 as stated fails: the library was not in the session map before the
    call and is in it after the dialog was dismissed. *)
Lemma askForLibraryConfirmation_dismissed_touches_session :
  sessionState initialStore = []
  ∧ sessionState
      (askForLibraryConfirmation quietHost true (as_params confirmA) None None
         initialStore).2
    = [(libA, as_params confirmA)]
  ∧ (askForLibraryConfirmation quietHost true (as_params confirmA) None None
       initialStore).2
    ≠ initialStore.
Proof. vm_compute. repeat split; congruence. Qed.

(** ** Reset *)

(** C9, as the code has it: for the reset kinds [all] and [alwaysAllow],
    and for [session] unless exactly one library was touched this
    session, the reset makes its kind-specific change to the stored
    decisions, persists it, empties the disabled set, the execution
    records, the resource statuses and the workspace-folder index, and
    only then runs the status-changed callback it was given (if any) and
    notifies the server. *)
Theorem resetLibraryConfirmations_clears (h : Host) (client : bool)
    (update : option (M unit)) (idx : nat) (item : option ConfirmationSelection.t)
    (kind : ResetKind) (s : Store) :
  throws h ShowQuickpick = false →
  reset_items s !! idx = Some kind →
  (kind = kind_session → JsMap.size (sessionState s) ≠ 1) →
  ∃ s1,
    cleared s1
    ∧ (eslintExecutionState s1, eslintAlwaysAllowExecutionState s1) = reset_trust kind s
    ∧ globalState_libs s1 = Some (eslintExecutionState s1)
    ∧ globalState_alwaysAllow s1 = Some (eslintAlwaysAllowExecutionState s1)
    ∧ resetLibraryConfirmations h client update (Z.of_nat idx) item s
      = (run_update update ;;; notify_server client) s1.
Proof.
  intros Hcall Hidx Hone.
  unfold resetLibraryConfirmations, bind at 1, get_store.
  unfold bind at 1. unfold call. rewrite Hcall. simpl.
  destruct (decide (Z.of_nat idx = (-1)%Z)) as [?|_]; [lia|].
  destruct (decide (0 ≤ Z.of_nat idx)%Z) as [_|?]; [|lia].
  rewrite Nat2Z.id, Hidx.
  destruct kind.
  - eexists. split_and!; last first.
    + unfold bind, modify. simpl. reflexivity.
    + done.
    + done.
    + done.
    + done.
  - unfold bind at 1, get_store.
    destruct (decide (JsMap.size (sessionState s) = 1)) as [Hsz|_];
      [by apply Hone in Hsz|].
    eexists. split_and!; last first.
    + unfold bind, modify. simpl. reflexivity.
    + done.
    + done.
    + done.
    + done.
  - eexists. split_and!; last first.
    + unfold bind, modify. simpl. reflexivity.
    + done.
    + done.
    + done.
    + done.
Qed.

Lemma resetLibraryConfirmations_clears_witness :
  ∃ s1,
    cleared s1
    ∧ (eslintExecutionState s1, eslintAlwaysAllowExecutionState s1)
      = reset_trust kind_all store_denied_alwaysAllow
    ∧ globalState_libs s1 = Some (eslintExecutionState s1)
    ∧ globalState_alwaysAllow s1 = Some (eslintAlwaysAllowExecutionState s1)
    ∧ resetLibraryConfirmations quietHost true None (Z.of_nat 2) None
        store_denied_alwaysAllow
      = (run_update None ;;; notify_server true) s1.
Proof.
  apply (resetLibraryConfirmations_clears quietHost true None 2 None kind_all
           store_denied_alwaysAllow).
  - reflexivity.
  - reflexivity.
  - discriminate.
Defined.

(** C9 as stated fails for the session kind when one library was touched:
    the reset opens the confirmation dialog for it, and when the dialog is
    dismissed the disabled set, the execution records and the resource
    statuses are all still there. *)
Lemma resetLibraryConfirmations_session_single_keeps :
  reset_items store_one_session_library !! 0 = Some kind_session
  ∧ JsMap.size (sessionState store_one_session_library) = 1
  ∧ resetLibraryConfirmations quietHost true None 0 None store_one_session_library
    = (Normal tt, store_one_session_library)
  ∧ disabledLibraries store_one_session_library = {[libA]}
  ∧ libraryPath2ExecutionInfo store_one_session_library = [(libA, 0)]
  ∧ ¬ cleared store_one_session_library.
Proof.
  split_and!; try (vm_compute; reflexivity).
  intros (_ & Hrec & _). discriminate Hrec.
Qed.

(** ** Allow Everywhere *)

Lemma preserves_weaken {A} (R R' : Store -> Store -> Prop) (m : M A) :
  (∀ s s', R s s' → R' s s') → preserves R m → preserves R' m.
Proof. intros HR Hm s. apply HR, Hm. Qed.

Lemma same_but_heap_trust s s' : same_but_heap s s' → same_trust s s'.
Proof. intros ->. done. Qed.

Lemma alloc_trust i : preserves same_trust (alloc i).
Proof. intros []. done. Qed.

Lemma updateExecutionInfo_trust h p res :
  preserves same_trust (updateExecutionInfo h p res).
Proof.
  unfold updateExecutionInfo.
  apply preserves_bind; [apply _|apply preserves_get, _|intros s].
  case_match.
  - apply preserves_modify. intros []. done.
  - apply preserves_bind; [apply _|apply preserves_call, _|intros _].
    apply preserves_bind; [apply _|apply alloc_trust|intros r].
    apply preserves_modify. intros []. done.
Qed.

Lemma clearAllDiagnosticState_trust h : preserves same_trust (clearAllDiagnosticState h).
Proof.
  eapply preserves_weaken; [apply same_but_heap_trust|apply clearAllDiagnosticState_heap].
Qed.

Lemma run_update_trust update : keeps_trust update → preserves same_trust (run_update update).
Proof.
  intros H. destruct update as [u|]; simpl; [by apply H|apply preserves_ret, _].
Qed.

Lemma notify_server_trust client : preserves same_trust (notify_server client).
Proof.
  destruct client; simpl; [|apply preserves_ret, _].
  apply preserves_modify. intros []. done.
Qed.

(** The store after the Allow-Everywhere answer, up to the trust store. *)
Lemma ask_resume_alwaysAllow_trust h client p update s :
  keeps_trust update →
  same_trust
    (with_eslintAlwaysAllowExecutionState true
       (with_disabledLibraries (disabledLibraries s ∖ {[libraryPath p]}) s))
    (ask_resume h client p update (Some ConfirmationSelection.alwaysAllow) s).2.
Proof.
  intros Hupd. unfold ask_resume. simpl.
  unfold bind at 1. unfold bind at 1. unfold modify at 1. simpl.
  unfold bind at 1. unfold modify at 1. simpl.
  set (s1 := with_eslintAlwaysAllowExecutionState true _).
  match goal with |- same_trust _ (match ?m s1 with _ => _ end).2 =>
    assert (preserves same_trust m) as Hm end.
  { apply preserves_bind; [apply _| |intros _].
    { apply preserves_modify. intros []. done. }
    apply preserves_bind; [apply _|apply updateExecutionInfo_trust|intros _].
    apply clearAllDiagnosticState_trust. }
  specialize (Hm s1).
  match goal with |- same_trust _ (match ?m s1 with _ => _ end).2 =>
    destruct (m s1) as [[[]|e] s2] end; simpl in *; [|done].
  etrans; [exact Hm|].
  match goal with |- same_trust _ (?m s2).2 =>
    assert (preserves same_trust m) as Hk end.
  { apply preserves_bind; [apply _|by apply run_update_trust|intros _].
    apply notify_server_trust. }
  apply Hk.
Qed.

(** C10, as the code has it: after the Allow-Everywhere answer for a
    library, the library is out of the disabled set, the always-allow
    flag is set and the stored decisions are as before, so the next
    [confirm] for it never answers [disabled]: it answers [approved],
    or [denied] when a [false] is stored for the library. *)
Theorem allowEverywhere_then_confirm (h : Host) (client : bool) (p : ExecutionParams)
    (update : option (M unit)) (s : Store) :
  throws h (GetWorkspaceFolder (fileUri h (libraryPath p))) = false →
  throws h ShowInformationMessage = false →
  keeps_trust update →
  let s' := (askForLibraryConfirmation h client p update
               (Some ConfirmationSelection.alwaysAllow) s).2 in
  (libraryPath p ∉ disabledLibraries s')
  ∧ eslintAlwaysAllowExecutionState s' = true
  ∧ eslintExecutionState s' = eslintExecutionState s
  ∧ ∀ h' q, reliable h' → c_libraryPath q = libraryPath p →
      (confirm h' q s').1 =
        Normal (if decide (eslintExecutionState s !! libraryPath p = Some false)
                then ConfirmExecutionResult.denied
                else ConfirmExecutionResult.approved).
Proof.
  intros Hfolder Hdialog Hupd s'.
  assert (same_trust
            (with_eslintAlwaysAllowExecutionState true
               (with_disabledLibraries (disabledLibraries s ∖ {[libraryPath p]}) s)) s')
    as (Hlibs & Hflag & Hdis).
  { subst s'. unfold askForLibraryConfirmation, ask_open, bind at 1, bind at 1, bind at 1.
    unfold modify at 1. unfold call. rewrite Hfolder, Hdialog. simpl.
    by apply (ask_resume_alwaysAllow_trust h client p update
                (with_sessionState (JsMap.set (libraryPath p) p (sessionState s)) s)). }
  simpl in Hlibs, Hflag, Hdis.
  assert (libraryPath p ∉ disabledLibraries s') as Hnot.
  { rewrite Hdis. apply not_elem_of_difference. right. by apply elem_of_singleton. }
  split_and!; [done..|].
  intros h' q Hrel Hq.
  rewrite confirm_gate_decision, gate_decision_alwaysAllow by done.
  rewrite Hq, Hlibs. by rewrite decide_False.
Qed.

Lemma allowEverywhere_then_confirm_witness :
  let s' := (askForLibraryConfirmation quietHost true (as_params confirmA) None
               (Some ConfirmationSelection.alwaysAllow) store_disabled).2 in
  (libraryPath (as_params confirmA) ∉ disabledLibraries s')
  ∧ eslintAlwaysAllowExecutionState s' = true
  ∧ eslintExecutionState s' = eslintExecutionState store_disabled
  ∧ ∀ h' q, reliable h' → c_libraryPath q = libraryPath (as_params confirmA) →
      (confirm h' q s').1 =
        Normal (if decide (eslintExecutionState store_disabled
                             !! libraryPath (as_params confirmA) = Some false)
                then ConfirmExecutionResult.denied
                else ConfirmExecutionResult.approved).
Proof.
  apply (allowEverywhere_then_confirm quietHost true (as_params confirmA) None
           store_disabled).
  - reflexivity.
  - reflexivity.
  - intros u Hu. discriminate Hu.
Defined.

Example allowEverywhere_then_confirm_approved :
  (confirm quietHost confirmA
     (askForLibraryConfirmation quietHost true (as_params confirmA) None
        (Some ConfirmationSelection.alwaysAllow) store_disabled).2).1
    = Normal ConfirmExecutionResult.approved.
Proof. vm_compute. reflexivity. Qed.

(** C10 as stated fails: library A is disabled and stored as denied; the
    user answers Allow Everywhere for A; the next [confirm] for A answers
    [denied], not [approved]. *)
Lemma allowEverywhere_then_confirm_denied :
  libA ∈ disabledLibraries store_disabled_denied
  ∧ eslintExecutionState store_disabled_denied !! libA = Some false
  ∧ (confirm quietHost confirmA
       (askForLibraryConfirmation quietHost true (as_params confirmA) None
          (Some ConfirmationSelection.alwaysAllow) store_disabled_denied).2).1
    = Normal ConfirmExecutionResult.denied.
Proof. split_and!; vm_compute; reflexivity. Qed.

(** ** Working directories *)

Section WorkingDirectoriesProperties.
Variable lib : PathLib.
Variable filePath : option string.
Variable workspaceFolderPath : option string.

Local Abbreviation candidate := (candidate lib filePath workspaceFolderPath).
Local Abbreviation wd_step := (wd_step lib filePath workspaceFolderPath).
Local Abbreviation resolveWorkingDirectory :=
  (resolveWorkingDirectory lib filePath workspaceFolderPath).

Lemma is_mode_marker_inv e :
  is_mode_marker e = true → ∃ o, e = EntryObject o ∧ ModeItem.is_ o = true.
Proof.
  unfold is_mode_marker, classify. destruct e as [s|o|]; try done.
  intros H. exists o. split; [done|].
  repeat case_match; simplify_eq; done.
Qed.

Lemma wd_step_marker wd o :
  is_mode_marker (EntryObject o) = true → wd_step wd (EntryObject o) = Some (WdMode o).
Proof. unfold is_mode_marker, wd_step. by destruct (classify _). Qed.

Lemma wd_step_no_candidate wd e :
  is_mode_marker e = false → candidate e = None → wd_step wd e = wd.
Proof.
  unfold is_mode_marker, candidate, wd_step.
  destruct (classify e) as [[[d p] n]|]; [|done].
  by destruct (itemValue _ _ _ _ _).
Qed.

Lemma wd_step_candidate wd e value n :
  candidate e = Some (value, n) →
  wd_step wd e =
    match wd with
    | None => Some (WdDirectory value n)
    | Some (WdMode o) => if ModeItem.is_ o then Some (WdDirectory value n) else wd
    | Some (WdDirectory current _) =>
        if decide (String.length current < String.length value)
        then Some (WdDirectory value n) else wd
    end.
Proof.
  unfold candidate, wd_step.
  destruct (classify e) as [[[d p] n']|]; [|done].
  destruct (itemValue _ _ _ _ _); [|done].
  by intros [= -> ->].
Qed.

Lemma foldl_wd_step_markers rules :
  (rules = [] ∨ ∃ m, last rules = Some m ∧ is_mode_marker m = true) →
  foldl wd_step None rules = last_marker rules ∧ replaceable (last_marker rules).
Proof.
  intros [->|(m & Hlast & Hm)]; [done|].
  apply last_Some in Hlast as [rules' ->].
  destruct (is_mode_marker_inv m Hm) as (o & -> & Ho).
  unfold last_marker. rewrite foldl_app, last_snoc. simpl.
  by rewrite wd_step_marker.
Qed.

Lemma foldl_wd_step_directory tail :
  Forall (fun e => is_mode_marker e = false) tail →
  ∀ current n0,
    (foldl wd_step (Some (WdDirectory current n0)) tail = Some (WdDirectory current n0)
     ∧ ∀ e c, e ∈ tail → candidate e = Some c →
         (String.length c.1 ≤ String.length current)%nat)
    ∨ (∃ pre e post d n,
         tail = (pre ++ e :: post)%list
         ∧ candidate e = Some (d, n)
         ∧ foldl wd_step (Some (WdDirectory current n0)) tail = Some (WdDirectory d n)
         ∧ (String.length current < String.length d)%nat
         ∧ (∀ e' c, e' ∈ pre → candidate e' = Some c →
              (String.length c.1 < String.length d)%nat)
         ∧ (∀ e' c, e' ∈ post → candidate e' = Some c →
              (String.length c.1 ≤ String.length d)%nat)).
Proof.
  induction 1 as [|e tail He Htail IH]; intros current n0.
  { left. split; [done|]. intros e c Hin. by apply elem_of_nil in Hin. }
  simpl. destruct (candidate e) as [[value n]|] eqn:Hc.
  - rewrite (wd_step_candidate _ e value n Hc).
    destruct (decide (String.length current < String.length value)) as [Hlt|Hge].
    + destruct (IH value n) as [[Hres Hall]|(pre & e' & post & d & n' & -> & Hc' & Hres & Hlt' & Hpre & Hpost)].
      * right. exists [], e, tail, value, n. split_and!; try done.
        intros e' c Hin. by apply elem_of_nil in Hin.
      * right. exists (e :: pre), e', post, d, n'. split_and!; try done; [lia|].
        intros e0 c [->|Hin]%elem_of_cons Hc0; [|by eapply Hpre].
        rewrite Hc in Hc0. injection Hc0 as <-. simpl. lia.
    + destruct (IH current n0) as [[Hres Hall]|(pre & e' & post & d & n' & -> & Hc' & Hres & Hlt' & Hpre & Hpost)].
      * left. split; [done|].
        intros e0 c [->|Hin]%elem_of_cons Hc0; [|by eapply Hall].
        rewrite Hc in Hc0. injection Hc0 as <-. simpl. lia.
      * right. exists (e :: pre), e', post, d, n'. split_and!; try done.
        intros e0 c [->|Hin]%elem_of_cons Hc0; [|by eapply Hpre].
        rewrite Hc in Hc0. injection Hc0 as <-. simpl. lia.
  - rewrite (wd_step_no_candidate _ e He Hc).
    destruct (IH current n0) as [[Hres Hall]|(pre & e' & post & d & n' & -> & Hc' & Hres & Hlt' & Hpre & Hpost)].
    + left. split; [done|].
      intros e0 c [->|Hin]%elem_of_cons Hc0; [congruence|by eapply Hall].
    + right. exists (e :: pre), e', post, d, n'. split_and!; try done.
      intros e0 c [->|Hin]%elem_of_cons Hc0; [congruence|by eapply Hpre].
Qed.

Lemma foldl_wd_step_replaceable tail :
  Forall (fun e => is_mode_marker e = false) tail →
  ∀ wd, replaceable wd →
    Exists (fun e => is_Some (candidate e)) tail →
    ∃ pre e post d n,
      tail = (pre ++ e :: post)%list
      ∧ candidate e = Some (d, n)
      ∧ foldl wd_step wd tail = Some (WdDirectory d n)
      ∧ (∀ e' c, e' ∈ pre → candidate e' = Some c →
           (String.length c.1 < String.length d)%nat)
      ∧ (∀ e' c, e' ∈ post → candidate e' = Some c →
           (String.length c.1 ≤ String.length d)%nat).
Proof.
  induction 1 as [|e tail He Htail IH]; intros wd Hwd Hex.
  { by apply Exists_nil in Hex. }
  simpl. destruct (candidate e) as [[value n]|] eqn:Hc.
  - assert (wd_step wd e = Some (WdDirectory value n)) as ->.
    { rewrite (wd_step_candidate _ e value n Hc).
      destruct wd as [[o|]|]; simpl in Hwd; [by rewrite Hwd|done..]. }
    destruct (foldl_wd_step_directory tail Htail value n)
      as [[Hres Hall]|(pre & e' & post & d & n' & -> & Hc' & Hres & Hlt' & Hpre & Hpost)].
    + exists [], e, tail, value, n. split_and!; try done.
      intros e' c Hin. by apply elem_of_nil in Hin.
    + exists (e :: pre), e', post, d, n'. split_and!; try done.
      intros e0 c [->|Hin]%elem_of_cons Hc0; [|by eapply Hpre].
      rewrite Hc in Hc0. injection Hc0 as <-. simpl. lia.
  - rewrite (wd_step_no_candidate _ e He Hc).
    apply Exists_cons in Hex as [[c Hc']|Hex]; [congruence|].
    destruct (IH wd Hwd Hex) as (pre & e' & post & d & n' & -> & Hc' & Hres & Hpre & Hpost).
    exists (e :: pre), e', post, d, n'. split_and!; try done.
    intros e0 c [->|Hin]%elem_of_cons Hc0; [congruence|by eapply Hpre].
Qed.

Lemma foldl_wd_step_nothing tail wd :
  Forall (fun e => is_mode_marker e = false) tail →
  Forall (fun e => candidate e = None) tail →
  foldl wd_step wd tail = wd.
Proof.
  induction 1 as [|e tail He Htail IH]; [done|].
  intros [Hc Hcs]%Forall_cons. simpl.
  rewrite (wd_step_no_candidate _ e He Hc). by apply IH.
Qed.

End WorkingDirectoriesProperties.

(** Every rule list splits at its last mode marker. *)
Lemma rules_split_at_last_marker (rules : list Entry) :
  ∃ prefix tail,
    rules = (prefix ++ tail)%list
    ∧ (prefix = [] ∨ ∃ m, last prefix = Some m ∧ is_mode_marker m = true)
    ∧ Forall (fun e => is_mode_marker e = false) tail.
Proof.
  induction rules as [|e rules IH] using rev_ind.
  { exists [], []. split_and!; [done|by left|constructor]. }
  destruct (is_mode_marker e) eqn:He.
  - exists (rules ++ [e])%list, []. split_and!.
    + by rewrite app_nil_r.
    + right. exists e. by rewrite last_snoc.
    + constructor.
  - destruct IH as (prefix & tail & -> & Hprefix & Htail).
    exists prefix, (tail ++ [e])%list. split_and!.
    + by rewrite app_assoc.
    + done.
    + apply Forall_app. split; [done|]. by constructor.
Qed.

(** C5, as the code has it: among the rules after the last mode marker
    (all rules when the list has none) that produce a candidate, the
    resolver keeps the longest candidate, and of several candidates of
    that length the earliest: every producing rule before the kept one
    has a strictly shorter candidate, every one after it a candidate that
    is not longer. *)
Theorem resolve_keeps_longest_earliest (lib : PathLib) (filePath : option string)
    (workspaceFolderPath : option string) (prefix tail : list Entry) :
  (prefix = [] ∨ ∃ m, last prefix = Some m ∧ is_mode_marker m = true) →
  Forall (fun e => is_mode_marker e = false) tail →
  Exists (fun e => is_Some (candidate lib filePath workspaceFolderPath e)) tail →
  ∃ pre e post d n,
    tail = (pre ++ e :: post)%list
    ∧ candidate lib filePath workspaceFolderPath e = Some (d, n)
    ∧ resolveWorkingDirectory lib filePath workspaceFolderPath (prefix ++ tail)%list
      = Some (WdDirectory d n)
    ∧ (∀ e' c, e' ∈ pre → candidate lib filePath workspaceFolderPath e' = Some c →
         (String.length c.1 < String.length d)%nat)
    ∧ (∀ e' c, e' ∈ post → candidate lib filePath workspaceFolderPath e' = Some c →
         (String.length c.1 ≤ String.length d)%nat).
Proof.
  intros Hprefix Htail Hex.
  destruct (foldl_wd_step_markers lib filePath workspaceFolderPath prefix Hprefix)
    as [Hfold Hrepl].
  unfold resolveWorkingDirectory. rewrite foldl_app, Hfold.
  by apply foldl_wd_step_replaceable.
Qed.

Lemma resolve_keeps_longest_earliest_witness :
  ∃ pre e post d n,
    rules_nested = (pre ++ e :: post)%list
    ∧ candidate posixLib (Some "/proj/a/b/file.js") None e = Some (d, n)
    ∧ resolveWorkingDirectory posixLib (Some "/proj/a/b/file.js") None ([] ++ rules_nested)%list
      = Some (WdDirectory d n)
    ∧ (∀ e' c, e' ∈ pre →
         candidate posixLib (Some "/proj/a/b/file.js") None e' = Some c →
         (String.length c.1 < String.length d)%nat)
    ∧ (∀ e' c, e' ∈ post →
         candidate posixLib (Some "/proj/a/b/file.js") None e' = Some c →
         (String.length c.1 ≤ String.length d)%nat).
Proof.
  apply (resolve_keeps_longest_earliest posixLib (Some "/proj/a/b/file.js") None []
           rules_nested).
  - left. reflexivity.
  - repeat constructor.
  - apply Exists_cons_hd. vm_compute. eexists. reflexivity.
Defined.

(** The example of the specification: the nested directory wins and
    brings its [!cwd]. *)
Example resolve_nested :
  resolveWorkingDirectory posixLib (Some "/proj/a/b/file.js") None rules_nested
    = Some (WdDirectory "/proj/a/b/" true).
Proof. vm_compute. reflexivity. Qed.

(** C5 as stated fails twice.  Two rules give the same candidate
    [/proj/a/] and the resolver keeps the earlier rule's [!cwd], not the
    later one's; and a longer candidate found before a mode marker is
    lost to a shorter one found after it. *)
Lemma resolve_tie_keeps_earlier :
  candidate posixLib (Some "/proj/a/file.js") None (directoryItem "/proj/a/" false)
    = Some ("/proj/a/", false)
  ∧ candidate posixLib (Some "/proj/a/file.js") None (directoryItem "/proj/a/" true)
    = Some ("/proj/a/", true)
  ∧ resolveWorkingDirectory posixLib (Some "/proj/a/file.js") None rules_tie
    = Some (WdDirectory "/proj/a/" false)
  ∧ resolveWorkingDirectory posixLib (Some "/proj/a/file.js") None rules_tie
    ≠ Some (WdDirectory "/proj/a/" true)
  ∧ candidate posixLib (Some "/proj/a/b/file.js") None (directoryItem "/proj/a/b/" true)
    = Some ("/proj/a/b/", true)
  ∧ resolveWorkingDirectory posixLib (Some "/proj/a/b/file.js") None rules_marker_between
    = Some (WdDirectory "/proj/a/" false).
Proof. vm_compute. split_and!; congruence. Qed.

(** C6, as the code has it: the resolver returns the last mode marker
    exactly when no rule after that marker produces a candidate; when a
    rule after the last marker (any rule, in a list without marker)
    produces one, the result is a directory candidate. *)
Theorem resolve_mode_marker_fallback (lib : PathLib) (filePath : option string)
    (workspaceFolderPath : option string) (prefix tail : list Entry) :
  (prefix = [] ∨ ∃ m, last prefix = Some m ∧ is_mode_marker m = true) →
  Forall (fun e => is_mode_marker e = false) tail →
  let resolved := resolveWorkingDirectory lib filePath workspaceFolderPath
                    (prefix ++ tail)%list in
  (Forall (fun e => candidate lib filePath workspaceFolderPath e = None) tail →
     resolved = last_marker prefix)
  ∧ (Exists (fun e => is_Some (candidate lib filePath workspaceFolderPath e)) tail →
       ∃ d n, resolved = Some (WdDirectory d n))
  ∧ (∀ o, resolved = Some (WdMode o) ↔
          last_marker prefix = Some (WdMode o)
          ∧ Forall (fun e => candidate lib filePath workspaceFolderPath e = None) tail).
Proof.
  intros Hprefix Htail resolved.
  destruct (foldl_wd_step_markers lib filePath workspaceFolderPath prefix Hprefix)
    as [Hfold Hrepl].
  assert (Forall (fun e => candidate lib filePath workspaceFolderPath e = None) tail →
          resolved = last_marker prefix) as Hnone.
  { intros Hall. subst resolved. unfold resolveWorkingDirectory.
    rewrite foldl_app, Hfold. by apply foldl_wd_step_nothing. }
  assert (Exists (fun e => is_Some (candidate lib filePath workspaceFolderPath e)) tail →
          ∃ d n, resolved = Some (WdDirectory d n)) as Hsome.
  { intros Hex.
    destruct (foldl_wd_step_replaceable lib filePath workspaceFolderPath tail Htail
                (last_marker prefix) Hrepl Hex)
      as (pre & e & post & d & n & _ & _ & Hres & _).
    exists d, n. subst resolved. unfold resolveWorkingDirectory.
    by rewrite foldl_app, Hfold. }
  split_and!; [done..|].
  intros o. split.
  - intros Hmode.
    destruct (decide (Forall (fun e => candidate lib filePath workspaceFolderPath e = None)
                             tail)) as [Hall|Hnot].
    + split; [|done]. by rewrite <- Hnone.
    + apply not_Forall_Exists in Hnot; [|apply _].
      destruct Hsome as (d & n & Hres).
      * eapply Exists_impl; [exact Hnot|]. simpl. intros e He.
        destruct (candidate lib filePath workspaceFolderPath e); [by eexists|done].
      * congruence.
  - intros [Hlast Hall]. by rewrite Hnone.
Qed.

Lemma resolve_mode_marker_fallback_witness :
  let resolved := resolveWorkingDirectory posixLib (Some "/proj/a/file.js") None
                    ([EntryObject (modeObject "location")]
                       ++ [directoryItem "/elsewhere/" false])%list in
  (Forall (fun e => candidate posixLib (Some "/proj/a/file.js") None e = None)
          [directoryItem "/elsewhere/" false] →
     resolved = last_marker [EntryObject (modeObject "location")])
  ∧ (Exists (fun e => is_Some (candidate posixLib (Some "/proj/a/file.js") None e))
            [directoryItem "/elsewhere/" false] →
       ∃ d n, resolved = Some (WdDirectory d n))
  ∧ (∀ o, resolved = Some (WdMode o) ↔
          last_marker [EntryObject (modeObject "location")] = Some (WdMode o)
          ∧ Forall (fun e => candidate posixLib (Some "/proj/a/file.js") None e = None)
                   [directoryItem "/elsewhere/" false]).
Proof.
  apply (resolve_mode_marker_fallback posixLib (Some "/proj/a/file.js") None
           [EntryObject (modeObject "location")] [directoryItem "/elsewhere/" false]).
  - right. eexists. split; reflexivity.
  - repeat constructor.
Defined.

Example resolve_marker_first :
  resolveWorkingDirectory posixLib (Some "/proj/a/file.js") None rules_marker_first
    = Some (WdMode (modeObject "location")).
Proof. vm_compute. reflexivity. Qed.

(** C6 as stated fails: the first rule produces the candidate [/proj/a/]
    for the document, the mode marker after it displaces the candidate,
    and the resolver returns the marker. *)
Lemma resolve_marker_displaces_candidate :
  candidate posixLib (Some "/proj/a/file.js") None (directoryItem "/proj/a/" false)
    = Some ("/proj/a/", false)
  ∧ resolveWorkingDirectory posixLib (Some "/proj/a/file.js") None rules_marker_last
    = Some (WdMode (modeObject "auto")).
Proof. vm_compute. split; reflexivity. Qed.

(** * Further properties *)

(** ** Rules of the program logic *)

Lemma triple_ret {A} (P : Store -> Prop) (Q : A -> Store -> Prop) E a :
  (∀ s, P s → Q a s) → triple P (ret a) Q E.
Proof. intros H s Hs. by apply H. Qed.

Lemma triple_throw {A} (P : Store -> Prop) (Q : A -> Store -> Prop) (E : Store -> Prop) e :
  (∀ s, P s → E s) → triple P (throw e) Q E.
Proof. intros H s Hs. by apply H. Qed.

Lemma triple_bind {A B} P (m : M A) (k : A -> M B) Qm Q E :
  triple P m Qm E → (∀ a, triple (Qm a) (k a) Q E) → triple P (bind m k) Q E.
Proof.
  intros Hm Hk s Hs. unfold bind. specialize (Hm s Hs).
  destruct (m s) as [[a|e] s1]; [by apply Hk|done].
Qed.


Lemma triple_modify P f (Q : unit -> Store -> Prop) E :
  (∀ s, P s → Q tt (f s)) → triple P (modify f) Q E.
Proof. intros H s Hs. by apply H. Qed.

Lemma triple_call P (E : Store -> Prop) h c :
  (∀ s, P s → E s) → triple P (call h c) (fun _ => P) E.
Proof. intros H s Hs. unfold call. destruct (throws h c); simpl; auto. Qed.

Lemma triple_call_reliable P (E : Store -> Prop) h c :
  reliable h → triple P (call h c) (fun _ => P) E.
Proof. intros Hrel s Hs. by rewrite call_reliable. Qed.


Lemma triple_for_each {A} (I : Store -> Prop) (f : A -> M unit) l :
  (∀ x, x ∈ l → triple I (f x) (fun _ => I) I) →
  triple I (for_each f l) (fun _ => I) I.
Proof.
  induction l as [|x l IH]; intros Hf; simpl.
  - by apply triple_ret.
  - eapply triple_bind; [apply Hf; by left|].
    intros []. apply IH. intros y Hy. apply Hf. by right.
Qed.

(** ** Maps and the heap *)

Lemma JsMap_get_None {V} k (m : list (string * V)) :
  JsMap.get k m = None ↔ k ∉ JsMap.keys m.
Proof.
  induction m as [|[k' v] m IH]; simpl.
  - split; [intros _; apply not_elem_of_nil|done].
  - rewrite not_elem_of_cons. case_decide as Hk.
    + subst. split; [done|]. by intros [? _].
    + rewrite IH. split; [by intros ?; split; [congruence|]|by intros [_ ?]].
Qed.

Lemma JsMap_get_Some {V} k (v : V) (m : list (string * V)) :
  JsMap.get k m = Some v → (k, v) ∈ m.
Proof.
  induction m as [|[k' v'] m IH]; simpl; [done|].
  case_decide; subst.
  - intros [= ->]. by left.
  - intros Hget. right. by apply IH.
Qed.

Lemma JsMap_get_elem {V} k (v : V) (m : list (string * V)) :
  NoDup (JsMap.keys m) → (k, v) ∈ m → JsMap.get k m = Some v.
Proof.
  induction m as [|[k' v'] m IH]; simpl.
  - intros _ Hin. by apply elem_of_nil in Hin.
  - intros [Hk Hnd]%NoDup_cons [[= -> ->]|Hin]%elem_of_cons.
    + by rewrite decide_True.
    + rewrite decide_False; [by apply IH|].
      intros ->. apply Hk. unfold JsMap.keys.
      apply list_elem_of_fmap. by exists (k, v).
Qed.

Lemma JsMap_set_new {V} k (v : V) (m : list (string * V)) :
  JsMap.get k m = None → JsMap.set k v m = (m ++ [(k, v)])%list.
Proof.
  induction m as [|[k' v'] m IH]; simpl; [done|].
  case_decide; [done|]. intros Hget. f_equal. by apply IH.
Qed.

Lemma JsMap_get_set {V} k (v : V) (m : list (string * V)) :
  JsMap.get k (JsMap.set k v m) = Some v.
Proof.
  induction m as [|[k' v'] m IH]; simpl.
  - by rewrite decide_True.
  - case_decide; simpl; [by rewrite decide_True|by rewrite decide_False].
Qed.

Lemma JsMap_get_set_ne {V} k k' (v : V) (m : list (string * V)) :
  k ≠ k' → JsMap.get k' (JsMap.set k v m) = JsMap.get k' m.
Proof.
  intros Hne. induction m as [|[k0 v0] m IH]; simpl.
  - by rewrite decide_False.
  - case_decide; simpl; subst.
    + by rewrite !decide_False.
    + case_decide; [done|apply IH].
Qed.

Lemma heap_update_lookup (r : Ref) f s (r' : Ref) :
  heap (heap_update r f s) !! r' =
    if decide (r = r') then f <$> heap s !! r' else heap s !! r'.
Proof.
  unfold heap_update. simpl. rewrite list_lookup_alter.
  repeat case_decide; subst; done.
Qed.

#[global] Instance heap_grows_preorder : PreOrder heap_grows.
Proof.
  split.
  - intros s r info Hr. by exists info.
  - intros s1 s2 s3 H12 H23 r info Hr.
    destruct (H12 r info Hr) as (info2 & Hr2 & Hp2).
    destruct (H23 r info2 Hr2) as (info3 & Hr3 & Hp3).
    exists info3. split; [done|congruence].
Qed.

Lemma heap_update_grows r f s :
  (∀ info, params (f info) = params info) → heap_grows s (heap_update r f s).
Proof.
  intros Hf r' info Hr. rewrite heap_update_lookup, Hr.
  destruct (decide (r = r')); simpl; by eexists.
Qed.

(** Consistency only looks at the maps and at the [params] of the
    objects. *)
Lemma consistent_transport s s' :
  libraryPath2ExecutionInfo s' = libraryPath2ExecutionInfo s →
  workspaceFolder2ExecutionInfos s' = workspaceFolder2ExecutionInfos s →
  resource2ResourceInfo s' = resource2ResourceInfo s →
  heap_grows s s' →
  consistent s → consistent s'.
Proof.
  intros Hl Hw Hr Hg (Hnd & Hrec & Hfold & Hres).
  unfold consistent, tracked. rewrite Hl, Hw, Hr. split_and!; [done| |done..].
  intros lp r Hin. destruct (Hrec lp r Hin) as (info & Hinfo & Hlp).
  destruct (Hg r info Hinfo) as (info' & Hinfo' & Hp).
  exists info'. split; [done|congruence].
Qed.

#[global] Instance keeps_consistent_preorder : PreOrder keeps_consistent.
Proof.
  split.
  - intros s Hc. exact Hc.
  - intros s1 s2 s3 H12 H23 Hc. apply H23, H12, Hc.
Qed.

Lemma preserves_triple {A} (I : Store -> Prop) (m : M A) :
  preserves (fun s s' => I s → I s') m → triple I m (fun _ => I) I.
Proof.
  intros Hm s Hs. specialize (Hm s).
  destruct (m s) as [[a|e] s']; simpl in *; auto.
Qed.

Lemma heap_update_consistent r f :
  (∀ info, params (f info) = params info) →
  preserves keeps_consistent (modify (heap_update r f)).
Proof.
  intros Hf. apply preserves_modify. intros s. unfold keeps_consistent.
  apply consistent_transport; [done..|by apply heap_update_grows].
Qed.

Lemma clearInfo_consistent h r : preserves keeps_consistent (clearInfo h r).
Proof.
  unfold clearInfo.
  repeat first
    [ apply preserves_bind; [apply _| |intros ?]
    | apply preserves_call, _
    | apply preserves_get, _
    | apply preserves_ret, _
    | by apply heap_update_consistent
    | case_match ].
Qed.

Lemma clearDiagnosticState_consistent h p :
  preserves keeps_consistent (clearDiagnosticState h p).
Proof.
  unfold clearDiagnosticState.
  apply preserves_bind; [apply _|apply preserves_get, _|intros s].
  case_match; [apply clearInfo_consistent|apply preserves_ret, _].
Qed.

Lemma clearAllDiagnosticState_consistent h :
  preserves keeps_consistent (clearAllDiagnosticState h).
Proof.
  unfold clearAllDiagnosticState.
  apply preserves_bind; [apply _|apply preserves_get, _|intros s].
  apply preserves_for_each; [apply _|intros r; apply clearInfo_consistent].
Qed.

Lemma tracked_get s lp (r : Ref) :
  JsMap.get lp (libraryPath2ExecutionInfo s) = Some r → tracked s r.
Proof.
  intros Hget%JsMap_get_Some. unfold tracked, JsMap.values.
  apply list_elem_of_fmap. by exists (lp, r).
Qed.

(** A new object registered under a library that has no record yet. *)
Lemma register_consistent s lp info :
  consistent s →
  JsMap.get lp (libraryPath2ExecutionInfo s) = None →
  libraryPath (params info) = lp →
  let s1 := with_heap (heap s ++ [info]) s in
  let s2 := with_libraryPath2ExecutionInfo
              (JsMap.set lp (length (heap s)) (libraryPath2ExecutionInfo s1)) s1 in
  consistent s2 ∧ tracked s2 (length (heap s)).
Proof.
  intros (Hnd & Hrec & Hfold & Hres) Hnone Hlp s1 s2.
  assert (libraryPath2ExecutionInfo s2
          = (libraryPath2ExecutionInfo s ++ [(lp, length (heap s))])%list) as Hl.
  { subst s2 s1. simpl. by apply JsMap_set_new. }
  assert (∀ r, tracked s r → tracked s2 r) as Htr.
  { intros r Hr. unfold tracked in *. rewrite Hl. unfold JsMap.values in *.
    rewrite fmap_app. apply elem_of_app. by left. }
  split; [|].
  - unfold consistent. rewrite Hl. split_and!.
    + unfold JsMap.keys. rewrite fmap_app. simpl.
      apply NoDup_app. split_and!; [done| |apply NoDup_singleton].
      intros k Hk [->|Hin%elem_of_nil]%elem_of_cons; [|done].
      by apply JsMap_get_None in Hnone.
    + intros lp' r [Hin|[[= -> ->]|Hin%elem_of_nil]%elem_of_cons]%elem_of_app; [| |done].
      * destruct (Hrec lp' r Hin) as (info' & Hinfo' & Hlp').
        exists info'. split; [|done]. subst s2 s1. simpl.
        by apply lookup_app_l_Some.
      * exists info. split; [|done]. subst s2 s1. simpl.
        by rewrite list_lookup_middle.
    + intros folder infos r Hf Hin. apply Htr. by eapply Hfold.
    + intros u ri r Hu Hr. apply Htr. by eapply Hres.
  - unfold tracked. rewrite Hl. unfold JsMap.values. rewrite fmap_app.
    apply elem_of_app. right. by left.
Qed.

Lemma updateExecutionInfo_consistent h p res :
  triple consistent (updateExecutionInfo h p res) (fun _ => consistent) consistent.
Proof.
  intros s Hc. unfold updateExecutionInfo, bind, get_store, call, alloc, modify. simpl.
  destruct (JsMap.get _ _) as [r|] eqn:Hget.
  - revert Hc. apply consistent_transport; [done..|].
    by apply heap_update_grows.
  - destruct (throws h CreateDiagnosticCollection); simpl; [done|].
    by apply (register_consistent s (libraryPath p)).
Qed.

Lemma confirm_record_consistent h p res :
  triple consistent (confirm_record h p res)
    (fun r s => consistent s ∧ tracked s r) consistent.
Proof.
  intros s Hc. unfold confirm_record, bind at 1, get_store.
  destruct (JsMap.get _ _) as [r|] eqn:Hget.
  - unfold bind, modify, ret. simpl. split.
    + revert Hc. apply consistent_transport; [done..|].
      by apply heap_update_grows.
    + by apply (tracked_get s (c_libraryPath p)).
  - unfold bind at 1, call.
    destruct (throws h CreateDiagnosticCollection); simpl; [done|].
    unfold bind at 1, alloc. unfold bind at 1, modify at 1.
    destruct (register_consistent s (c_libraryPath p)
                {| params := as_params p; result := res; editorErrorUri := None;
                   diagnostics := ∅; codeActionProvider := None |} Hc Hget eq_refl)
      as [Hc2 Htr2].
    simpl in Hc2, Htr2. set (s2 := with_libraryPath2ExecutionInfo _ _) in *.
    unfold bind at 1.
    destruct (throws h (GetWorkspaceFolder (c_uri p))); simpl; [done|].
    destruct (workspaceFolderOf h (c_uri p)) as [key|]; simpl; [|done].
    unfold bind, modify, ret. simpl. split; [|done].
    destruct Hc2 as (Hnd & Hrec & Hfold & Hres).
    split_and!; [done..| |done].
    intros folder infos r. simpl.
    destruct (decide (key = folder)) as [->|Hne].
    + rewrite lookup_insert_eq. intros [= <-] [Hin|Hin]%elem_of_app.
      * destruct (workspaceFolder2ExecutionInfos s !! folder) as [l|] eqn:Hl;
          simpl in Hin; [|by apply elem_of_nil in Hin].
        exact (Hfold folder l r Hl Hin).
      * apply list_elem_of_singleton in Hin as ->. exact Htr2.
    + rewrite lookup_insert_ne by done. intros Hl Hin.
      exact (Hfold folder infos r Hl Hin).
Qed.

Lemma consistent_same_maps s s' :
  libraryPath2ExecutionInfo s' = libraryPath2ExecutionInfo s →
  workspaceFolder2ExecutionInfos s' = workspaceFolder2ExecutionInfos s →
  resource2ResourceInfo s' = resource2ResourceInfo s →
  heap s' = heap s →
  consistent s → consistent s'.
Proof.
  intros Hl Hw Hr Hh. apply consistent_transport; [done..|].
  intros r info Hinfo. exists info. by rewrite Hh.
Qed.

(** An assignment that leaves the tracking maps and the heap alone. *)
Ltac frame_consistent :=
  apply triple_modify; intros ? ?;
  match goal with H : consistent _ |- _ => revert H end;
  by apply consistent_same_maps.

(** Sequencing through a step that keeps consistency. *)
Ltac consistent_bind :=
  eapply (triple_bind _ _ _ (fun _ => consistent)); [|intros ?].

Lemma triple_try_catch {A} P (m : M A) handler Q E' E :
  triple P m Q E' → (∀ e, triple E' (handler e) Q E) →
  triple P (try_catch m handler) Q E.
Proof.
  intros Hm Hh s Hs. unfold try_catch. specialize (Hm s Hs).
  destruct (m s) as [[a|e] s1]; [done|by apply Hh].
Qed.

Lemma confirm_resource_consistent p res (r : Ref) :
  triple (fun s => consistent s ∧ tracked s r) (confirm_resource p res r)
    (fun _ => consistent) consistent.
Proof.
  apply triple_modify. intros s [(Hnd & Hrec & Hfold & Hres) Htr].
  assert (∀ ri' : ResourceInfo,
            (executionInfo ri' = Some r
             ∨ ∃ ri, resource2ResourceInfo s !! c_uri p = Some ri
                     ∧ executionInfo ri' = executionInfo ri) →
            consistent (with_resource2ResourceInfo
                          (<[c_uri p := ri']> (resource2ResourceInfo s)) s)) as Hins.
  { intros ri' Hri'. split_and!; [done..|].
    intros u ri0 r0. simpl. destruct (decide (c_uri p = u)) as [<-|Hne].
    - rewrite lookup_insert_eq. intros [= <-] Hr0.
      destruct Hri' as [Hri'|(ri & Hri & Heq)].
      + rewrite Hri' in Hr0. injection Hr0 as <-. exact Htr.
      + rewrite Heq in Hr0. exact (Hres _ _ _ Hri Hr0).
    - rewrite lookup_insert_ne by done. apply Hres. }
  destruct (resource2ResourceInfo s !! c_uri p) as [ri|] eqn:Hri.
  - apply Hins. right. by exists ri.
  - apply Hins. by left.
Qed.

Lemma confirm_try_consistent h p :
  triple consistent (confirm_try h p) (fun _ => consistent) consistent.
Proof.
  unfold confirm_try.
  consistent_bind; [frame_consistent|].
  consistent_bind.
  { apply preserves_triple. unfold confirm_decide.
    change (fun s s' => consistent s → consistent s') with keeps_consistent.
    repeat first
      [ apply clearDiagnosticState_consistent
      | apply preserves_bind; [apply _| |intros ?]
      | apply preserves_get, _
      | apply preserves_ret, _
      | case_match ]. }
  simpl.
  eapply triple_bind; [apply confirm_record_consistent|intros r].
  consistent_bind; [apply confirm_resource_consistent|].
  consistent_bind; [frame_consistent|].
  by apply triple_ret.
Qed.

Lemma confirm_consistent h p :
  triple consistent (confirm h p) (fun _ => consistent) consistent.
Proof.
  unfold confirm. eapply triple_try_catch; [apply confirm_try_consistent|].
  intros e. by apply triple_ret.
Qed.

Lemma run_update_consistent update :
  keeps_consistency update →
  triple consistent (run_update update) (fun _ => consistent) consistent.
Proof.
  intros Hupd. destruct update as [u|]; simpl; [by apply Hupd|by apply triple_ret].
Qed.

Lemma notify_server_consistent client :
  triple consistent (notify_server client) (fun _ => consistent) consistent.
Proof. destruct client; simpl; [frame_consistent|by apply triple_ret]. Qed.

Lemma askForLibraryConfirmation_consistent h client p update item :
  keeps_consistency update →
  triple consistent (askForLibraryConfirmation h client p update item)
    (fun _ => consistent) consistent.
Proof.
  intros Hupd. unfold askForLibraryConfirmation, ask_open.
  consistent_bind.
  { consistent_bind; [frame_consistent|].
    consistent_bind; [by apply triple_call|].
    by apply triple_call. }
  unfold ask_resume.
  destruct item as [value|]; [|by apply triple_ret].
  consistent_bind;
    [|consistent_bind; [by apply run_update_consistent|apply notify_server_consistent]].
  destruct value; simpl.
  - (* deny *)
    consistent_bind; [frame_consistent|].
    consistent_bind; [frame_consistent|].
    consistent_bind; [frame_consistent|].
    consistent_bind; [apply updateExecutionInfo_consistent|].
    apply preserves_triple, clearDiagnosticState_consistent.
  - (* disable *)
    consistent_bind; [frame_consistent|].
    consistent_bind; [apply updateExecutionInfo_consistent|].
    apply preserves_triple, clearDiagnosticState_consistent.
  - (* allow *)
    consistent_bind; [frame_consistent|].
    consistent_bind; [frame_consistent|].
    consistent_bind; [frame_consistent|].
    consistent_bind; [apply updateExecutionInfo_consistent|].
    apply preserves_triple, clearDiagnosticState_consistent.
  - (* alwaysAllow *)
    consistent_bind; [frame_consistent|].
    consistent_bind; [frame_consistent|].
    consistent_bind; [frame_consistent|].
    consistent_bind; [apply updateExecutionInfo_consistent|].
    apply preserves_triple, clearAllDiagnosticState_consistent.
Qed.

Lemma consistent_cleared s :
  libraryPath2ExecutionInfo s = [] →
  workspaceFolder2ExecutionInfos s = ∅ →
  resource2ResourceInfo s = ∅ →
  consistent s.
Proof.
  intros Hl Hw Hr. unfold consistent, tracked. rewrite Hl, Hw, Hr. split_and!.
  - constructor.
  - intros lp r Hin. by apply elem_of_nil in Hin.
  - intros folder infos r Hf. by rewrite lookup_empty in Hf.
  - intros u ri r Hu. by rewrite lookup_empty in Hu.
Qed.

(** The common end of the three reset kinds. *)
Lemma reset_finish_consistent client update s :
  keeps_consistency update →
  consistent
    ((persist_libs ;;;
      persist_alwaysAllow ;;;
      modify (with_disabledLibraries ∅) ;;;
      modify (with_libraryPath2ExecutionInfo []) ;;;
      modify (with_resource2ResourceInfo ∅) ;;;
      modify (with_workspaceFolder2ExecutionInfos ∅) ;;;
      run_update update ;;;
      notify_server client) s).2.
Proof.
  intros Hupd.
  assert (triple consistent (run_update update ;;; notify_server client)
            (fun _ => consistent) consistent) as Hend.
  { consistent_bind; [by apply run_update_consistent|apply notify_server_consistent]. }
  unfold bind at 1, persist_libs, modify at 1.
  unfold bind at 1, persist_alwaysAllow, modify at 1.
  unfold bind at 1, modify at 1. unfold bind at 1, modify at 1.
  unfold bind at 1, modify at 1. unfold bind at 1, modify at 1.
  match goal with |- consistent (_ ?s1).2 =>
    specialize (Hend s1 (consistent_cleared s1 eq_refl eq_refl eq_refl));
    destruct ((run_update update ;;; notify_server client) s1) as [[[]|e] s2] eqn:Heq
  end; simpl in *; done.
Qed.

Lemma resetLibraryConfirmations_consistent h client update selectedIdx item s :
  keeps_consistency update →
  consistent s →
  consistent (resetLibraryConfirmations h client update selectedIdx item s).2.
Proof.
  intros Hupd Hc.
  unfold resetLibraryConfirmations, bind at 1, get_store.
  unfold bind at 1, call. destruct (throws h ShowQuickpick); simpl; [done|].
  destruct (decide (selectedIdx = (-1)%Z)); simpl; [done|].
  destruct (if decide (0 ≤ selectedIdx)%Z then _ else _) as [[]|]; simpl; [| | |done].
  - unfold bind at 1, modify at 1. unfold bind at 1, modify at 1.
    by apply reset_finish_consistent.
  - unfold bind at 1, get_store.
    destruct (decide (JsMap.size (sessionState s) = 1)).
    + destruct (JsMap.values (sessionState s)) as [|param ?]; simpl; [done|].
      pose proof (askForLibraryConfirmation_consistent h client param update item Hupd s Hc)
        as Hask.
      by destruct (askForLibraryConfirmation h client param update item s) as [[[]|?] ?].
    + unfold bind at 1, modify at 1. by apply reset_finish_consistent.
  - unfold bind at 1, modify at 1. by apply reset_finish_consistent.
Qed.

(** ** The gate leaves the decisions alone *)

#[global] Instance same_decisions_preorder : PreOrder same_decisions.
Proof.
  split.
  - intros s. by split.
  - intros s1 s2 s3 (Ht1 & ? & ?) (Ht2 & ? & ?). split_and!; [|congruence..].
    by etrans.
Qed.

Lemma preserves_try_catch {A} R `{!Transitive R} (m : M A) handler :
  preserves R m → (∀ e, preserves R (handler e)) → preserves R (try_catch m handler).
Proof.
  intros Hm Hh s. unfold try_catch. specialize (Hm s).
  destruct (m s) as [[a|e] s1]; simpl in *; [done|].
  etrans; [exact Hm|apply Hh].
Qed.

(** Steps that assign to other fields than the decisions. *)
Ltac decisions_steps :=
  repeat first
    [ apply preserves_bind; [apply _| |intros ?]
    | apply preserves_call, _
    | apply preserves_get, _
    | apply preserves_ret, _
    | apply preserves_throw, _
    | apply preserves_modify; intros []; simpl; repeat case_match; done
    | apply preserves_modify; intros []; done
    | case_match ].

Lemma alloc_decisions i : preserves same_decisions (alloc i).
Proof. intros []. done. Qed.

Lemma clearInfo_decisions h r : preserves same_decisions (clearInfo h r).
Proof. unfold clearInfo. decisions_steps. Qed.

Lemma clearDiagnosticState_decisions h p :
  preserves same_decisions (clearDiagnosticState h p).
Proof.
  unfold clearDiagnosticState.
  apply preserves_bind; [apply _|apply preserves_get, _|intros s].
  case_match; [apply clearInfo_decisions|apply preserves_ret, _].
Qed.

Lemma clearAllDiagnosticState_decisions h :
  preserves same_decisions (clearAllDiagnosticState h).
Proof.
  unfold clearAllDiagnosticState.
  apply preserves_bind; [apply _|apply preserves_get, _|intros s].
  apply preserves_for_each; [apply _|intros r; apply clearInfo_decisions].
Qed.

Lemma updateExecutionInfo_decisions h p res :
  preserves same_decisions (updateExecutionInfo h p res).
Proof.
  unfold updateExecutionInfo.
  apply preserves_bind; [apply _|apply preserves_get, _|intros s].
  case_match.
  - apply preserves_modify. intros []. done.
  - apply preserves_bind; [apply _|apply preserves_call, _|intros _].
    apply preserves_bind; [apply _|apply alloc_decisions|intros r].
    apply preserves_modify. intros []. done.
Qed.

Lemma confirm_decisions h p : preserves same_decisions (confirm h p).
Proof.
  unfold confirm. apply preserves_try_catch; [apply _| |intros e; apply preserves_ret, _].
  unfold confirm_try.
  apply preserves_bind; [apply _| |intros _].
  { apply preserves_modify. intros []. done. }
  apply preserves_bind; [apply _| |intros decided].
  { unfold confirm_decide.
    repeat first
      [ apply clearDiagnosticState_decisions
      | apply preserves_bind; [apply _| |intros ?]
      | apply preserves_get, _
      | apply preserves_ret, _
      | case_match ]. }
  apply preserves_bind; [apply _| |intros r].
  { unfold confirm_record.
    repeat first
      [ apply alloc_decisions
      | apply preserves_bind; [apply _| |intros ?]
      | apply preserves_call, _
      | apply preserves_get, _
      | apply preserves_ret, _
      | apply preserves_modify; intros []; done
      | case_match ]. }
  apply preserves_bind; [apply _| |intros _].
  { unfold confirm_resource. apply preserves_modify. intros []. simpl.
    by case_match. }
  apply preserves_bind; [apply _| |intros _]; [|apply preserves_ret, _].
  apply preserves_modify. intros []. done.
Qed.

(** ** What the gate records *)

Lemma confirm_decide_frame h p s :
  reliable h →
  ∃ d s', confirm_decide h p s = (Normal d, s')
          ∧ default ConfirmExecutionResult.confirmationPending d
            = gate_decision s (c_libraryPath p)
          ∧ same_but_heap s s'
          ∧ (consistent s → consistent s').
Proof.
  intros Hrel.
  destruct (confirm_decide_reliable h p s Hrel) as (d & s' & Hdec & Hd).
  exists d, s'. split_and!; [done..| |].
  - assert (preserves same_but_heap (confirm_decide h p)) as Hp.
    { unfold confirm_decide.
      repeat first
        [ apply clearDiagnosticState_heap
        | apply preserves_bind; [apply _| |intros ?]
        | apply preserves_get, _
        | apply preserves_ret, _
        | case_match ]. }
    specialize (Hp s). by rewrite Hdec in Hp.
  - assert (preserves keeps_consistent (confirm_decide h p)) as Hp.
    { unfold confirm_decide.
      repeat first
        [ apply clearDiagnosticState_consistent
        | apply preserves_bind; [apply _| |intros ?]
        | apply preserves_get, _
        | apply preserves_ret, _
        | case_match ]. }
    specialize (Hp s). by rewrite Hdec in Hp.
Qed.

(** With a host that raises nothing, [confirm_record] returns the record
    of the library, which then holds the decision. *)
Lemma confirm_record_post h p res s :
  reliable h → consistent s →
  ∃ (r : Ref) s' info,
    confirm_record h p res s = (Normal r, s')
    ∧ JsMap.get (c_libraryPath p) (libraryPath2ExecutionInfo s') = Some r
    ∧ heap s' !! r = Some info
    ∧ result info = res
    ∧ resource2ResourceInfo s' = resource2ResourceInfo s.
Proof.
  intros Hrel (Hnd & Hrec & _).
  unfold confirm_record, bind at 1, get_store.
  destruct (JsMap.get _ _) as [r|] eqn:Hget.
  - destruct (Hrec _ _ (JsMap_get_Some _ _ _ Hget)) as (info & Hinfo & _).
    exists r, (heap_update r (with_result res) s), (with_result res info).
    split_and!; [done..| |done|done].
    by rewrite heap_update_lookup, decide_True, Hinfo.
  - unfold bind at 1. rewrite call_reliable by done.
    unfold bind at 1, alloc. unfold bind at 1, modify at 1.
    unfold bind at 1. rewrite call_reliable by done.
    destruct (workspaceFolderOf h (c_uri p)) as [key|];
      (eexists (length (heap s)), _, _; split_and!;
       [ reflexivity
       | simpl; apply JsMap_get_set
       | simpl; by apply list_lookup_middle
       | done
       | done ]).
Qed.

Lemma confirm_post h p s :
  reliable h → consistent s →
  ∃ (r : Ref) s' info ri,
    confirm h p s = (Normal (gate_decision s (c_libraryPath p)), s')
    ∧ JsMap.get (c_libraryPath p) (libraryPath2ExecutionInfo s') = Some r
    ∧ heap s' !! r = Some info
    ∧ result info = gate_decision s (c_libraryPath p)
    ∧ resource2ResourceInfo s' !! c_uri p = Some ri
    ∧ status ri = ConfirmExecutionResult.toStatus (gate_decision s (c_libraryPath p))
    ∧ JsMap.get (c_libraryPath p) (sessionState s') = Some (as_params p).
Proof.
  intros Hrel Hc. unfold confirm, try_catch, confirm_try.
  erewrite bind_normal by reflexivity.
  set (s0 := with_sessionState _ s).
  assert (consistent s0) as Hc0.
  { revert Hc. by apply consistent_same_maps. }
  destruct (confirm_decide_frame h p s0 Hrel) as (d & s1 & Hdec & Hd & Hheap & Hcons).
  erewrite bind_normal by exact Hdec. rewrite Hd.
  change (gate_decision s0 (c_libraryPath p)) with (gate_decision s (c_libraryPath p)).
  destruct (confirm_record_post h p (gate_decision s (c_libraryPath p)) s1 Hrel (Hcons Hc0))
    as (r & s2 & info & Hrec & Hget & Hinfo & Hres & Hresource).
  erewrite bind_normal by exact Hrec.
  unfold bind, confirm_resource, modify, ret. simpl.
  assert (sessionState s2 = sessionState s0) as Hsess.
  { assert (preserves (fun a b => sessionState b = sessionState a) (confirm_record h p
              (gate_decision s (c_libraryPath p)))) as Hp.
    { assert (PreOrder (fun a b : Store => sessionState b = sessionState a)).
      { split; [by intros ?|]. intros ? ? ? ? ?. congruence. }
      unfold confirm_record.
      repeat first
        [ apply preserves_bind; [apply _| |intros ?]
        | apply preserves_call, _
        | apply preserves_get, _
        | apply preserves_ret, _
        | apply preserves_modify; intros []; done
        | by intros []
        | case_match ]. }
    specialize (Hp s1). rewrite Hrec in Hp. simpl in Hp. rewrite Hp.
    rewrite Hheap. done. }
  destruct (resource2ResourceInfo s2 !! c_uri p) as [ri0|] eqn:Hri.
  - eexists r, _, info, _. split_and!; [reflexivity|done..| | |].
    + simpl. apply lookup_insert_eq.
    + done.
    + simpl. rewrite Hsess. subst s0. simpl. apply JsMap_get_set.
  - eexists r, _, info, _. split_and!; [reflexivity|done..| | |].
    + simpl. apply lookup_insert_eq.
    + done.
    + simpl. rewrite Hsess. subst s0. simpl. apply JsMap_get_set.
Qed.

(** ** Records of other libraries *)




(** ** Clearing diagnostics *)

Lemma clearInfo_reliable_eq h (r : Ref) s :
  reliable h → clearInfo h r s = (Normal tt, heap_update r cleared_info s).
Proof.
  intros Hrel. unfold clearInfo, bind at 1. rewrite call_reliable by done.
  unfold bind at 1, modify at 1. unfold bind at 1, get_store.
  rewrite heap_update_lookup, decide_True by done.
  assert (∀ l1 l2, l1 = l2 → with_heap l1 s = with_heap l2 s) as Hwith by (by intros ? ? ->).
  destruct (heap s !! r) as [info|] eqn:Hinfo; simpl.
  - destruct (codeActionProvider info) eqn:Hprov.
    + unfold bind at 1. rewrite call_reliable by done.
      unfold modify, heap_update. simpl. f_equal. apply Hwith.
      rewrite list_alter_alter_eq. apply list_alter_ext; [|done].
      intros i Hi.
      assert (Some i = Some info) as [= ->] by (etrans; [symmetry; exact Hi|exact Hinfo]).
      unfold cleared_info. simpl. by rewrite Hprov.
    + unfold ret, heap_update. f_equal. apply Hwith.
      apply list_alter_ext; [|done].
      intros i Hi.
      assert (Some i = Some info) as [= ->] by (etrans; [symmetry; exact Hi|exact Hinfo]).
      unfold cleared_info, with_diagnostics. by rewrite Hprov.
  - unfold ret, heap_update. f_equal. apply Hwith.
    apply list_alter_ext; [|done]. intros i Hi.
    assert (Some i = None) as [=] by (etrans; [symmetry; exact Hi|exact Hinfo]).
Qed.

Lemma clearAllDiagnosticState_reliable_eq h s :
  reliable h →
  clearAllDiagnosticState h s =
    (Normal tt,
     foldl (fun s r => heap_update r cleared_info s) s
           (JsMap.values (libraryPath2ExecutionInfo s))).
Proof.
  intros Hrel. unfold clearAllDiagnosticState, bind, get_store.
  generalize (JsMap.values (libraryPath2ExecutionInfo s)). intros l.
  revert s. induction l as [|r l IH]; intros s; cbn [for_each foldl]; [done|].
  erewrite bind_normal by (by apply clearInfo_reliable_eq). apply IH.
Qed.

Lemma foldl_cleared_lookup (l : list Ref) s (r : Ref) :
  ∃ f, heap (foldl (fun s r => heap_update r cleared_info s) s l) !! r = f <$> heap s !! r
       ∧ (∀ i, params (f i) = params i ∧ result (f i) = result i
               ∧ editorErrorUri (f i) = editorErrorUri i)
       ∧ (∀ i, diagnostics i = ∅ → diagnostics (f i) = ∅)
       ∧ (r ∈ l → ∀ i, diagnostics (f i) = ∅).
Proof.
  revert s. induction l as [|r0 l IH]; intros s; simpl.
  - exists id. split_and!; [by rewrite option_fmap_id|done..|].
    intros Hin. by apply elem_of_nil in Hin.
  - destruct (IH (heap_update r0 cleared_info s)) as (f & Hf & Hkeep & Hdiag & Hin).
    rewrite heap_update_lookup in Hf.
    destruct (decide (r0 = r)) as [->|Hne].
    + exists (f ∘ cleared_info). split_and!.
      * by rewrite Hf, option_fmap_compose.
      * intros i. simpl. destruct (Hkeep (cleared_info i)) as (-> & -> & ->). done.
      * intros i _. simpl. by apply Hdiag.
      * intros _ i. simpl. by apply Hdiag.
    + exists f. split_and!; [done..|].
      intros [?|Hl]%elem_of_cons; [done|]. by apply Hin.
Qed.

(** ** Properties of the gate beyond its decision *)

(** Consistency of a store written out in full. *)
Ltac concrete_consistent :=
  unfold consistent, tracked; simpl; split_and!;
  [ by apply (bool_decide_unpack _); vm_compute
  | intros lp r Hin;
    repeat (apply elem_of_cons in Hin as [[= -> ->]|Hin];
            [eexists; split; reflexivity|]);
    by apply elem_of_nil in Hin
  | intros folder infos r Hf; by rewrite lookup_empty in Hf
  | intros u ri r Hu Hr;
    first [ by rewrite lookup_empty in Hu
          | apply lookup_singleton_Some in Hu as [<- <-];
            injection Hr as <-; by apply (bool_decide_unpack _); vm_compute ] ].

(** X1: the request handler keeps the tracking maps consistent whatever
    the host does, also when a host call raises and the handler answers
    [denied]: each library has at most one record, the record stored for
    a library carries that library's path, and the workspace-folder index
    and the resource statuses refer to tracked records only. *)
Theorem confirm_keeps_consistent (h : Host) (p : ConfirmExecutionParams) (s : Store) :
  consistent s → consistent (confirm h p s).2.
Proof.
  intros Hc. pose proof (confirm_consistent h p s Hc) as Hpost.
  by destruct (confirm h p s) as [[res|e] s'].
Qed.

Lemma confirm_keeps_consistent_witness :
  consistent (confirm brokenHost confirmB store_one_session_library).2.
Proof.
  apply (confirm_keeps_consistent brokenHost confirmB store_one_session_library).
  concrete_consistent.
Defined.

(** X2: with a host that raises nothing and consistent maps, after
    [confirm] the library has a record that holds the decision just
    returned, the session map holds the request, and the status found for
    the request's document is that decision's status, known directly. *)
Theorem confirm_records_decision (h h' : Host) (p : ConfirmExecutionParams) (s : Store) :
  reliable h → consistent s →
  ∃ res s' (r : Ref) info,
    confirm h p s = (Normal res, s')
    ∧ JsMap.get (c_libraryPath p) (libraryPath2ExecutionInfo s') = Some r
    ∧ heap s' !! r = Some info
    ∧ result info = res
    ∧ JsMap.get (c_libraryPath p) (sessionState s') = Some (as_params p)
    ∧ findApplicableStatus h' (Some (c_uri p)) s'
      = (Normal (ConfirmExecutionResult.toStatus res, true), s').
Proof.
  intros Hrel Hc.
  destruct (confirm_post h p s Hrel Hc)
    as (r & s' & info & ri & Hconf & Hget & Hinfo & Hres & Hri & Hst & Hsess).
  exists (gate_decision s (c_libraryPath p)), s', r, info.
  split_and!; [done..|].
  unfold findApplicableStatus, bind, get_store, ret. simpl.
  by rewrite Hri, Hst.
Qed.

Lemma confirm_records_decision_witness :
  ∃ res s' (r : Ref) info,
    confirm quietHost confirmB store_one_session_library = (Normal res, s')
    ∧ JsMap.get (c_libraryPath confirmB) (libraryPath2ExecutionInfo s') = Some r
    ∧ heap s' !! r = Some info
    ∧ result info = res
    ∧ JsMap.get (c_libraryPath confirmB) (sessionState s') = Some (as_params confirmB)
    ∧ findApplicableStatus brokenHost (Some (c_uri confirmB)) s'
      = (Normal (ConfirmExecutionResult.toStatus res, true), s').
Proof.
  apply (confirm_records_decision quietHost brokenHost confirmB store_one_session_library).
  - intros c. reflexivity.
  - concrete_consistent.
Defined.

(** X3: [confirm] never changes the stored decisions, the always-allow
    flag, the disabled set or what is persisted, so a later [confirm]
    for any library answers as it would have answered before. *)
Theorem confirm_keeps_decisions (h h' : Host) (p p' : ConfirmExecutionParams) (s : Store) :
  same_decisions s (confirm h p s).2
  ∧ (reliable h' → (confirm h' p' (confirm h p s).2).1 = (confirm h' p' s).1).
Proof.
  pose proof (confirm_decisions h p s) as Hd. split; [done|].
  intros Hrel. rewrite !confirm_gate_decision by done.
  destruct Hd as ((Hlibs & Hflag & Hdis) & _).
  unfold gate_decision. by rewrite Hlibs, Hflag, Hdis.
Qed.

Lemma confirm_keeps_decisions_witness :
  same_decisions store_denied_alwaysAllow
    (confirm brokenHost confirmB store_denied_alwaysAllow).2
  ∧ (reliable quietHost →
     (confirm quietHost confirmA
        (confirm brokenHost confirmB store_denied_alwaysAllow).2).1
     = (confirm quietHost confirmA store_denied_alwaysAllow).1).
Proof.
  apply (confirm_keeps_decisions brokenHost quietHost confirmB confirmA
           store_denied_alwaysAllow).
Defined.



(** X5: with a host that raises nothing, [clearAllDiagnosticState]
    returns, changes nothing but the heap, and leaves every tracked
    record without diagnostics and with its params, result and
    [editorErrorUri] as before. *)
Theorem clearAllDiagnosticState_clears (h : Host) (s : Store) :
  reliable h → consistent s →
  ∃ s', clearAllDiagnosticState h s = (Normal tt, s')
        ∧ same_but_heap s s'
        ∧ ∀ r, tracked s r →
            ∃ info info',
              heap s !! r = Some info ∧ heap s' !! r = Some info'
              ∧ diagnostics info' = ∅
              ∧ params info' = params info ∧ result info' = result info
              ∧ editorErrorUri info' = editorErrorUri info.
Proof.
  intros Hrel (Hnd & Hrec & _).
  eexists. split; [by apply clearAllDiagnosticState_reliable_eq|]. split.
  - pose proof (clearAllDiagnosticState_heap h s) as Hp.
    by rewrite clearAllDiagnosticState_reliable_eq in Hp.
  - intros r Hr.
    destruct (foldl_cleared_lookup (JsMap.values (libraryPath2ExecutionInfo s)) s r)
      as (f & Hf & Hkeep & _ & Hin).
    unfold tracked, JsMap.values in Hr.
    apply list_elem_of_fmap in Hr as ([lp r0] & -> & Hlr). simpl in *.
    destruct (Hrec lp r0 Hlr) as (info & Hinfo & _).
    exists info, (f info). rewrite Hf, Hinfo.
    destruct (Hkeep info) as (? & ? & ?). split_and!; [done|done| |done|done|done].
    apply Hin. unfold JsMap.values. apply list_elem_of_fmap. by exists (lp, r0).
Qed.

Lemma clearAllDiagnosticState_clears_witness :
  ∃ s', clearAllDiagnosticState quietHost store_pending_A_alwaysAllow = (Normal tt, s')
        ∧ same_but_heap store_pending_A_alwaysAllow s'
        ∧ ∀ r, tracked store_pending_A_alwaysAllow r →
            ∃ info info',
              heap store_pending_A_alwaysAllow !! r = Some info
              ∧ heap s' !! r = Some info'
              ∧ diagnostics info' = ∅
              ∧ params info' = params info ∧ result info' = result info
              ∧ editorErrorUri info' = editorErrorUri info.
Proof.
  apply (clearAllDiagnosticState_clears quietHost store_pending_A_alwaysAllow).
  - intros c. reflexivity.
  - concrete_consistent.
Defined.

(** ** Answers of the dialog *)

Lemma preserves_triple_from {A} R `{!Transitive R} (x : Store) (m : M A) :
  preserves R m → triple (R x) m (fun _ => R x) (R x).
Proof.
  intros Hm s Hs. specialize (Hm s).
  destruct (m s) as [[a|e] s']; simpl in *; by etrans.
Qed.

Lemma clearDiagnosticState_trust h p : preserves same_trust (clearDiagnosticState h p).
Proof.
  eapply preserves_weaken; [apply same_but_heap_trust|apply clearDiagnosticState_heap].
Qed.

Lemma ask_resume_trust h client p update value s :
  keeps_trust update →
  same_trust (selection_effect value p s)
    (ask_resume h client p update (Some value) s).2.
Proof.
  intros Hupd.
  set (T := same_trust (selection_effect value p s)).
  assert (∀ A (m : M A), preserves same_trust m → triple T m (fun _ => T) T) as Hp.
  { intros A m Hm. by apply preserves_triple_from; [apply _|]. }
  assert (triple (fun s' => s' = s) (ask_resume h client p update (Some value))
            (fun _ => T) T) as Ht.
  { unfold ask_resume.
    eapply (triple_bind _ _ _ (fun _ => T)).
    2:{ intros _. eapply (triple_bind _ _ _ (fun _ => T)).
        - by apply Hp, run_update_trust.
        - intros _. apply Hp, notify_server_trust. }
    destruct value; simpl.
    - eapply (triple_bind _ _ _ (fun _ s' => s' = _));
        [apply triple_modify; by intros ? ->|intros _].
      eapply (triple_bind _ _ _ (fun _ => T));
        [apply triple_modify; intros ? ->; subst T; by split_and!|intros _].
      eapply (triple_bind _ _ _ (fun _ => T));
        [apply Hp, preserves_modify; by intros []|intros _].
      eapply (triple_bind _ _ _ (fun _ => T));
        [apply Hp, updateExecutionInfo_trust|intros _].
      apply Hp, clearDiagnosticState_trust.
    - eapply (triple_bind _ _ _ (fun _ => T));
        [apply triple_modify; intros ? ->; subst T; by split_and!|intros _].
      eapply (triple_bind _ _ _ (fun _ => T));
        [apply Hp, updateExecutionInfo_trust|intros _].
      apply Hp, clearDiagnosticState_trust.
    - eapply (triple_bind _ _ _ (fun _ s' => s' = _));
        [apply triple_modify; by intros ? ->|intros _].
      eapply (triple_bind _ _ _ (fun _ => T));
        [apply triple_modify; intros ? ->; subst T; by split_and!|intros _].
      eapply (triple_bind _ _ _ (fun _ => T));
        [apply Hp, preserves_modify; by intros []|intros _].
      eapply (triple_bind _ _ _ (fun _ => T));
        [apply Hp, updateExecutionInfo_trust|intros _].
      apply Hp, clearDiagnosticState_trust.
    - eapply (triple_bind _ _ _ (fun _ s' => s' = _));
        [apply triple_modify; by intros ? ->|intros _].
      eapply (triple_bind _ _ _ (fun _ => T));
        [apply triple_modify; intros ? ->; subst T; by split_and!|intros _].
      eapply (triple_bind _ _ _ (fun _ => T));
        [apply Hp, preserves_modify; by intros []|intros _].
      eapply (triple_bind _ _ _ (fun _ => T));
        [apply Hp, updateExecutionInfo_trust|intros _].
      apply Hp, clearAllDiagnosticState_trust. }
  specialize (Ht s eq_refl).
  by destruct (ask_resume h client p update (Some value) s) as [[[]|e] s'].
Qed.

Lemma askForLibraryConfirmation_trust h client p update value s :
  throws h (GetWorkspaceFolder (fileUri h (libraryPath p))) = false →
  throws h ShowInformationMessage = false →
  keeps_trust update →
  same_trust (selection_effect value p s)
    (askForLibraryConfirmation h client p update (Some value) s).2.
Proof.
  intros Hfolder Hdialog Hupd.
  unfold askForLibraryConfirmation, ask_open, bind at 1, bind at 1, bind at 1.
  unfold modify at 1. unfold call. rewrite Hfolder, Hdialog. simpl.
  pose proof (ask_resume_trust h client p update value
                (with_sessionState (JsMap.set (libraryPath p) p (sessionState s)) s) Hupd)
    as Ht.
  destruct value; exact Ht.
Qed.



(** X7: after the answer Disable for a library, every later [confirm]
    for it answers [disabled], also when [true] is stored for it or the
    always-allow flag is set; the stored decisions and the flag are left
    as they were. *)
Theorem disable_then_confirm (h : Host) (client : bool) (p : ExecutionParams)
    (update : option (M unit)) (s : Store) :
  throws h (GetWorkspaceFolder (fileUri h (libraryPath p))) = false →
  throws h ShowInformationMessage = false →
  keeps_trust update →
  let s' := (askForLibraryConfirmation h client p update
               (Some ConfirmationSelection.disable) s).2 in
  libraryPath p ∈ disabledLibraries s'
  ∧ eslintExecutionState s' = eslintExecutionState s
  ∧ eslintAlwaysAllowExecutionState s' = eslintAlwaysAllowExecutionState s
  ∧ ∀ h' q, reliable h' → c_libraryPath q = libraryPath p →
      (confirm h' q s').1 = Normal ConfirmExecutionResult.disabled.
Proof.
  intros Hfolder Hdialog Hupd s'.
  destruct (askForLibraryConfirmation_trust h client p update
              ConfirmationSelection.disable s Hfolder Hdialog Hupd)
    as (Hlibs & Hflag & Hdis).
  fold s' in Hlibs, Hflag, Hdis. simpl in Hlibs, Hflag, Hdis.
  assert (libraryPath p ∈ disabledLibraries s') as Hd.
  { rewrite Hdis. apply elem_of_union. left. by apply elem_of_singleton. }
  split_and!; [done..|].
  intros h' q Hrel Hq. rewrite confirm_gate_decision by done.
  unfold gate_decision. by rewrite Hq, decide_True.
Qed.

Lemma disable_then_confirm_witness :
  let s' := (askForLibraryConfirmation quietHost true (as_params confirmA) None
               (Some ConfirmationSelection.disable) store_denied_alwaysAllow).2 in
  libraryPath (as_params confirmA) ∈ disabledLibraries s'
  ∧ eslintExecutionState s' = eslintExecutionState store_denied_alwaysAllow
  ∧ eslintAlwaysAllowExecutionState s'
    = eslintAlwaysAllowExecutionState store_denied_alwaysAllow
  ∧ ∀ h' q, reliable h' → c_libraryPath q = libraryPath (as_params confirmA) →
      (confirm h' q s').1 = Normal ConfirmExecutionResult.disabled.
Proof.
  apply (disable_then_confirm quietHost true (as_params confirmA) None
           store_denied_alwaysAllow).
  - reflexivity.
  - reflexivity.
  - intros u Hu. discriminate Hu.
Defined.

(** X8: the answers Allow, Deny and Disable for one library change the
    gate's answer for no other library. *)
Theorem answer_leaves_other_libraries (h h' : Host) (client : bool) (p : ExecutionParams)
    (update : option (M unit)) (value : ConfirmationSelection.t)
    (q : ConfirmExecutionParams) (s : Store) :
  throws h (GetWorkspaceFolder (fileUri h (libraryPath p))) = false →
  throws h ShowInformationMessage = false →
  keeps_trust update →
  value ≠ ConfirmationSelection.alwaysAllow →
  c_libraryPath q ≠ libraryPath p →
  reliable h' →
  (confirm h' q (askForLibraryConfirmation h client p update (Some value) s).2).1
    = (confirm h' q s).1.
Proof.
  intros Hfolder Hdialog Hupd Hvalue Hq Hrel.
  destruct (askForLibraryConfirmation_trust h client p update value s Hfolder Hdialog Hupd)
    as (Hlibs & Hflag & Hdis).
  rewrite !confirm_gate_decision by done. unfold gate_decision.
  rewrite Hlibs, Hflag, Hdis.
  assert (∀ X : gset string, c_libraryPath q ∈ X ∖ {[libraryPath p]} ↔ c_libraryPath q ∈ X)
    as Hdiff.
  { intros X. rewrite elem_of_difference, elem_of_singleton.
    split; [by intros [? _]|by intros ?; split]. }
  assert (∀ X : gset string, c_libraryPath q ∈ {[libraryPath p]} ∪ X ↔ c_libraryPath q ∈ X)
    as Hun.
  { intros X. rewrite elem_of_union, elem_of_singleton.
    split; [by intros [?|?]|by right]. }
  destruct value; simpl; [| | |done].
  - rewrite lookup_insert_ne by done.
    destruct (decide (c_libraryPath q ∈ disabledLibraries s)) as [Hin|Hin].
    + by rewrite decide_True by by apply Hdiff.
    + by rewrite decide_False by by rewrite Hdiff.
  - destruct (decide (c_libraryPath q ∈ disabledLibraries s)) as [Hin|Hin].
    + by rewrite decide_True by by apply Hun.
    + by rewrite decide_False by by rewrite Hun.
  - rewrite lookup_insert_ne by done.
    destruct (decide (c_libraryPath q ∈ disabledLibraries s)) as [Hin|Hin].
    + by rewrite decide_True by by apply Hdiff.
    + by rewrite decide_False by by rewrite Hdiff.
Qed.

Lemma answer_leaves_other_libraries_witness :
  (confirm quietHost confirmB
     (askForLibraryConfirmation quietHost true (as_params confirmA) None
        (Some ConfirmationSelection.deny) store_disabled).2).1
    = (confirm quietHost confirmB store_disabled).1.
Proof.
  apply (answer_leaves_other_libraries quietHost quietHost true (as_params confirmA) None
           ConfirmationSelection.deny confirmB store_disabled).
  - reflexivity.
  - reflexivity.
  - intros u Hu. discriminate Hu.
  - discriminate.
  - vm_compute. discriminate.
  - intros c. reflexivity.
Defined.

(** ** Persistence *)

Lemma same_decisions_persisted s s' : same_decisions s s' → persisted s → persisted s'.
Proof.
  intros ((Hlibs & Hflag & _) & Hgl & Hga) [Hl Ha]. unfold persisted.
  by rewrite Hlibs, Hflag, Hgl, Hga.
Qed.

Lemma decisions_triple {A} (m : M A) :
  preserves same_decisions m → triple persisted m (fun _ => persisted) persisted.
Proof.
  intros Hm s Hs. specialize (Hm s).
  destruct (m s) as [[a|e] s']; simpl in *; by eapply same_decisions_persisted.
Qed.

Lemma run_update_decisions update :
  keeps_decisions update → preserves same_decisions (run_update update).
Proof.
  intros H. destruct update as [u|]; simpl; [by apply H|apply preserves_ret, _].
Qed.

Lemma notify_server_decisions client : preserves same_decisions (notify_server client).
Proof.
  destruct client; simpl; [|apply preserves_ret, _].
  apply preserves_modify. intros []. done.
Qed.

Lemma askForLibraryConfirmation_persisted h client p update item :
  keeps_decisions update →
  triple persisted (askForLibraryConfirmation h client p update item)
    (fun _ => persisted) persisted.
Proof.
  intros Hupd.
  set (flag_persisted := fun s : Store =>
         eslintAlwaysAllowExecutionState s = default false (globalState_alwaysAllow s)).
  set (libs_persisted := fun s : Store =>
         eslintExecutionState s = default ∅ (globalState_libs s)).
  unfold askForLibraryConfirmation, ask_open.
  eapply (triple_bind _ _ _ (fun _ => persisted)).
  { eapply (triple_bind _ _ _ (fun _ => persisted));
      [apply triple_modify; intros s0 Hs0; exact Hs0|].
    intros _. eapply (triple_bind _ _ _ (fun _ => persisted)); [by apply triple_call|].
    intros _. by apply triple_call. }
  intros _. unfold ask_resume.
  destruct item as [value|]; [|by apply triple_ret].
  eapply (triple_bind _ _ _ (fun _ => persisted)).
  2:{ intros _. eapply (triple_bind _ _ _ (fun _ => persisted)).
      - by apply decisions_triple, run_update_decisions.
      - intros _. apply decisions_triple, notify_server_decisions. }
  assert (triple persisted
            (updateExecutionInfo h p ConfirmExecutionResult.approved ;;;
             clearAllDiagnosticState h) (fun _ => persisted) persisted) as Hall.
  { eapply (triple_bind _ _ _ (fun _ => persisted));
      [apply decisions_triple, updateExecutionInfo_decisions|].
    intros _. apply decisions_triple, clearAllDiagnosticState_decisions. }
  assert (∀ res, triple persisted
            (updateExecutionInfo h p res ;;; clearDiagnosticState h p)
            (fun _ => persisted) persisted) as Hone.
  { intros res. eapply (triple_bind _ _ _ (fun _ => persisted));
      [apply decisions_triple, updateExecutionInfo_decisions|].
    intros _. apply decisions_triple, clearDiagnosticState_decisions. }
  destruct value; simpl.
  - eapply (triple_bind _ _ _ (fun _ => persisted));
      [apply triple_modify; intros s0 Hs0; exact Hs0|]. intros _.
    eapply (triple_bind _ _ _ (fun _ => flag_persisted));
      [apply triple_modify; by intros s0 [_ Hs0]|]. intros _.
    eapply (triple_bind _ _ _ (fun _ => persisted));
      [apply triple_modify; intros s0 Hs0; by split|]. intros _.
    apply Hone.
  - eapply (triple_bind _ _ _ (fun _ => persisted));
      [apply triple_modify; intros s0 Hs0; exact Hs0|]. intros _.
    apply Hone.
  - eapply (triple_bind _ _ _ (fun _ => persisted));
      [apply triple_modify; intros s0 Hs0; exact Hs0|]. intros _.
    eapply (triple_bind _ _ _ (fun _ => flag_persisted));
      [apply triple_modify; by intros s0 [_ Hs0]|]. intros _.
    eapply (triple_bind _ _ _ (fun _ => persisted));
      [apply triple_modify; intros s0 Hs0; by split|]. intros _.
    apply Hone.
  - eapply (triple_bind _ _ _ (fun _ => persisted));
      [apply triple_modify; intros s0 Hs0; exact Hs0|]. intros _.
    eapply (triple_bind _ _ _ (fun _ => libs_persisted));
      [apply triple_modify; by intros s0 [Hs0 _]|]. intros _.
    eapply (triple_bind _ _ _ (fun _ => persisted));
      [apply triple_modify; intros s0 Hs0; by split|]. intros _.
    apply Hall.
Qed.

(** ** Reset *)

Lemma reset_finish_eq client update s :
  (persist_libs ;;;
   persist_alwaysAllow ;;;
   modify (with_disabledLibraries ∅) ;;;
   modify (with_libraryPath2ExecutionInfo []) ;;;
   modify (with_resource2ResourceInfo ∅) ;;;
   modify (with_workspaceFolder2ExecutionInfos ∅) ;;;
   run_update update ;;;
   notify_server client) s
  = (run_update update ;;; notify_server client) (reset_cleared s).
Proof. reflexivity. Qed.

(** The trust store a reset of the given kind builds before its end. *)
Lemma reset_reaches_finish h client update (idx : nat) item kind s :
  throws h ShowQuickpick = false →
  reset_items s !! idx = Some kind →
  (kind = kind_session → JsMap.size (sessionState s) ≠ 1) →
  resetLibraryConfirmations h client update (Z.of_nat idx) item s
  = (run_update update ;;; notify_server client)
      (reset_cleared
         (with_eslintAlwaysAllowExecutionState (reset_trust kind s).2
            (with_eslintExecutionState (reset_trust kind s).1 s))).
Proof.
  intros Hcall Hidx Hone.
  unfold resetLibraryConfirmations, bind at 1, get_store.
  unfold bind at 1. unfold call. rewrite Hcall. simpl.
  destruct (decide (Z.of_nat idx = (-1)%Z)) as [?|_]; [lia|].
  destruct (decide (0 ≤ Z.of_nat idx)%Z) as [_|?]; [|lia].
  rewrite Nat2Z.id, Hidx.
  destruct kind.
  - unfold bind at 1, modify at 1. unfold bind at 1, modify at 1.
    rewrite reset_finish_eq. by destruct s.
  - unfold bind at 1, get_store.
    destruct (decide (JsMap.size (sessionState s) = 1)) as [Hsz|_];
      [by apply Hone in Hsz|].
    unfold bind at 1, modify at 1. rewrite reset_finish_eq. by destruct s.
  - unfold bind at 1, modify at 1. rewrite reset_finish_eq. by destruct s.
Qed.

Lemma reset_end_trust client update s :
  keeps_trust update →
  same_trust s ((run_update update ;;; notify_server client) s).2.
Proof.
  intros Hupd.
  assert (preserves same_trust (run_update update ;;; notify_server client)) as Hp.
  { apply preserves_bind; [apply _|by apply run_update_trust|intros _].
    apply notify_server_trust. }
  apply Hp.
Qed.

Lemma foldl_delete_lookup (keys : list string) (m : gmap string bool) (k : string) :
  foldl (fun libs lib => delete lib libs) m keys !! k
  = if decide (k ∈ keys) then None else m !! k.
Proof.
  revert m. induction keys as [|k0 keys IH]; intros m; cbn [foldl].
  - rewrite decide_False; [done|apply not_elem_of_nil].
  - rewrite IH.
    destruct (decide (k ∈ keys)) as [Hin|Hnin];
      destruct (decide (k ∈ k0 :: keys)) as [Hin'|Hnin']; try done.
    + exfalso. apply Hnin'. by right.
    + apply elem_of_cons in Hin' as [->|?]; [|done]. apply lookup_delete_eq.
    + apply lookup_delete_ne. intros ->. apply Hnin'. by left.
Qed.

Lemma JsMap_has_keys {V} k (m : list (string * V)) :
  JsMap.has k m = true ↔ k ∈ JsMap.keys m.
Proof.
  unfold JsMap.has. destruct (JsMap.get k m) eqn:Hget.
  - split; [intros _|done].
    destruct (decide (k ∈ JsMap.keys m)) as [|Hn]; [done|].
    apply JsMap_get_None in Hn. congruence.
  - split; [done|]. intros Hin. by apply JsMap_get_None in Hget.
Qed.

Lemma reset_end_persisted client update s :
  keeps_decisions update →
  persisted s → persisted ((run_update update ;;; notify_server client) s).2.
Proof.
  intros Hupd Hs.
  assert (preserves same_decisions (run_update update ;;; notify_server client)) as Hp.
  { apply preserves_bind; [apply _|by apply run_update_decisions|intros _].
    apply notify_server_decisions. }
  eapply same_decisions_persisted; [apply Hp|done].
Qed.

Lemma resetLibraryConfirmations_persisted h client update selectedIdx item s :
  keeps_decisions update →
  persisted s →
  persisted (resetLibraryConfirmations h client update selectedIdx item s).2.
Proof.
  intros Hupd Hs.
  unfold resetLibraryConfirmations, bind at 1, get_store.
  unfold bind at 1, call. destruct (throws h ShowQuickpick); simpl; [done|].
  destruct (decide (selectedIdx = (-1)%Z)); simpl; [done|].
  destruct (if decide (0 ≤ selectedIdx)%Z then _ else _) as [[]|]; simpl; [| | |done].
  - unfold bind at 1, modify at 1. unfold bind at 1, modify at 1.
    rewrite reset_finish_eq. by apply reset_end_persisted.
  - unfold bind at 1, get_store.
    destruct (decide (JsMap.size (sessionState s) = 1)).
    + destruct (JsMap.values (sessionState s)) as [|param ?]; simpl; [done|].
      pose proof (askForLibraryConfirmation_persisted h client param update item Hupd s Hs)
        as Hask.
      by destruct (askForLibraryConfirmation h client param update item s) as [[[]|?] ?].
    + unfold bind at 1, modify at 1. rewrite reset_finish_eq.
      by apply reset_end_persisted.
  - unfold bind at 1, modify at 1. rewrite reset_finish_eq.
    by apply reset_end_persisted.
Qed.

(** ** Properties of the dialog and of the reset *)

(** X9: the dialog keeps the tracking maps consistent for every answer,
    for a dismissed dialog and for a host that raises at any point,
    provided the status callback keeps them consistent. *)
Theorem askForLibraryConfirmation_keeps_consistent (h : Host) (client : bool)
    (p : ExecutionParams) (update : option (M unit))
    (item : option ConfirmationSelection.t) (s : Store) :
  keeps_consistency update →
  consistent s →
  consistent (askForLibraryConfirmation h client p update item s).2.
Proof.
  intros Hupd Hc.
  pose proof (askForLibraryConfirmation_consistent h client p update item Hupd s Hc)
    as Hpost.
  by destruct (askForLibraryConfirmation h client p update item s) as [[[]|e] s'].
Qed.

Lemma askForLibraryConfirmation_keeps_consistent_witness :
  consistent
    (askForLibraryConfirmation brokenHost true (as_params confirmB) None
       (Some ConfirmationSelection.allow) store_one_session_library).2.
Proof.
  apply (askForLibraryConfirmation_keeps_consistent brokenHost true (as_params confirmB)
           None (Some ConfirmationSelection.allow) store_one_session_library).
  - intros u Hu. discriminate Hu.
  - concrete_consistent.
Defined.

(** X10: the reset keeps the tracking maps consistent for every kind,
    every answer of the quick pick and every host, provided the status
    callback keeps them consistent. *)
Theorem resetLibraryConfirmations_keeps_consistent (h : Host) (client : bool)
    (update : option (M unit)) (selectedIdx : Z)
    (item : option ConfirmationSelection.t) (s : Store) :
  keeps_consistency update →
  consistent s →
  consistent (resetLibraryConfirmations h client update selectedIdx item s).2.
Proof. apply resetLibraryConfirmations_consistent. Qed.

Lemma resetLibraryConfirmations_keeps_consistent_witness :
  consistent
    (resetLibraryConfirmations quietHost true None 0
       (Some ConfirmationSelection.deny) store_one_session_library).2.
Proof.
  apply (resetLibraryConfirmations_keeps_consistent quietHost true None 0
           (Some ConfirmationSelection.deny) store_one_session_library).
  - intros u Hu. discriminate Hu.
  - concrete_consistent.
Defined.

(** X11: when the decisions in memory are the ones persisted, they still
    are after [confirm], after the dialog and after a reset, whatever
    the host does and whichever way the operation ends: a restart loads
    what the session had. *)
Theorem decisions_stay_persisted (h : Host) (client : bool) (update : option (M unit))
    (q : ConfirmExecutionParams) (p : ExecutionParams)
    (item : option ConfirmationSelection.t) (selectedIdx : Z) (s : Store) :
  keeps_decisions update →
  persisted s →
  persisted (confirm h q s).2
  ∧ persisted (askForLibraryConfirmation h client p update item s).2
  ∧ persisted (resetLibraryConfirmations h client update selectedIdx item s).2.
Proof.
  intros Hupd Hs. split_and!.
  - eapply same_decisions_persisted; [apply confirm_decisions|done].
  - pose proof (askForLibraryConfirmation_persisted h client p update item Hupd s Hs)
      as Hpost.
    by destruct (askForLibraryConfirmation h client p update item s) as [[[]|e] s'].
  - by apply resetLibraryConfirmations_persisted.
Qed.

Lemma decisions_stay_persisted_witness :
  persisted (confirm quietHost confirmA initialStore).2
  ∧ persisted (askForLibraryConfirmation quietHost true (as_params confirmA) None
                 (Some ConfirmationSelection.alwaysAllow) initialStore).2
  ∧ persisted (resetLibraryConfirmations quietHost true None 1
                 (Some ConfirmationSelection.alwaysAllow) initialStore).2.
Proof.
  apply (decisions_stay_persisted quietHost true None confirmA (as_params confirmA)
           (Some ConfirmationSelection.alwaysAllow) 1 initialStore).
  - intros u Hu. discriminate Hu.
  - split; reflexivity.
Defined.

(** X12: the reset changes nothing when the quick pick raises, is
    dismissed or answers an index outside the list: it ends with the
    host's exception, normally, or in a [TypeError], in the store it
    started from. *)
Theorem resetLibraryConfirmations_nothing_picked (h : Host) (client : bool)
    (update : option (M unit)) (selectedIdx : Z)
    (item : option ConfirmationSelection.t) (s : Store) :
  (throws h ShowQuickpick = true ∨ selectedIdx = (-1)%Z
   ∨ (selectedIdx < -1)%Z ∨ (Z.of_nat (length (reset_items s)) ≤ selectedIdx)%Z) →
  resetLibraryConfirmations h client update selectedIdx item s
  = (if throws h ShowQuickpick then Thrown (HostFailure ShowQuickpick)
     else if decide (selectedIdx = (-1)%Z) then Normal tt
     else Thrown TypeError, s).
Proof.
  intros Hcase.
  unfold resetLibraryConfirmations, bind at 1, get_store.
  unfold bind at 1, call.
  destruct (throws h ShowQuickpick); simpl; [done|].
  destruct (decide (selectedIdx = (-1)%Z)) as [->|Hne]; simpl; [done|].
  destruct (decide (0 ≤ selectedIdx)%Z) as [Hpos|Hneg]; [|done].
  destruct Hcase as [?|[?|[?|Hbig]]]; [done|done|lia|].
  by rewrite lookup_ge_None_2 by lia.
Qed.

Lemma resetLibraryConfirmations_nothing_picked_witness :
  resetLibraryConfirmations quietHost true None 2 None store_one_session_library
  = (if throws quietHost ShowQuickpick then Thrown (HostFailure ShowQuickpick)
     else if decide (2 = -1)%Z then Normal tt
     else Thrown TypeError, store_one_session_library).
Proof.
  apply (resetLibraryConfirmations_nothing_picked quietHost true None 2 None
           store_one_session_library).
  right. right. right. vm_compute. discriminate.
Defined.

(** X13: a session reset with zero or several libraries touched this
    session forgets the stored decision of exactly the touched libraries:
    afterwards a library of the session map has no stored decision, every
    other library has the one it had, the always-allow flag is as before
    and nothing is disabled. *)
Theorem reset_session_forgets_touched (h : Host) (client : bool)
    (update : option (M unit)) (idx : nat) (item : option ConfirmationSelection.t)
    (s : Store) :
  throws h ShowQuickpick = false →
  reset_items s !! idx = Some kind_session →
  JsMap.size (sessionState s) ≠ 1 →
  keeps_trust update →
  let s' := (resetLibraryConfirmations h client update (Z.of_nat idx) item s).2 in
  (∀ lp, eslintExecutionState s' !! lp =
         if JsMap.has lp (sessionState s) then None else eslintExecutionState s !! lp)
  ∧ eslintAlwaysAllowExecutionState s' = eslintAlwaysAllowExecutionState s
  ∧ disabledLibraries s' = ∅.
Proof.
  intros Hcall Hidx Hsize Hupd s'. subst s'.
  rewrite (reset_reaches_finish h client update idx item kind_session s) by done.
  destruct (reset_end_trust client update
              (reset_cleared
                 (with_eslintAlwaysAllowExecutionState (reset_trust kind_session s).2
                    (with_eslintExecutionState (reset_trust kind_session s).1 s))) Hupd)
    as (Hlibs & Hflag & Hdis).
  split_and!; [|done..].
  intros lp. rewrite Hlibs. simpl. rewrite foldl_delete_lookup.
  destruct (JsMap.has lp (sessionState s)) eqn:Hhas.
  - apply JsMap_has_keys in Hhas. by rewrite decide_True.
  - rewrite decide_False; [done|]. intros Hin%JsMap_has_keys. congruence.
Qed.

Lemma reset_session_forgets_touched_witness :
  let s' := (resetLibraryConfirmations quietHost true None (Z.of_nat 0) None
               store_two_session_libraries).2 in
  (∀ lp, eslintExecutionState s' !! lp =
         if JsMap.has lp (sessionState store_two_session_libraries) then None
         else eslintExecutionState store_two_session_libraries !! lp)
  ∧ eslintAlwaysAllowExecutionState s'
    = eslintAlwaysAllowExecutionState store_two_session_libraries
  ∧ disabledLibraries s' = ∅.
Proof.
  apply (reset_session_forgets_touched quietHost true None 0 None
           store_two_session_libraries).
  - reflexivity.
  - reflexivity.
  - vm_compute. discriminate.
  - intros u Hu. discriminate Hu.
Defined.

(** X14: after a reset of kind [all], every library is pending again:
    [confirm] answers [confirmationPending] for any request. *)
Theorem reset_all_then_confirm (h h' : Host) (client : bool) (update : option (M unit))
    (idx : nat) (item : option ConfirmationSelection.t) (q : ConfirmExecutionParams)
    (s : Store) :
  throws h ShowQuickpick = false →
  reset_items s !! idx = Some kind_all →
  keeps_trust update →
  reliable h' →
  (confirm h' q (resetLibraryConfirmations h client update (Z.of_nat idx) item s).2).1
    = Normal ConfirmExecutionResult.confirmationPending.
Proof.
  intros Hcall Hidx Hupd Hrel.
  rewrite (reset_reaches_finish h client update idx item kind_all s) by done.
  destruct (reset_end_trust client update
              (reset_cleared
                 (with_eslintAlwaysAllowExecutionState (reset_trust kind_all s).2
                    (with_eslintExecutionState (reset_trust kind_all s).1 s))) Hupd)
    as (Hlibs & Hflag & Hdis).
  rewrite confirm_gate_decision by done. unfold gate_decision.
  rewrite Hlibs, Hflag, Hdis. simpl.
  rewrite decide_False by apply not_elem_of_empty.
  by rewrite lookup_empty.
Qed.

Lemma reset_all_then_confirm_witness :
  (confirm quietHost confirmA
     (resetLibraryConfirmations quietHost true None (Z.of_nat 2) None
        store_denied_alwaysAllow).2).1
    = Normal ConfirmExecutionResult.confirmationPending.
Proof.
  apply (reset_all_then_confirm quietHost quietHost true None 2 None confirmA
           store_denied_alwaysAllow).
  - reflexivity.
  - reflexivity.
  - intros u Hu. discriminate Hu.
  - intros c. reflexivity.
Defined.

(** ** The reduction in closed form *)

Lemma default_last_cons {A} (a x : A) (l : list A) :
  default a (last (x :: l)) = default x (last l).
Proof.
  revert a x. induction l as [|y l IH]; intros a x; [done|].
  change (last (x :: y :: l)) with (last (y :: l)). by rewrite !IH.
Qed.

Lemma for_of_scan_body_closed running rest :
  for_of scan_body (Some running) rest =
    Some (if decide (ConfirmExecutionResult.confirmationPending ∈ rest)
          then ConfirmExecutionResult.confirmationPending
          else default running
                 (last (filter (fun r => r = ConfirmExecutionResult.denied
                                         ∨ r = ConfirmExecutionResult.disabled) rest))).
Proof.
  revert running. induction rest as [|r rest IH]; intros running.
  - cbn [for_of]. rewrite decide_False; [done|apply not_elem_of_nil].
  - destruct r; cbn [for_of scan_body].
    + (* denied *)
      rewrite decide_False by done. rewrite decide_True by by left.
      rewrite IH. f_equal.
      rewrite filter_cons_True by by left. rewrite default_last_cons.
      destruct (decide (_ ∈ rest)) as [Hin|Hnin].
      * rewrite decide_True; [done|by right].
      * rewrite decide_False; [done|]. by intros [?|?]%elem_of_cons.
    + (* pending *)
      rewrite decide_True by done. by rewrite (decide_True (P:=_ ∈ _ :: rest)) by by left.
    + (* disabled *)
      rewrite decide_False by done. rewrite decide_True by by right.
      rewrite IH. f_equal.
      rewrite filter_cons_True by by right. rewrite default_last_cons.
      destruct (decide (_ ∈ rest)) as [Hin|Hnin].
      * rewrite decide_True; [done|by right].
      * rewrite decide_False; [done|]. by intros [?|?]%elem_of_cons.
    + (* approved *)
      rewrite decide_False by done. rewrite decide_False by by intros [?|?].
      rewrite IH. f_equal.
      rewrite filter_cons_False by by intros [?|?].
      destruct (decide (_ ∈ rest)) as [Hin|Hnin].
      * rewrite decide_True; [done|by right].
      * rewrite decide_False; [done|]. by intros [?|?]%elem_of_cons.
Qed.

(** X15: the loop of [findApplicableStatus] in closed form.  Over a
    non-empty list of records the result is pending when a record after
    the first is pending; otherwise it is the last denied or disabled
    record after the first; otherwise the first record.  So a pending
    first record is overridden by a later denied or disabled one. *)
Theorem scan_closed_form (first : ConfirmExecutionResult.t)
    (rest : list ConfirmExecutionResult.t) :
  for_of scan_body None [] = None
  ∧ for_of scan_body None (first :: rest) =
      Some (if decide (ConfirmExecutionResult.confirmationPending ∈ rest)
            then ConfirmExecutionResult.confirmationPending
            else default first
                   (last (filter (fun r => r = ConfirmExecutionResult.denied
                                           ∨ r = ConfirmExecutionResult.disabled) rest))).
Proof. split; [done|]. apply for_of_scan_body_closed. Qed.

Example scan_pending_first_overridden :
  for_of scan_body None
    [ConfirmExecutionResult.confirmationPending; ConfirmExecutionResult.denied;
     ConfirmExecutionResult.approved]
  = Some ConfirmExecutionResult.denied.
Proof. reflexivity. Qed.

(** ** [CodeActionsOnSave] *)

Lemma indexOf_absent x entries :
  x ∉ entries → CodeActionsOnSave.indexOf x entries = (-1)%Z.
Proof.
  induction entries as [|y entries IH]; simpl; [done|].
  intros [Hne Hnin]%not_elem_of_cons.
  rewrite decide_False by done. rewrite IH by done. by rewrite decide_True.
Qed.

Lemma indexOf_first x before after :
  x ∉ before →
  CodeActionsOnSave.indexOf x (before ++ x :: after)%list = Z.of_nat (length before).
Proof.
  induction before as [|y before IH]; simpl.
  - intros _. by rewrite decide_True.
  - intros [Hne Hnin]%not_elem_of_cons.
    rewrite decide_False by done. rewrite IH by done.
    rewrite decide_False by lia. lia.
Qed.

(** A list either lacks [x] or splits at the first [x]. *)
Lemma first_occurrence (x : string) (entries : list string) :
  x ∉ entries
  ∨ ∃ before after, entries = (before ++ x :: after)%list ∧ x ∉ before.
Proof.
  induction entries as [|y entries IH]; [left; apply not_elem_of_nil|].
  destruct (decide (y = x)) as [->|Hne].
  - right. exists [], entries. split; [done|apply not_elem_of_nil].
  - destruct IH as [Hnin|(before & after & -> & Hnin)].
    + left. apply not_elem_of_cons. by split.
    + right. exists (y :: before), after. split; [done|].
      apply not_elem_of_cons. by split.
Qed.

Lemma delete_first_occurrence (x : string) (before after : list string) :
  delete (length before) (before ++ x :: after)%list = (before ++ after)%list.
Proof. induction before as [|y before IH]; simpl; [done|]. by rewrite IH. Qed.

Lemma count_absent (x : string) (entries : list string) :
  x ∉ entries → filter (fun e => e = x) entries = [].
Proof.
  induction entries as [|y entries IH]; [done|].
  intros [Hne Hnin]%not_elem_of_cons.
  rewrite filter_cons_False by done. by apply IH.
Qed.

Lemma count_present (x : string) (entries : list string) :
  x ∈ entries → (1 ≤ length (filter (fun e => e = x) entries))%nat.
Proof.
  induction entries as [|y entries IH]; [by intros ?%elem_of_nil|].
  intros [->|Hin]%elem_of_cons.
  - rewrite filter_cons_True by done. simpl. lia.
  - destruct (decide (y = x)) as [->|Hne].
    + rewrite filter_cons_True by done. simpl. lia.
    + rewrite filter_cons_False by done. by apply IH.
Qed.

(** The array after [setSourceFixAllESLint] with a value other than
    [true]: the first occurrence is spliced out. *)
Lemma setSourceFixAllESLint_remove entries value :
  value ≠ Some true →
  (("source.fixAll.eslint" ∉ entries)
   ∧ CodeActionsOnSave.setSourceFixAllESLint (CodeActionsOnSave.array entries) value
     = CodeActionsOnSave.array entries)
  ∨ ∃ before after,
      entries = (before ++ "source.fixAll.eslint" :: after)%list
      ∧ ("source.fixAll.eslint" ∉ before)
      ∧ CodeActionsOnSave.setSourceFixAllESLint (CodeActionsOnSave.array entries) value
        = CodeActionsOnSave.array (before ++ after)%list.
Proof.
  intros Hvalue. unfold CodeActionsOnSave.setSourceFixAllESLint.
  rewrite decide_False by done.
  destruct (first_occurrence "source.fixAll.eslint" entries)
    as [Hnin|(before & after & -> & Hnin)].
  - left. split; [done|]. rewrite indexOf_absent by done. by rewrite decide_False by lia.
  - right. exists before, after. split_and!; [done..|].
    rewrite indexOf_first by done. rewrite decide_True by lia.
    by rewrite Nat2Z.id, delete_first_occurrence.
Qed.

Lemma setSourceFixAllESLint_add entries :
  CodeActionsOnSave.setSourceFixAllESLint (CodeActionsOnSave.array entries) (Some true)
  = CodeActionsOnSave.array
      (if decide ("source.fixAll.eslint" ∈ entries) then entries
       else (entries ++ ["source.fixAll.eslint"])%list).
Proof.
  unfold CodeActionsOnSave.setSourceFixAllESLint. rewrite decide_True by done.
  destruct (first_occurrence "source.fixAll.eslint" entries)
    as [Hnin|(before & after & -> & Hnin)].
  - rewrite indexOf_absent by done. rewrite decide_True by done.
    by rewrite decide_False.
  - rewrite indexOf_first by done. rewrite decide_False by lia.
    rewrite decide_True; [done|]. apply elem_of_app. right. by left.
Qed.

(** X16: what [getSourceFixAllESLint] reads after
    [setSourceFixAllESLint].  A map gives back the value that was set;
    [null] stays [null]; an array gives [true] after setting [true],
    and after setting anything else it gives [undefined] unless the
    entry occurred more than once, because only its first occurrence is
    removed. *)
Theorem setSourceFixAllESLint_reads_back (setting : CodeActionsOnSave.t)
    (value : option bool) :
  CodeActionsOnSave.getSourceFixAllESLint
    (CodeActionsOnSave.setSourceFixAllESLint setting value)
  = match setting with
    | CodeActionsOnSave.null => None
    | CodeActionsOnSave.map _ => value
    | CodeActionsOnSave.array entries =>
        if decide (value = Some true) then Some true
        else if decide (2 ≤ length (filter (fun e => e = "source.fixAll.eslint") entries))%nat
        then Some true else None
    end.
Proof.
  destruct setting as [|entries|props].
  - done.
  - destruct (decide (value = Some true)) as [->|Hvalue].
    + rewrite setSourceFixAllESLint_add. unfold CodeActionsOnSave.getSourceFixAllESLint,
        CodeActionsOnSave.includes.
      rewrite bool_decide_eq_true_2; [done|].
      case_decide; [done|]. apply elem_of_app. right. by left.
    + unfold CodeActionsOnSave.getSourceFixAllESLint, CodeActionsOnSave.includes.
      destruct (setSourceFixAllESLint_remove entries value Hvalue)
        as [[Hnin ->]|(before & after & -> & Hnin & ->)].
      * rewrite bool_decide_eq_false_2 by done.
        rewrite count_absent by done. by rewrite decide_False by (simpl; lia).
      * rewrite filter_app, filter_cons_True, count_absent by done. simpl.
        destruct (decide ("source.fixAll.eslint" ∈ after)) as [Hin|Hnin'].
        -- rewrite bool_decide_eq_true_2 by (apply elem_of_app; by right).
           apply count_present in Hin. by rewrite decide_True by lia.
        -- rewrite bool_decide_eq_false_2.
           ++ rewrite (count_absent _ after) by done. by rewrite decide_False by (simpl; lia).
           ++ by intros [?|?]%elem_of_app.
  - simpl. by rewrite lookup_insert_eq.
Qed.

(** X17: [setSourceFixAllESLint] leaves everything but its own entry:
    [getSourceFixAll] reads the same, and the other entries of an array
    keep their order. *)
Theorem setSourceFixAllESLint_keeps_others (setting : CodeActionsOnSave.t)
    (value : option bool) :
  CodeActionsOnSave.getSourceFixAll (CodeActionsOnSave.setSourceFixAllESLint setting value)
  = CodeActionsOnSave.getSourceFixAll setting
  ∧ ∀ entries, setting = CodeActionsOnSave.array entries →
      ∃ entries',
        CodeActionsOnSave.setSourceFixAllESLint setting value
        = CodeActionsOnSave.array entries'
        ∧ filter (fun e => e ≠ "source.fixAll.eslint") entries'
          = filter (fun e => e ≠ "source.fixAll.eslint") entries.
Proof.
  assert (∀ entries, ∃ entries',
            CodeActionsOnSave.setSourceFixAllESLint (CodeActionsOnSave.array entries) value
            = CodeActionsOnSave.array entries'
            ∧ filter (fun e => e ≠ "source.fixAll.eslint") entries'
              = filter (fun e => e ≠ "source.fixAll.eslint") entries) as Harray.
  { intros entries. destruct (decide (value = Some true)) as [->|Hvalue].
    - rewrite setSourceFixAllESLint_add. eexists. split; [done|].
      case_decide; [done|]. rewrite filter_app.
      rewrite (filter_cons_False _ "source.fixAll.eslint") by (by intros ?).
      by rewrite app_nil_r.
    - destruct (setSourceFixAllESLint_remove entries value Hvalue)
        as [[Hnin ->]|(before & after & -> & Hnin & ->)]; [by eexists|].
      eexists. split; [done|]. rewrite !filter_app.
      by rewrite (filter_cons_False _ "source.fixAll.eslint") by (by intros ?). }
  split.
  - destruct setting as [|entries|props]; [done| |].
    + destruct (Harray entries) as (entries' & -> & Hfilter).
      unfold CodeActionsOnSave.getSourceFixAll, CodeActionsOnSave.includes.
      assert (∀ l : list string,
                "source.fixAll" ∈ l
                ↔ "source.fixAll" ∈ filter (fun e => e ≠ "source.fixAll.eslint") l) as Hin.
      { intros l. rewrite list_elem_of_filter. split; [|by intros [_ ?]].
        intros ?. split; [|done]. by intros [=]. }
      destruct (decide ("source.fixAll" ∈ entries)) as [He|He].
      * rewrite (bool_decide_eq_true_2 (_ ∈ entries)) by done.
        rewrite bool_decide_eq_true_2; [done|].
        apply (proj2 (Hin _)). rewrite Hfilter. by apply (proj1 (Hin _)).
      * rewrite (bool_decide_eq_false_2 (_ ∈ entries)) by done.
        rewrite bool_decide_eq_false_2; [done|].
        intros He'. apply He, (proj2 (Hin _)). rewrite <- Hfilter.
        by apply (proj1 (Hin _)).
    + simpl. by rewrite lookup_insert_ne.
  - intros entries ->. apply Harray.
Qed.

(** ** [computeValidate] *)

Lemma validate_loop_spec languageId validate :
  validate_loop languageId validate = true
  ↔ ∃ entry, entry ∈ validate ∧ lists_language languageId entry.
Proof.
  induction validate as [|item validate IH]; simpl.
  - split; [done|]. intros (entry & Hin & _). by apply elem_of_nil in Hin.
  - assert ((∃ entry, entry ∈ item :: validate ∧ lists_language languageId entry)
            ↔ lists_language languageId item
              ∨ ∃ entry, entry ∈ validate ∧ lists_language languageId entry) as ->.
    { split.
      - intros (entry & [->|Hin]%elem_of_cons & Hl); [by left|right; by exists entry].
      - intros [Hl|(entry & Hin & Hl)]; [exists item; split; [by left|done]|].
        exists entry. split; [by right|done]. }
    rewrite <- IH. unfold lists_language.
    destruct item as [s|language autoFix|].
    + case_decide as Hs.
      * subst. split; [intros _; by left; left|done].
      * split; [by right|]. intros [[[= ?]|(? & [=] & _)]|?]; done.
    + unfold ValidateItem.is_.
      destruct (decide (language = JsString languageId)) as [->|Hne].
      * rewrite bool_decide_eq_true_2 by done. simpl. rewrite andb_true_r.
        destruct (Is.boolean autoFix || Is.undefined autoFix) eqn:Hauto.
        -- split; [intros _|done]. left. right. by exists autoFix.
        -- split; [by right|]. intros [[[=]|(af & [= <-] & Haf)]|?]; [congruence|done].
      * rewrite bool_decide_eq_false_2 by done. rewrite andb_false_r.
        split; [by right|]. intros [[[=]|(af & [= ? ?] & _)]|?]; [congruence|done].
    + split; [by right|]. intros [[[=]|(? & [=] & _)]|?]; done.
Qed.

(** X18: [computeValidate] answers [on] exactly when the deprecated
    [enable] setting is not off and the [validate] array lists the
    document's language, as a string or as an item whose [autoFix] is a
    boolean or absent; a failed probe and the [probe] array play no
    part. *)
Theorem computeValidate_on (config : string -> EslintConfiguration)
    (probeFailed : gset string) (textDocument : TextDocument) :
  computeValidate config probeFailed textDocument = Validate.on
  ↔ config_enable (config (document_uri textDocument)) = true
    ∧ ∃ validate entry,
        config_validate (config (document_uri textDocument)) = Some validate
        ∧ entry ∈ validate
        ∧ lists_language (languageId textDocument) entry.
Proof.
  unfold computeValidate.
  destruct (config_enable (config (document_uri textDocument))); simpl;
    [|split; [done|by intros [? _]]].
  destruct (config_validate (config (document_uri textDocument))) as [validate|].
  - destruct (validate_loop (languageId textDocument) validate) eqn:Hloop.
    + apply validate_loop_spec in Hloop as (entry & Hin & Hl).
      split; [intros _|done]. split; [done|]. by exists validate, entry.
    + split.
      * repeat case_match; done.
      * intros (_ & validate' & entry & [= <-] & Hin & Hl).
        assert (validate_loop (languageId textDocument) validate = true) as Ht.
        { apply validate_loop_spec. by exists entry. }
        congruence.
  - split.
    + repeat case_match; done.
    + by intros (_ & validate' & entry & [=] & _).
Qed.

(** X19: recording a failed probe for a document turns its [probe]
    answer into [off] and changes no other answer; the answers for the
    other documents are as before. *)
Theorem computeValidate_probe_failed (config : string -> EslintConfiguration)
    (probeFailed : gset string) (failed : string) (textDocument : TextDocument) :
  computeValidate config ({[failed]} ∪ probeFailed) textDocument
  = if decide (document_uri textDocument = failed
               ∧ computeValidate config probeFailed textDocument = Validate.probe)
    then Validate.off
    else computeValidate config probeFailed textDocument.
Proof.
  unfold computeValidate.
  destruct (config_enable (config (document_uri textDocument))); simpl;
    [|by case_decide].
  destruct (match config_validate (config (document_uri textDocument)) with
            | Some validate => validate_loop (languageId textDocument) validate
            | None => false
            end).
  { case_decide as H; [by destruct H|done]. }
  destruct (decide (document_uri textDocument ∈ probeFailed)) as [Hin|Hnin].
  - rewrite decide_True by (apply elem_of_union; by right).
    case_decide as H; [done|done].
  - destruct (decide (document_uri textDocument = failed)) as [Heq|Hne].
    + rewrite decide_True by (apply elem_of_union; left; by apply elem_of_singleton).
      destruct (match config_probe (config (document_uri textDocument)) with
                | Some probe => probe_loop (languageId textDocument) probe
                | None => false
                end).
      * by rewrite decide_True.
      * case_decide as H; [by destruct H|done].
    + rewrite (decide_False (P:=_ ∈ _ ∪ _)).
      * rewrite decide_False; [done|]. by intros [? _].
      * intros [?%elem_of_singleton|?]%elem_of_union; done.
Qed.

(** ** Document synchronisation middleware *)

Lemma handle_protocol env event (syncedDocuments : gmap string TextDocument) :
  let '(synced', forwarded) := Middleware.handle env event syncedDocuments in
  well_bracketed (dom syncedDocuments) (option_list forwarded)
  ∧ dom synced' = opened_after (dom syncedDocuments) (option_list forwarded).
Proof.
  destruct event as [document|document|document|document|document|document]; simpl;
    unfold Middleware.didOpen, Middleware.didChange, Middleware.willSave,
      Middleware.willSaveWaitUntil, Middleware.didSave, Middleware.didClose,
      Middleware.forward_if_synced.
  - destruct (_ || _ || negb _); simpl; [|done].
    split; [done|]. by rewrite dom_insert_L.
  - destruct (syncedDocuments !! document) eqn:Hsynced; simpl; [|done].
    split; [|done]. split; [|done]. by apply (elem_of_dom_2 _ _ _ Hsynced).
  - destruct (syncedDocuments !! document) eqn:Hsynced; simpl; [|done].
    split; [|done]. split; [|done]. by apply (elem_of_dom_2 _ _ _ Hsynced).
  - destruct (syncedDocuments !! document) eqn:Hsynced; simpl; [|done].
    split; [|done]. split; [|done]. by apply (elem_of_dom_2 _ _ _ Hsynced).
  - destruct (syncedDocuments !! document) eqn:Hsynced; simpl; [|done].
    split; [|done]. split; [|done]. by apply (elem_of_dom_2 _ _ _ Hsynced).
  - destruct (syncedDocuments !! document) eqn:Hsynced; simpl; [|done].
    split; [|by rewrite dom_delete_L]. split; [|done].
    by apply (elem_of_dom_2 _ _ _ Hsynced).
Qed.

Lemma well_bracketed_app opened trace1 trace2 :
  well_bracketed opened (trace1 ++ trace2)%list
  ↔ well_bracketed opened trace1
    ∧ well_bracketed (opened_after opened trace1) trace2.
Proof.
  revert opened. induction trace1 as [|event trace1 IH]; intros opened; simpl.
  - tauto.
  - destruct event; rewrite IH; tauto.
Qed.

Lemma opened_after_app opened trace1 trace2 :
  opened_after opened (trace1 ++ trace2)%list
  = opened_after (opened_after opened trace1) trace2.
Proof.
  revert opened. induction trace1 as [|event trace1 IH]; intros opened; simpl;
    [done|]. destruct event; apply IH.
Qed.

(** X20: whatever notifications the client sends, in whatever
    surroundings, the server sees a well-formed protocol: every change,
    save and close the middleware forwards is for a document whose open
    it forwarded before and has not closed since, and [syncedDocuments]
    holds exactly the documents the server has been told are open. *)
Theorem middleware_forwards_well_bracketed (calls : list (SyncEnv * SyncEvent))
    (syncedDocuments : gmap string TextDocument) :
  well_bracketed (dom syncedDocuments) (Middleware.run calls syncedDocuments).2
  ∧ dom (Middleware.run calls syncedDocuments).1
    = opened_after (dom syncedDocuments) (Middleware.run calls syncedDocuments).2.
Proof.
  revert syncedDocuments.
  induction calls as [|[env event] calls IH]; intros syncedDocuments; simpl; [done|].
  pose proof (handle_protocol env event syncedDocuments) as Hstep.
  destruct (Middleware.handle env event syncedDocuments) as [synced1 forwarded].
  destruct Hstep as [Hwell Hdom].
  specialize (IH synced1).
  destruct (Middleware.run calls synced1) as [synced2 rest]. simpl in *.
  destruct IH as [IHwell IHdom].
  rewrite well_bracketed_app, opened_after_app, <- Hdom. by split_and!.
Qed.

(** X21: a document whose validation is [off] and that is neither a
    [package.json] nor an ESLint configuration file is never announced
    to the server: as long as that holds at each call, nothing the
    middleware forwards mentions it. *)
Theorem middleware_hides_unvalidated (calls : list (SyncEnv * SyncEvent))
    (syncedDocuments : gmap string TextDocument) (uri : string)
    (Hclosed : syncedDocuments !! uri = None)
    (Hoff : ∀ env document, (env, DidOpen document) ∈ calls ->
            document_uri document = uri ->
            env_matchesPackageJson env document = false
            ∧ env_matchesConfigFile env document = false
            ∧ computeValidate (env_config env) (env_probeFailed env) document
              = Validate.off) :
  (Middleware.run calls syncedDocuments).1 !! uri = None
  ∧ ∀ event, event ∈ (Middleware.run calls syncedDocuments).2 ->
      match event with
      | DidOpen document => document_uri document ≠ uri
      | DidChange document | WillSave document | WillSaveWaitUntil document
      | DidSave document | DidClose document => document ≠ uri
      end.
Proof.
  revert syncedDocuments Hclosed.
  induction calls as [|[env event] calls IH]; intros syncedDocuments Hclosed; simpl.
  { split; [done|]. intros event Hin. by apply elem_of_nil in Hin. }
  assert (let '(synced1, forwarded) := Middleware.handle env event syncedDocuments in
          synced1 !! uri = None
          ∧ ∀ event', forwarded = Some event' ->
              match event' with
              | DidOpen document => document_uri document ≠ uri
              | DidChange document | WillSave document | WillSaveWaitUntil document
              | DidSave document | DidClose document => document ≠ uri
              end) as Hstep.
  { destruct event as [document|document|document|document|document|document]; simpl;
      unfold Middleware.didOpen, Middleware.didChange, Middleware.willSave,
        Middleware.willSaveWaitUntil, Middleware.didSave, Middleware.didClose,
        Middleware.forward_if_synced.
    - destruct (decide (document_uri document = uri)) as [Heq|Hne].
      + destruct (Hoff env document) as (-> & -> & ->); [by left|done|]. simpl.
        split; [done|]. by intros ? [=].
      + destruct (_ || _ || negb _); (split; [|by intros ? [= <-]]); [|done].
        by rewrite lookup_insert_ne.
    - destruct (syncedDocuments !! document) eqn:Hsynced;
        (split; [done|intros ? [= <-]]). congruence.
    - destruct (syncedDocuments !! document) eqn:Hsynced;
        (split; [done|intros ? [= <-]]). congruence.
    - destruct (syncedDocuments !! document) eqn:Hsynced;
        (split; [done|intros ? [= <-]]). congruence.
    - destruct (syncedDocuments !! document) eqn:Hsynced;
        (split; [done|intros ? [= <-]]). congruence.
    - destruct (syncedDocuments !! document) eqn:Hsynced.
      + split; [|intros ? [= <-]; congruence].
        destruct (decide (document = uri)) as [->|Hne];
          [by rewrite lookup_delete_eq|by rewrite lookup_delete_ne].
      + split; [done|]. by intros ? [=]. }
  destruct (Middleware.handle env event syncedDocuments) as [synced1 forwarded].
  destruct Hstep as [Hclosed1 Hforwarded].
  destruct (IH (fun env' document Hin => Hoff env' document
                  (proj2 (elem_of_cons _ _ _) (or_intror Hin)))
               synced1 Hclosed1) as [Hfinal Hrest].
  destruct (Middleware.run calls synced1) as [synced2 rest]. simpl in *.
  split; [done|].
  intros event' [Hin|Hin]%elem_of_app; [|by apply Hrest].
  destruct forwarded as [event0|]; simpl in Hin.
  - apply list_elem_of_singleton in Hin as ->. by apply Hforwarded.
  - by apply elem_of_nil in Hin.
Qed.

Lemma middleware_hides_unvalidated_witness :
  (Middleware.run [(sampleEnv, DidOpen textDocument_plain);
                   (sampleEnv, DidChange "file:///ws/notes.txt");
                   (sampleEnv, DidOpen vueDocument);
                   (sampleEnv, DidClose "file:///ws/notes.txt")] ∅).1
    !! "file:///ws/notes.txt" = None
  ∧ ∀ event,
      event ∈ (Middleware.run [(sampleEnv, DidOpen textDocument_plain);
                               (sampleEnv, DidChange "file:///ws/notes.txt");
                               (sampleEnv, DidOpen vueDocument);
                               (sampleEnv, DidClose "file:///ws/notes.txt")] ∅).2 ->
      match event with
      | DidOpen document => document_uri document ≠ "file:///ws/notes.txt"
      | DidChange document | WillSave document | WillSaveWaitUntil document
      | DidSave document | DidClose document => document ≠ "file:///ws/notes.txt"
      end.
Proof.
  apply middleware_hides_unvalidated; [reflexivity|].
  intros env document Hin Huri.
  repeat (apply elem_of_cons in Hin as [Hin|Hin]; [injection Hin as -> Hdoc|]);
    try discriminate Hdoc.
  - subst document. split_and!; vm_compute; reflexivity.
  - subst document. discriminate Huri.
  - by apply elem_of_nil in Hin.
Defined.

(** ** [provideCodeActions] *)

(** X22: the [provideCodeActions] middleware asks the server exactly
    when the document is synced, the context has diagnostics, and either
    [only] starts with a supported kind or [only] is absent and at least
    one diagnostic comes from ESLint; the server then receives the same
    [only] and the ESLint diagnostics alone, in their order. *)
Theorem provideCodeActions_calls_next (syncedDocuments : gmap string TextDocument)
    (document : string) (context newContext : CodeActionContext) :
  provideCodeActions syncedDocuments document context = CallNext newContext
  ↔ is_Some (syncedDocuments !! document)
    ∧ ∃ diagnostics,
        context_diagnostics context = Some diagnostics
        ∧ newContext = {| context_only := context_only context;
                          context_diagnostics := Some (List.filter is_eslint diagnostics) |}
        ∧ match context_only context with
          | Some only => ∃ kind, head only = Some kind ∧ kind ∈ supportedQuickFixKinds
          | None => List.filter is_eslint diagnostics ≠ []
          end.
Proof.
  unfold provideCodeActions.
  destruct (syncedDocuments !! document) as [synced|];
    [|split; [done|by intros [[? [=]] _]]].
  destruct context as [only diagnostics]; simpl.
  destruct only as [only|].
  - destruct (head only) as [kind|] eqn:Hhead; simpl.
    + destruct (decide (kind ∈ supportedQuickFixKinds)) as [Hin|Hnin].
      * rewrite bool_decide_eq_true_2 by done. simpl.
        destruct diagnostics as [diagnostics|].
        -- split.
           ++ intros [= <-]. split; [by eexists|].
              exists diagnostics. split_and!; [done..|]. by exists kind.
           ++ intros (_ & diagnostics' & [= <-] & -> & _). done.
        -- split; [done|]. by intros (_ & ? & [=] & _).
      * rewrite bool_decide_eq_false_2 by done. simpl.
        split; [done|].
        intros (_ & ? & _ & _ & kind' & [= <-] & Hin). done.
    + split; [done|]. by intros (_ & ? & _ & _ & kind' & [=] & _).
  - destruct diagnostics as [diagnostics|]; simpl;
      [|split; [done|by intros (_ & ? & [=] & _)]].
    destruct (decide (length diagnostics = 0)) as [Hlen|Hlen].
    + rewrite bool_decide_eq_true_2 by done.
      split; [done|]. intros (_ & diagnostics' & [= <-] & _ & Hne).
      apply nil_length_inv in Hlen. by subst.
    + rewrite bool_decide_eq_false_2 by done.
      destruct (decide (length (List.filter is_eslint diagnostics) = 0)) as [Hf|Hf].
      * rewrite bool_decide_eq_true_2 by done.
        split; [done|]. intros (_ & diagnostics' & [= <-] & _ & Hne).
        by apply nil_length_inv in Hf.
      * rewrite bool_decide_eq_false_2 by done.
        split.
        -- intros [= <-]. split; [by eexists|].
           exists diagnostics. split_and!; [done..|].
           intros Heq. by rewrite Heq in Hf.
        -- intros (_ & diagnostics' & [= <-] & -> & _). done.
Qed.

(** X23: the only way [provideCodeActions] raises is a context that
    names a supported kind first in [only] and carries no [diagnostics]
    array, for a synced document: the loop then iterates over
    [undefined]. *)
Theorem provideCodeActions_raises (syncedDocuments : gmap string TextDocument)
    (document : string) (context : CodeActionContext) (e : Exception) :
  provideCodeActions syncedDocuments document context = Raises e
  ↔ e = TypeError
    ∧ is_Some (syncedDocuments !! document)
    ∧ context_diagnostics context = None
    ∧ ∃ only kind, context_only context = Some only
                   ∧ head only = Some kind
                   ∧ kind ∈ supportedQuickFixKinds.
Proof.
  unfold provideCodeActions.
  destruct (syncedDocuments !! document) as [synced|];
    [|split; [done|by intros (_ & [? [=]] & _)]].
  destruct context as [only diagnostics]; simpl.
  destruct only as [only|].
  - destruct (head only) as [kind|] eqn:Hhead; simpl.
    + destruct (decide (kind ∈ supportedQuickFixKinds)) as [Hin|Hnin].
      * rewrite bool_decide_eq_true_2 by done. simpl.
        destruct diagnostics as [diagnostics|].
        -- split; [done|]. by intros (_ & _ & [=] & _).
        -- split.
           ++ intros [= <-]. split_and!; [done|by eexists|done|].
              by exists only, kind.
           ++ by intros (-> & _).
      * rewrite bool_decide_eq_false_2 by done. simpl.
        split; [done|].
        intros (_ & _ & _ & only' & kind' & [= <-] & Hk & Hin). congruence.
    + split; [done|].
      intros (_ & _ & _ & only' & kind' & [= <-] & Hk & _). congruence.
  - split.
    + destruct diagnostics as [diagnostics|]; simpl; [|done].
      repeat case_match; done.
    + by intros (_ & _ & _ & only' & kind' & [=] & _).
Qed.

(** ** Activation *)

Lemma configurationChanged_loop_spec config probeFailed textDocuments a :
  configurationChanged_loop config probeFailed textDocuments a
  = if existsb (fun textDocument =>
                  bool_decide (computeValidate config probeFailed textDocument
                               ≠ Validate.off)) textDocuments
    then {| activated := true; realActivations := S (realActivations a) |}
    else a.
Proof.
  induction textDocuments as [|textDocument textDocuments IH]; simpl; [done|].
  destruct (bool_decide _); [done|]. apply IH.
Qed.

Lemma activation_step_spec a call :
  activation_step a call
  = if activated a then a
    else if sees_document_to_validate call
    then {| activated := true; realActivations := S (realActivations a) |}
    else a.
Proof.
  destruct call as [[config probeFailed] [textDocument|textDocuments]]; simpl.
  - done.
  - unfold configurationChanged. by rewrite configurationChanged_loop_spec.
Qed.

Lemma activation_stays a calls :
  activated a = true -> foldl activation_step a calls = a.
Proof.
  intros Ha. induction calls as [|call calls IH]; simpl; [done|].
  by rewrite activation_step_spec, Ha.
Qed.

(** X24: over any sequence of opened documents and configuration
    changes, each with the configuration of its moment, [realActivate]
    runs once if some call sees a document to validate and never
    otherwise; later calls do not run it again. *)
Theorem realActivate_runs_once
    (calls : list ((string -> EslintConfiguration) * gset string * ActivationEvent)) :
  foldl activation_step {| activated := false; realActivations := 0 |} calls
  = if existsb sees_document_to_validate calls
    then {| activated := true; realActivations := 1 |}
    else {| activated := false; realActivations := 0 |}.
Proof.
  induction calls as [|call calls IH]; simpl; [done|].
  rewrite activation_step_spec. simpl.
  destruct (sees_document_to_validate call); simpl; [|done].
  by apply activation_stays.
Qed.

(** ** The status bar *)

(** X25: when the client changes state the status item is always
    shown.  While the server starts it reads the starting text; once a
    status notification has been received, whatever its value, it reads
    [Eslint error] in both other states, since [globalStatus ??
    serverRunning === false] is then the truthy [globalStatus]; before
    any notification it is empty when running and [Eslint error] when
    stopped. *)
Theorem onDidChangeState_status_bar (newState : ClientState)
    (globalStatus : option Status.t) (alwaysShow alwaysAllow : bool) :
  (onDidChangeState newState globalStatus alwaysShow alwaysAllow).2
  = {| bar_text :=
         match newState, globalStatus with
         | ClientStarting, _ => "ESLint server is starting."
         | ClientRunning, None => ""
         | _, _ => "Eslint error"
         end;
       bar_shown := true |}.
Proof.
  unfold onDidChangeState, updateStatusBar. simpl.
  destruct newState, globalStatus as [[]|], alwaysShow, alwaysAllow; reflexivity.
Qed.

(** ** Resource statuses *)

Lemma findApplicableStatus_reported h uri info s :
  resource2ResourceInfo s !! uri = Some info ->
  findApplicableStatus h (Some uri) s = (Normal (status info, true), s).
Proof.
  intros Hinfo. unfold findApplicableStatus, bind, get_store. simpl.
  by rewrite Hinfo.
Qed.

Lemma getExecutionInfo_reported h uri info strict s :
  resource2ResourceInfo s !! uri = Some info ->
  getExecutionInfo h (Some uri) strict s = (Normal (executionInfo info), s).
Proof.
  intros Hinfo. unfold getExecutionInfo, bind, get_store. simpl.
  by rewrite Hinfo.
Qed.

Lemma updateStatusInfo_lookup uri state globalStatus s :
  resource2ResourceInfo (updateStatusInfo uri state (globalStatus, s)).2 !! uri
  = Some {| status := state;
            executionInfo := resource2ResourceInfo s !! uri ≫= executionInfo |}
  ∧ ∀ uri', uri' ≠ uri ->
      resource2ResourceInfo (updateStatusInfo uri state (globalStatus, s)).2 !! uri'
      = resource2ResourceInfo s !! uri'.
Proof.
  unfold updateStatusInfo. cbn [fst snd].
  destruct (resource2ResourceInfo s !! uri) as [info|]; simpl;
    (split; [apply lookup_insert_eq|intros uri' Hne; by apply lookup_insert_ne]).
Qed.

Lemma noConfig_lookup uri s :
  resource2ResourceInfo (noConfig uri s) !! uri
  = Some {| status := Status.warn;
            executionInfo := resource2ResourceInfo s !! uri ≫= executionInfo |}
  ∧ ∀ uri', uri' ≠ uri ->
      resource2ResourceInfo (noConfig uri s) !! uri' = resource2ResourceInfo s !! uri'.
Proof.
  unfold noConfig.
  destruct (resource2ResourceInfo s !! uri) as [info|]; simpl;
    (split; [apply lookup_insert_eq|intros uri' Hne; by apply lookup_insert_ne]).
Qed.

(** X26: a status notification for a document, and likewise a
    no-configuration request (with status [warn]), decides what
    [findApplicableStatus] shows for that document from then on,
    whatever the libraries' records say and whatever the host does: the
    reported status, flagged as the document's own.  The record the
    document was attached to stays attached, and the other documents
    keep what they had. *)
Theorem reported_status_is_shown (h : Host) (uri : string) (state : Status.t)
    (globalStatus : option Status.t) (s : Store) :
  let s1 := (updateStatusInfo uri state (globalStatus, s)).2 in
  let s2 := noConfig uri s in
  (updateStatusInfo uri state (globalStatus, s)).1 = Some state
  ∧ findApplicableStatus h (Some uri) s1 = (Normal (state, true), s1)
  ∧ findApplicableStatus h (Some uri) s2 = (Normal (Status.warn, true), s2)
  ∧ (∀ strict, getExecutionInfo h (Some uri) strict s1
               = (Normal (resource2ResourceInfo s !! uri ≫= executionInfo), s1))
  ∧ (∀ strict, getExecutionInfo h (Some uri) strict s2
               = (Normal (resource2ResourceInfo s !! uri ≫= executionInfo), s2))
  ∧ ∀ uri', uri' ≠ uri ->
      resource2ResourceInfo s1 !! uri' = resource2ResourceInfo s !! uri'
      ∧ resource2ResourceInfo s2 !! uri' = resource2ResourceInfo s !! uri'.
Proof.
  intros s1 s2. subst s1 s2.
  pose proof (updateStatusInfo_lookup uri state globalStatus s) as [Hset Hothers].
  pose proof (noConfig_lookup uri s) as [Hwarn Hothers'].
  split_and!.
  - done.
  - by rewrite (findApplicableStatus_reported h uri _ _ Hset).
  - by rewrite (findApplicableStatus_reported h uri _ _ Hwarn).
  - intros strict. by rewrite (getExecutionInfo_reported h uri _ strict _ Hset).
  - intros strict. by rewrite (getExecutionInfo_reported h uri _ strict _ Hwarn).
  - intros uri' Hne. split; [by apply Hothers|by apply Hothers'].
Qed.

Lemma consistent_resources s (resources : gmap string ResourceInfo) :
  (∀ u ri (r : Ref), resources !! u = Some ri -> executionInfo ri = Some r ->
     ∃ u' ri', resource2ResourceInfo s !! u' = Some ri' ∧ executionInfo ri' = Some r) ->
  consistent s -> consistent (with_resource2ResourceInfo resources s).
Proof.
  intros Hres (Hnd & Hrec & Hfold & Hresource).
  unfold consistent, tracked in *. simpl. split_and!; [done..|].
  intros u ri r Hu Hr. destruct (Hres u ri r Hu Hr) as (u' & ri' & Hu' & Hr').
  by eapply Hresource.
Qed.

(** X27: status notifications, no-configuration requests and closed
    documents keep the tracking maps consistent. *)
Theorem resource_statuses_keep_consistent (uri : string) (state : Status.t)
    (globalStatus : option Status.t) (s : Store) (Hc : consistent s) :
  consistent (updateStatusInfo uri state (globalStatus, s)).2
  ∧ consistent (noConfig uri s)
  ∧ consistent (onDidCloseTextDocument uri s).
Proof.
  assert (∀ st, consistent
            match resource2ResourceInfo s !! uri with
            | Some info =>
                with_resource2ResourceInfo
                  (<[uri := {| status := st; executionInfo := executionInfo info |}]>
                     (resource2ResourceInfo s)) s
            | None =>
                with_resource2ResourceInfo
                  (<[uri := {| status := st; executionInfo := None |}]>
                     (resource2ResourceInfo s)) s
            end) as Hset.
  { intros st. destruct (resource2ResourceInfo s !! uri) as [info|] eqn:Hinfo;
      (apply consistent_resources; [|done]); intros u ri r Hu Hr.
    - destruct (decide (u = uri)) as [->|Hne].
      + rewrite lookup_insert_eq in Hu. injection Hu as <-. by exists uri, info.
      + rewrite lookup_insert_ne in Hu by done. by exists u, ri.
    - destruct (decide (u = uri)) as [->|Hne].
      + rewrite lookup_insert_eq in Hu. injection Hu as <-. done.
      + rewrite lookup_insert_ne in Hu by done. by exists u, ri. }
  split_and!.
  - apply Hset.
  - unfold noConfig. eapply consistent_same_maps; [..|apply (Hset Status.warn)]; done.
  - unfold onDidCloseTextDocument. apply consistent_resources; [|done].
    intros u ri r Hu Hr. apply lookup_delete_Some in Hu as [_ Hu]. by exists u, ri.
Qed.

Lemma resource_statuses_keep_consistent_witness :
  consistent (updateStatusInfo "file:///ws/a.js" Status.error
                (None, store_one_session_library)).2
  ∧ consistent (noConfig "file:///ws/a.js" store_one_session_library)
  ∧ consistent (onDidCloseTextDocument "file:///ws/a.js" store_one_session_library).
Proof.
  apply (resource_statuses_keep_consistent _ _ _ store_one_session_library).
  concrete_consistent.
Defined.



(** ** [getExecutionInfo] *)

(** X29: on consistent tracking maps [getExecutionInfo] changes
    nothing and every record it hands out is a tracked, live record;
    with [strict] it does not ask the host and so cannot raise, and
    without [strict] the only way it raises is a failing
    workspace-folder lookup for a document that has no status. *)
Theorem getExecutionInfo_tracked (h : Host) (doc : option string) (strict : bool)
    (s : Store) (Hc : consistent s) :
  (getExecutionInfo h doc strict s).2 = s
  ∧ (∀ (r : Ref), (getExecutionInfo h doc strict s).1 = Normal (Some r) ->
       tracked s r ∧ is_Some (heap s !! r))
  ∧ ∀ e, (getExecutionInfo h doc strict s).1 = Thrown e ->
      strict = false
      ∧ ∃ uri, doc = Some uri ∧ resource2ResourceInfo s !! uri = None
               ∧ throws h (GetWorkspaceFolder uri) = true.
Proof.
  assert (∀ r : Ref, tracked s r -> tracked s r ∧ is_Some (heap s !! r)) as Hlive.
  { intros r Hr. split; [done|].
    destruct Hc as (_ & Hrec & _). unfold tracked, JsMap.values in Hr.
    apply list_elem_of_fmap in Hr as ([lp r'] & -> & Hin).
    destruct (Hrec lp r' Hin) as (info & Hinfo & _). by eexists. }
  destruct Hc as (_ & _ & Hfold & Hres).
  unfold getExecutionInfo.
  destruct doc as [uri|]; [|split_and!; [done|by intros ? [=]|by intros ? [=]]].
  unfold bind, get_store, call. simpl.
  destruct (resource2ResourceInfo s !! uri) as [info|] eqn:Hinfo; simpl.
  { split_and!; [done| |by intros ? [=]].
    intros r [= Hr]. apply Hlive. by eapply Hres. }
  destruct strict; simpl.
  { split_and!; [done|by intros ? [=]|by intros ? [=]]. }
  destruct (throws h (GetWorkspaceFolder uri)) eqn:Hthrows; simpl.
  { split_and!; [done|by intros ? [=]|]. intros e _. split; [done|]. by exists uri. }
  destruct (workspaceFolderOf h uri) as [folder|]; simpl;
    [|split_and!; [done|by intros ? [=]|by intros ? [=]]].
  destruct (workspaceFolder2ExecutionInfos s !! folder) as [values|] eqn:Hvalues; simpl;
    [|split_and!; [done|by intros ? [=]|by intros ? [=]]].
  split_and!; [done| |by intros ? [=]].
  intros r [= Hr]. apply Hlive. eapply Hfold; [done|].
  destruct values; [done|]. injection Hr as ->. by left.
Qed.

Lemma getExecutionInfo_tracked_witness :
  (getExecutionInfo quietHost (Some "file:///ws/a.js") true store_one_session_library).2
  = store_one_session_library
  ∧ (∀ (r : Ref),
       (getExecutionInfo quietHost (Some "file:///ws/a.js") true
          store_one_session_library).1 = Normal (Some r) ->
       tracked store_one_session_library r
       ∧ is_Some (heap store_one_session_library !! r))
  ∧ ∀ e, (getExecutionInfo quietHost (Some "file:///ws/a.js") true
            store_one_session_library).1 = Thrown e ->
      true = false
      ∧ ∃ uri, Some "file:///ws/a.js" = Some uri
               ∧ resource2ResourceInfo store_one_session_library !! uri = None
               ∧ throws quietHost (GetWorkspaceFolder uri) = true.
Proof.
  apply (getExecutionInfo_tracked quietHost (Some "file:///ws/a.js") true
           store_one_session_library).
  concrete_consistent.
Defined.

(** ** The [eslint.showOutputChannel] command *)

Lemma gate_decision_enabled s lp :
  lp ∉ disabledLibraries s -> gate_decision s lp ≠ ConfirmExecutionResult.disabled.
Proof.
  intros Hlp. unfold gate_decision. rewrite decide_False by done.
  destruct (eslintExecutionState s !! lp) as [[]|]; [done..|].
  by destruct (eslintAlwaysAllowExecutionState s).
Qed.

(** X30: when the status is [executionDisabled], the current document
    has no record, and exactly one library is disabled and was seen this
    session, the [eslint.showOutputChannel] command takes the library out
    of the disabled set before it opens the dialog.  A dismissed dialog
    therefore leaves the library enabled: the stored decisions are as
    before, nothing is disabled, the output channel is not shown, and no
    later request is answered [disabled]. *)
Theorem showOutputChannel_reenables_library (h : Host) (client : bool)
    (update : option (M unit)) (doc : option string) (selectedIdx : Z)
    (library : string) (p : ExecutionParams) (s : Store)
    (Hrel : reliable h)
    (Hdoc : (getExecutionInfo h doc false s).1 = Normal None)
    (Hdisabled : disabledLibraries s = {[library]})
    (Hsession : JsMap.get library (sessionState s) = Some p) :
  let run := showOutputChannel h client update doc (Some Status.executionDisabled)
               selectedIdx None s in
  run.1 = Normal false
  ∧ disabledLibraries run.2 = ∅
  ∧ eslintExecutionState run.2 = eslintExecutionState s
  ∧ eslintAlwaysAllowExecutionState run.2 = eslintAlwaysAllowExecutionState s
  ∧ ∀ request, (confirm h request run.2).1 ≠ Normal ConfirmExecutionResult.disabled.
Proof.
  intros run.
  assert (run = (Normal false,
                 with_sessionState (JsMap.set (libraryPath p) p (sessionState s))
                   (with_disabledLibraries ({[library]} ∖ {[library]}) s))) as ->.
  { subst run. unfold showOutputChannel.
    assert (getExecutionInfo h doc false s = (Normal None, s)) as Hget.
    { destruct (getExecutionInfo h doc false s) as [c s0] eqn:Hrun. simpl in Hdoc.
      subst c. f_equal.
      assert ((getExecutionInfo h doc false s).2 = s) as Hs; [|by rewrite Hrun in Hs].
      unfold getExecutionInfo. destruct doc as [uri|]; [|done].
      unfold bind, get_store, call. simpl.
      destruct (resource2ResourceInfo s !! uri); [done|]. simpl.
      rewrite (Hrel (GetWorkspaceFolder uri)). simpl.
      destruct (workspaceFolderOf h uri); [|done].
      by destruct (workspaceFolder2ExecutionInfos s !! _). }
    erewrite bind_normal by exact Hget.
    unfold bind at 1, get_store at 1. cbn [fst snd].
    rewrite decide_False by (intros [|[|]]; done).
    rewrite (decide_False (P:=Some Status.executionDisabled = Some Status.executionDenied))
      by done.
    rewrite (decide_True (P:=Some Status.executionDisabled = Some Status.executionDisabled))
      by done.
    rewrite Hdisabled, elements_singleton, Hsession.
    unfold askForLibraryConfirmation, ask_open, ask_resume, bind, modify, call, ret.
    simpl. rewrite !Hrel. simpl. by rewrite Hdisabled. }
  cbn [fst snd]. simpl.
  split_and!; [done|apply difference_diag_L|done|done|].
  intros request. rewrite confirm_gate_decision by done.
  intros [= Hgate]. revert Hgate. apply gate_decision_enabled. simpl.
  rewrite difference_diag_L. apply not_elem_of_empty.
Qed.

Lemma showOutputChannel_reenables_library_witness :
  let run := showOutputChannel quietHost true None (Some "file:///ws/other.js")
               (Some Status.executionDisabled) 0 None store_one_session_library in
  run.1 = Normal false
  ∧ disabledLibraries run.2 = ∅
  ∧ eslintExecutionState run.2 = eslintExecutionState store_one_session_library
  ∧ eslintAlwaysAllowExecutionState run.2
    = eslintAlwaysAllowExecutionState store_one_session_library
  ∧ ∀ request, (confirm quietHost request run.2).1
               ≠ Normal ConfirmExecutionResult.disabled.
Proof.
  apply (showOutputChannel_reenables_library quietHost true None
           (Some "file:///ws/other.js") 0 libA (as_params confirmA)
           store_one_session_library).
  - intros c. reflexivity.
  - reflexivity.
  - reflexivity.
  - reflexivity.
Defined.
